(** * DexOwl: the watchlist price-alert engine

    A shallow embedding of the alert engine of the Telegram price-alert bot:
    - [telegram-memecoin-bot/src/watchlist.js]  the JSON-file watchlist store
                                                 (the MongoDB variant of the same
                                                 module hands each operation to
                                                 the database and is not modelled),
    - [dexscreener.js]                           the market-data client and the
                                                 price / market-cap formatters,
    - [src/priceMonitor.js]                      the sweep ([checkPrices]), the
                                                 alert ([sendPriceAlert]) and the
                                                 timers ([startMonitor], [stopMonitor]),
    - [src/bot/processors.js]                    [processAdd],
    - [src/bot/constants.js], [interactive.js]   the chain tables, the keyboard
                                                 and the conversations of the
                                                 interactive commands,
    - [database.js]                              the connection to the database
                                                 with its retries.

    Conventions of the embedding.
    - A JavaScript number is an IEEE 754 double.  The store and the responses
      carry a number as a rational ([Q]); the rational stands for the double
      nearest to it (an infinity beyond the largest double), which is what
      [JSON.parse] and [parseFloat] make of its decimal.  The code that
      computes with numbers or prints them (the percent change and its
      threshold test, [formatPrice], [formatMarketCap]) works on that double:
      each arithmetic operation rounds to the nearest double, ties to even
      (module [Binary64]).  Elsewhere (the liquidity comparison of the batched
      fetch, the range test of a threshold) a number is stored and compared as
      the rational it carries, which is the comparison of the doubles whenever
      the rationals are doubles.
    - The digit-producing built-ins ([toFixed], [toExponential],
      [toLocaleString]) are defined by ECMA-262 and ECMA-402 on the exact
      value of the double, and so are they here; from 1e21 on [toFixed] gives
      the shortest digits that read back as the double, with an exponent.
    - A timer delay is what Node makes of it: a delay outside 1 ms to
      [2^31 - 1] ms is 1 ms, and an interval is armed again its period after
      the time its callback began.
    - A string is a byte string; [toLowerCase] lowers the ASCII letters
      (token addresses and chain identifiers are ASCII).
    - Effectful code lives in the monad [M]: a world (the watchlist file, the
      module variables, the timer table, the clock and the trace of observable
      effects) is threaded through, and a computation ends with a value, with a
      thrown exception, or out of fuel.
    - The file system is reliable: [loadWatchlist] and [saveWatchlist] do not
      take their [catch] branch.  The module [FileStore] is the store with
      these branches, on a file system that can fail.
    - The network and the chat platform are oracles: [Upstream] answers an
      HTTP request, a [Bot] resolves or rejects a [sendMessage].
    - One thread: an [await] hands control back, but no other handler runs in
      between; a sweep runs to its end before the next timer fires. *)

From Stdlib Require Import QArith Qabs Qround Qpower Lqa Ascii String DecimalString DecimalN.
From stdpp Require Import gmap strings list fin_maps.

Local Open Scope string_scope.

(** ** Numbers *)

Definition Qleb (x y : Q) : bool := Qle_bool x y.
Definition Qltb (x y : Q) : bool := negb (Qle_bool y x).
Definition Qgeb (x y : Q) : bool := Qle_bool y x.
Definition Qgtb (x y : Q) : bool := negb (Qle_bool x y).
Definition Qeqb (x y : Q) : bool := Qeq_bool x y.

(** [x || 0] on a number that may be missing ([undefined], [null], [NaN]):
    every falsy number becomes [0]. *)
Definition orZero (o : option Q) : Q :=
  match o with
  | Some q => if Qeqb q 0 then 0%Q else q
  | None => 0%Q
  end.

(** [s || d] on a string that may be missing: the empty string is falsy. *)
Definition orString (o : option string) (d : string) : string :=
  match o with
  | Some "" => d
  | Some s => s
  | None => d
  end.

(** ** Strings *)

Definition lowerAscii (c : ascii) : ascii :=
  let n := nat_of_ascii c in
  if (65 <=? n)%nat && (n <=? 90)%nat then ascii_of_nat (n + 32) else c.

Fixpoint toLowerCase (s : string) : string :=
  match s with
  | EmptyString => EmptyString
  | String c r => String (lowerAscii c) (toLowerCase r)
  end.

Definition escapeChar (c : ascii) : list ascii :=
  if bool_decide (c = "_"%char) || bool_decide (c = "*"%char)
     || bool_decide (c = "`"%char) || bool_decide (c = "["%char)
  then ["\"%char; c] else [c].

(** [text.replace(/[_*`\[]/g, '\\$&')] *)
Definition escapeMarkdown (text : string) : string :=
  string_of_list_ascii (concat (escapeChar <$> list_ascii_of_string text)).

(** ** Number formatting built-ins *)

Definition digitChar (d : Z) : ascii := ascii_of_nat (48 + Z.to_nat d).

(** The decimal representation of a natural number, ["0"] for zero. *)
Definition decimal (n : Z) : string :=
  DecimalString.NilZero.string_of_uint (N.to_uint (Z.to_N n)).

(** The last [k] decimal digits of [r], leading zeros included. *)
Fixpoint fixedDigits (k : nat) (r : Z) : string :=
  match k with
  | O => ""
  | S k' => String (digitChar ((r / 10 ^ Z.of_nat k') mod 10)) (fixedDigits k' r)
  end.

(** The integer nearest to a non-negative [x], the larger one on a tie. *)
Definition roundHalfUp (x : Q) : Z := Qfloor (x + (1 # 2)).

Definition pow10 (e : Z) : Q := Qpower (inject_Z 10) e.

(** [x.toFixed(f)] for [|x| < 10^21]: with [n] the integer for which
    [n / 10^f - x] is nearest to zero (the larger on a tie), the digits of
    [n] with a point before the last [f] of them. *)
Definition toFixed (f : nat) (x : Q) : string :=
  let s := if Qltb x 0 then "-" else "" in
  let n := roundHalfUp (Qabs x * pow10 (Z.of_nat f)) in
  let m := decimal (n / 10 ^ Z.of_nat f) in
  s ++ (if (f =? 0)%nat then m else m ++ "." ++ fixedDigits f n).

Definition digitCount (n : Z) : Z := Z.of_nat (String.length (decimal n)).

(** The [n] and [e] of [toExponential]: [10^f <= n < 10^(f+1)] with
    [n * 10^(e-f)] nearest to [x > 0], the larger on a tie.  The exponent is
    read off the digit counts of the reduced fraction. *)
Definition expDigits (f : nat) (x : Q) : Z * Z :=
  let r := Qred x in
  let guess := (digitCount (Qnum r) - digitCount (Zpos (Qden r)))%Z in
  let e := if Qleb (pow10 guess) r then guess else (guess - 1)%Z in
  let n := roundHalfUp (r / pow10 (e - Z.of_nat f)) in
  if (n =? 10 ^ Z.of_nat (S f))%Z then ((10 ^ Z.of_nat f)%Z, (e + 1)%Z) else (n, e).

(** [x.toExponential(f)] *)
Definition toExponential (f : nat) (x : Q) : string :=
  let s := if Qltb x 0 then "-" else "" in
  let '(n, e) := if Qeqb x 0 then (0%Z, 0%Z) else expDigits f (Qabs x) in
  let m := match fixedDigits (S f) n with
           | String d rest => if (f =? 0)%nat then String d rest
                              else String d ("." ++ rest)
           | EmptyString => EmptyString
           end in
  s ++ m ++ "e" ++ (if (e <? 0)%Z then "-" else "+") ++ decimal (Z.abs e).

Fixpoint insertCommas (count : nat) (revDigits : list ascii) : list ascii :=
  match revDigits with
  | [] => []
  | c :: rest =>
      if (count =? 3)%nat then ","%char :: c :: insertCommas 1 rest
      else c :: insertCommas (S count) rest
  end.

Definition groupThousands (digits : string) : string :=
  string_of_list_ascii (rev (insertCommas 0 (rev (list_ascii_of_string digits)))).

(** [x.toLocaleString('en-US', { minimumFractionDigits: 2,
    maximumFractionDigits: 2 })]: two decimals, the integer part grouped. *)
Definition toLocaleString2 (x : Q) : string :=
  let s := if Qltb x 0 then "-" else "" in
  let n := roundHalfUp (Qabs x * 100) in
  s ++ groupThousands (decimal (n / 100)) ++ "." ++ fixedDigits 2 n.

Fixpoint dropZeros (cs : list ascii) : list ascii :=
  match cs with
  | c :: rest => if bool_decide (c = "0"%char) then dropZeros rest else cs
  | [] => []
  end.

(** [s.replace(/\.?0+$/, '')]: the zeros that end the string go, and the
    point before them when there is one; a string that does not end with a
    zero is unchanged. *)
Definition stripZeros (s : string) : string :=
  let r := rev (list_ascii_of_string s) in
  let r' := dropZeros r in
  if (length r' =? length r)%nat then s
  else string_of_list_ascii
         (rev (match r' with
               | c :: r'' => if bool_decide (c = "."%char) then r'' else r'
               | [] => r'
               end)).

(** ** IEEE 754 binary64

    The numbers of the program are doubles.  A double is carried by the
    rational it is equal to, and a rational that is not a double (a decimal
    such as 0.7) stands for the double nearest to it, as [JSON.parse] and
    [parseFloat] read it.  An arithmetic operation rounds its exact result to
    the nearest double, the one with an even significand on a tie; beyond the
    largest double it gives an infinity, and an invalid operation gives NaN.
    There is one zero, the positive one: the program never divides by a
    computed zero. *)

Module Binary64.

Definition pow2 (e : Z) : Q := Qpower 2 e.

(** The [e] with [2^e <= x < 2^(e+1)], for [x > 0]. *)
Definition ilog2 (x : Q) : Z :=
  let guess := (Z.log2 (Qnum x) - Z.log2 (Zpos (Qden x)))%Z in
  if Qle_bool (pow2 guess) x then guess else (guess - 1)%Z.

(** The integer nearest to [x], the even one on a tie. *)
Definition nearestEven (x : Q) : Z :=
  let f := Qfloor x in
  match (x - inject_Z f ?= 1 # 2)%Q with
  | Lt => f
  | Gt => (f + 1)%Z
  | Eq => if Z.even f then f else (f + 1)%Z
  end.

(** The exponent of the unit in the last place at [x > 0]: 53 significant
    bits, and [2^-1074] below the normal range. *)
Definition ulpExp (x : Q) : Z := Z.max (ilog2 x - 52) (-1074).

Definition roundPos (x : Q) : Q :=
  Qred (inject_Z (nearestEven (x / pow2 (ulpExp x))) * pow2 (ulpExp x)).

Inductive Num :=
| Fin (q : Q)
| PInf
| NInf
| NaN.

(** The double nearest to [x], the one with an even significand on a tie;
    an infinity from [2^1024 - 2^970] on. *)
Definition round (x : Q) : Num :=
  match (x ?= 0)%Q with
  | Eq => Fin 0
  | Gt => let y := roundPos x in if Qle_bool (pow2 1024) y then PInf else Fin y
  | Lt => let y := roundPos (- x) in
          if Qle_bool (pow2 1024) y then NInf else Fin (Qred (- y))
  end.

Definition neg (a : Num) : Num :=
  match a with
  | Fin x => Fin (Qred (- x))
  | PInf => NInf
  | NInf => PInf
  | NaN => NaN
  end.

(** [a - b] *)
Definition sub (a b : Num) : Num :=
  match a, b with
  | NaN, _ | _, NaN => NaN
  | Fin x, Fin y => round (x - y)
  | Fin _, PInf => NInf
  | Fin _, NInf => PInf
  | PInf, PInf => NaN
  | PInf, _ => PInf
  | NInf, NInf => NaN
  | NInf, _ => NInf
  end.

Definition sign (a : Num) : comparison :=
  match a with
  | Fin x => (x ?= 0)%Q
  | PInf => Gt
  | NInf => Lt
  | NaN => Eq
  end.

Definition signedInf (s t : comparison) : Num :=
  match s, t with
  | Eq, _ | _, Eq => NaN
  | Gt, Gt | Lt, Lt => PInf
  | _, _ => NInf
  end.

(** [a * b] *)
Definition mul (a b : Num) : Num :=
  match a, b with
  | NaN, _ | _, NaN => NaN
  | Fin x, Fin y => round (x * y)
  | _, _ => signedInf (sign a) (sign b)
  end.

(** [a / b]; the zero of the embedding is the positive one. *)
Definition div (a b : Num) : Num :=
  match a, b with
  | NaN, _ | _, NaN => NaN
  | Fin x, Fin y => if Qeq_bool y 0 then signedInf (sign a) Gt else round (x / y)
  | Fin _, _ => Fin 0
  | _, Fin y => signedInf (sign a) (if Qeq_bool y 0 then Gt else sign b)
  | _, _ => NaN
  end.

(** [Math.abs a] *)
Definition abs (a : Num) : Num :=
  match a with
  | Fin x => Fin (Qred (Qabs x))
  | PInf | NInf => PInf
  | NaN => NaN
  end.

(** [a <= b] *)
Definition leb (a b : Num) : bool :=
  match a, b with
  | NaN, _ | _, NaN => false
  | Fin x, Fin y => Qle_bool x y
  | NInf, _ | _, PInf => true
  | _, _ => false
  end.

(** [a < b] *)
Definition ltb (a b : Num) : bool :=
  match a, b with
  | NaN, _ | _, NaN => false
  | _, _ => negb (leb b a)
  end.

(** A lower bound on a number that is not NaN: [b <= a]. *)
Definition atLeast (b : Q) (a : Num) : Prop :=
  match a with
  | Fin y => (b <= y)%Q
  | PInf => True
  | _ => False
  end.

Definition geb (a b : Num) : bool := leb b a.
Definition gtb (a b : Num) : bool := ltb b a.

(** [a === b] *)
Definition eqb (a b : Num) : bool :=
  match a, b with
  | Fin x, Fin y => Qeq_bool x y
  | PInf, PInf | NInf, NInf => true
  | _, _ => false
  end.

(** *** Number::toString and toFixed *)

(** The integers [s] of [k] digits with [s * 10^(n-k)] a decimal of the
    double [x]: one that rounds to [x]. *)
Definition digitsFor (x : Q) (k : nat) (n : Z) : list (Z * Z) :=
  let scale := pow10 (n - Z.of_nat k) in
  let f := Qfloor (x / scale) in
  (fun s => (s, n)) <$>
  List.filter (fun s => (10 ^ (Z.of_nat k - 1) <=? s)%Z && (s <? 10 ^ Z.of_nat k)%Z
                        && match round (inject_Z s * scale) with
                           | Fin y => Qeq_bool y x
                           | _ => false
                           end)
              [f; (f + 1)%Z].

(** Of two candidates, the one nearer to [x]; the even one on a tie. *)
Definition nearer (x : Q) (k : nat) (a b : Z * Z) : Z * Z :=
  let value (c : Z * Z) := (inject_Z (fst c) * pow10 (snd c - Z.of_nat k))%Q in
  match (Qabs (value a - x) ?= Qabs (value b - x))%Q with
  | Lt => a
  | Gt => b
  | Eq => if Z.even (fst a) then a else b
  end.

(** The shortest digits: the least [k] from [k] on with a candidate. *)
Fixpoint shortest (fuel : nat) (x : Q) (k : nat) : option (Z * Z * nat) :=
  match fuel with
  | O => None
  | S fuel' =>
      let n := digitCount (Qfloor x) in
      match (digitsFor x k n ++ digitsFor x k (n + 1))%list with
      | c :: cs => Some (foldl (nearer x k) c cs, k)
      | [] => shortest fuel' x (S k)
      end
  end.

(** [Number::toString] on a double [x >= 10^21]: the shortest digits that
    round to [x], a point after the first one, and the exponent. *)
Definition toStringLarge (x : Q) : string :=
  match shortest 17 x 1 with
  | Some (s, n, k) =>
      match decimal s with
      | String d rest =>
          (if (k =? 1)%nat then String d "" else String d ("." ++ rest))
          ++ "e+" ++ decimal (n - 1)
      | EmptyString => EmptyString
      end
  | None => EmptyString
  end.

(** [a.toFixed(f)]: the exact decimal expansion of the double below
    [10^21], [Number::toString] from there on. *)
Definition toFixed (f : nat) (a : Num) : string :=
  match a with
  | Fin x =>
      if Qle_bool (pow10 21) (Qabs x)
      then (if Qltb x 0 then "-" else "") ++ toStringLarge (Qabs x)
      else toFixed f x
  | PInf => "Infinity"
  | NInf => "-Infinity"
  | NaN => "NaN"
  end.

(** [a.toExponential(f)] *)
Definition toExponential (f : nat) (a : Num) : string :=
  match a with
  | Fin x => toExponential f x
  | PInf => "Infinity"
  | NInf => "-Infinity"
  | NaN => "NaN"
  end.

(** [a.toLocaleString('en-US', { minimumFractionDigits: 2,
    maximumFractionDigits: 2 })] *)
Definition toLocaleString2 (a : Num) : string :=
  match a with
  | Fin x => toLocaleString2 x
  | PInf => "∞"
  | NInf => "-∞"
  | NaN => "NaN"
  end.

End Binary64.

(** ** Data model *)

(** [WatchlistEntry] of watchlist.js. *)
Record Entry := {
  tokenAddress : string;
  chainId : string;
  name : string;
  symbol : string;
  dropThreshold : Q;
  lastAlertPrice : Q;
  initialPrice : Q;
  addedAt : N;
  chatId : string
}.

(** One trading pair of a DexScreener response.  Every field may be missing;
    [pr_priceUsd] is the outcome of [parseFloat], [None] standing for NaN. *)
Record Pair := {
  pr_address : option string;
  pr_name : option string;
  pr_symbol : option string;
  pr_priceUsd : option Q;
  pr_marketCap : option Q;
  pr_fdv : option Q;
  pr_liquidityUsd : option Q;
  pr_priceChangeH24 : option Q;
  pr_dexId : option string;
  pr_pairAddress : option string;
  pr_url : option string
}.

(** The token data built by [getTokenData] and [getMultipleTokensData]. *)
Record TokenData := {
  td_name : string;
  td_symbol : string;
  priceUsd : Q;
  marketCap : Q;
  liquidity : Q;
  priceChange24h : Q;
  dexId : string;
  pairAddress : string;
  url : string
}.

(** The text handed to [bot.sendMessage], by template. *)
Inductive Message :=
| MsgFetching
| MsgNotFound
| MsgAlreadyInWatchlist
| MsgAdded (tokenName tokenSymbol price cap : string) (threshold : option Q) (chain : string)
| MsgAlert (isUp : bool) (sym price change cap lastPrice initPrice totalChange : string)
           (threshold : Q) (chain address link : string).

Inductive LogLine :=
| LogMonitorStarted (seconds : Q)
| LogMonitorStopped
| LogChecking (count : nat)
| LogNoData (sym chain : string)
| LogDetected (isUp : bool) (sym change : string)
| LogBotNotInitialized
| LogSendError (chat err : string)
| LogBatchError (err : string)
| LogFetchError (chain address err : string).

(** Observable effects, in the order they happen. *)
Inductive Event :=
| Console (line : LogLine)
| HttpGet (chain : string) (addresses : list string)
| Sleep (ms : N)
| Sent (chat : string) (msg : Message)
| SweepBegins (time : N).

(** [bot.sendMessage chat msg]: [None] when the promise resolves, [Some err]
    when it rejects with [err.message]. *)
Definition Bot := string -> Message -> option string.

(** [axios.get] on [/tokens/v1/<chain>/<addresses joined by commas>]:
    the response data, or the message of the error thrown. *)
Definition Upstream := string -> list string -> list Pair + string.

(** A pending timer; [period = None] for [setTimeout].  Every timer of the
    program has the callback [() => checkPrices()]. *)
Record Timer := {
  handle : nat;
  due : N;
  period : option N
}.

Record World := {
  disk : list Entry;
  monitorBot : option Bot;
  processorsBot : option Bot;
  monitorInterval : option nat;
  timers : list Timer;
  nextHandle : nat;
  clock : N;
  trace : list Event
}.

Definition withDisk (d : list Entry) (w : World) : World :=
  {| disk := d; monitorBot := monitorBot w; processorsBot := processorsBot w;
     monitorInterval := monitorInterval w; timers := timers w;
     nextHandle := nextHandle w; clock := clock w; trace := trace w |}.

Definition withTrace (t : list Event) (w : World) : World :=
  {| disk := disk w; monitorBot := monitorBot w; processorsBot := processorsBot w;
     monitorInterval := monitorInterval w; timers := timers w;
     nextHandle := nextHandle w; clock := clock w; trace := t |}.

Definition withMonitorBot (b : option Bot) (w : World) : World :=
  {| disk := disk w; monitorBot := b; processorsBot := processorsBot w;
     monitorInterval := monitorInterval w; timers := timers w;
     nextHandle := nextHandle w; clock := clock w; trace := trace w |}.

Definition withMonitorInterval (h : option nat) (w : World) : World :=
  {| disk := disk w; monitorBot := monitorBot w; processorsBot := processorsBot w;
     monitorInterval := h; timers := timers w;
     nextHandle := nextHandle w; clock := clock w; trace := trace w |}.

Definition withTimers (ts : list Timer) (next : nat) (w : World) : World :=
  {| disk := disk w; monitorBot := monitorBot w; processorsBot := processorsBot w;
     monitorInterval := monitorInterval w; timers := ts;
     nextHandle := next; clock := clock w; trace := trace w |}.

Definition withClock (t : N) (w : World) : World :=
  {| disk := disk w; monitorBot := monitorBot w; processorsBot := processorsBot w;
     monitorInterval := monitorInterval w; timers := timers w;
     nextHandle := nextHandle w; clock := t; trace := trace w |}.

(** ** The effect monad *)

Inductive Res (A : Type) :=
| Ok (a : A)
| Throw (err : string)
| OutOfFuel.
Arguments Ok {A} a.
Arguments Throw {A} err.
Arguments OutOfFuel {A}.

Definition M (A : Type) : Type := World -> Res A * World.

Definition ret {A} (a : A) : M A := fun w => (Ok a, w).

Definition bind {A B} (m : M A) (k : A -> M B) : M B :=
  fun w =>
    match m w with
    | (Ok a, w') => k a w'
    | (Throw err, w') => (Throw err, w')
    | (OutOfFuel, w') => (OutOfFuel, w')
    end.

Definition throw {A} (err : string) : M A := fun w => (Throw err, w).

(** [try { m } catch (error) { h error.message }] *)
Definition tryCatch {A} (m : M A) (h : string -> M A) : M A :=
  fun w =>
    match m w with
    | (Throw err, w') => h err w'
    | r => r
    end.

Declare Scope js_scope.
Delimit Scope js_scope with js.
Notation "'let*' x ':=' m 'in' k" := (bind m (fun x => k))
  (at level 10, x name, m at level 100, k at level 200) : js_scope.
Notation "m ;;; k" := (bind m (fun _ => k))
  (at level 100, k at level 200, right associativity) : js_scope.
Local Open Scope js_scope.

Definition emit (ev : Event) : M unit :=
  fun w => (Ok tt, withTrace (trace w ++ [ev]) w).

Definition consoleLog (line : LogLine) : M unit := emit (Console line).
Definition consoleError (line : LogLine) : M unit := emit (Console line).

(** [for (const x of xs) body x] *)
Fixpoint forOf {A} (xs : list A) (body : A -> M unit) : M unit :=
  match xs with
  | [] => ret tt
  | x :: rest => body x ;;; forOf rest body
  end.

Definition run {A} (m : M A) (w : World) : World := snd (m w).
Definition outcome {A} (m : M A) (w : World) : Res A := fst (m w).

(** ** watchlist.js: the watchlist store *)

Module Watchlist.

Definition loadWatchlist : M (list Entry) := fun w => (Ok (disk w), w).

Definition saveWatchlist (watchlist : list Entry) : M unit :=
  fun w => (Ok tt, withDisk watchlist w).

(** The predicate shared by [some], [filter] and [find]. *)
Definition matches (normalizedAddress chain chat : string) (entry : Entry) : bool :=
  bool_decide (toLowerCase (tokenAddress entry) = normalizedAddress)
  && bool_decide (toLowerCase (chainId entry) = toLowerCase chain)
  && bool_decide (chatId entry = chat).

Record AddParams := {
  a_tokenAddress : string;
  a_chainId : string;
  a_name : string;
  a_symbol : string;
  a_currentPrice : Q;
  a_dropThreshold : option Q;
  a_chatId : string
}.

Definition addToWatchlist (p : AddParams) : M (option Entry) :=
  let* watchlist := loadWatchlist in
  let normalizedAddress := toLowerCase (a_tokenAddress p) in
  let exists_ := existsb (matches normalizedAddress (a_chainId p) (a_chatId p)) watchlist in
  if exists_ then ret None
  else
    fun w =>
      let entry := {| tokenAddress := normalizedAddress;
                      chainId := toLowerCase (a_chainId p);
                      name := a_name p;
                      symbol := a_symbol p;
                      dropThreshold := default 5%Q (a_dropThreshold p);
                      lastAlertPrice := a_currentPrice p;
                      initialPrice := a_currentPrice p;
                      addedAt := clock w;
                      chatId := a_chatId p |} in
      (saveWatchlist (watchlist ++ [entry]) ;;; ret (Some entry)) w.

Definition removeFromWatchlist (address chain chat : string) : M bool :=
  let* watchlist := loadWatchlist in
  let normalizedAddress := toLowerCase address in
  let initialLength := length watchlist in
  let filtered :=
    List.filter (fun entry => negb (matches normalizedAddress chain chat entry)) watchlist in
  if (length filtered <? initialLength)%nat
  then saveWatchlist filtered ;;; ret true
  else ret false.

Definition getWatchlistForChat (chat : string) : M (list Entry) :=
  let* watchlist := loadWatchlist in
  ret (List.filter (fun entry => bool_decide (chatId entry = chat)) watchlist).

Definition getAllWatchlist : M (list Entry) := loadWatchlist.

(** [watchlist.find(pred)]: the position of the first match. *)
Fixpoint findIndex (pred : Entry -> bool) (watchlist : list Entry) : option nat :=
  match watchlist with
  | [] => None
  | e :: rest => if pred e then Some 0%nat else S <$> findIndex pred rest
  end.

Definition setLastAlertPrice (newPrice : Q) (e : Entry) : Entry :=
  {| tokenAddress := tokenAddress e; chainId := chainId e; name := name e;
     symbol := symbol e; dropThreshold := dropThreshold e;
     lastAlertPrice := newPrice; initialPrice := initialPrice e;
     addedAt := addedAt e; chatId := chatId e |}.

Definition setDropThreshold (newThreshold : Q) (e : Entry) : Entry :=
  {| tokenAddress := tokenAddress e; chainId := chainId e; name := name e;
     symbol := symbol e; dropThreshold := newThreshold;
     lastAlertPrice := lastAlertPrice e; initialPrice := initialPrice e;
     addedAt := addedAt e; chatId := chatId e |}.

(** The object found is mutated in place inside the array, then the array
    is saved. *)
Definition updateLastAlertPrice (address chain chat : string) (newPrice : Q) : M unit :=
  let* watchlist := loadWatchlist in
  let normalizedAddress := toLowerCase address in
  match findIndex (matches normalizedAddress chain chat) watchlist with
  | Some i => saveWatchlist (alter (setLastAlertPrice newPrice) i watchlist)
  | None => ret tt
  end.

Definition updateThreshold (address chain chat : string) (newThreshold : Q) : M bool :=
  let* watchlist := loadWatchlist in
  let normalizedAddress := toLowerCase address in
  match findIndex (matches normalizedAddress chain chat) watchlist with
  | Some i => saveWatchlist (alter (setDropThreshold newThreshold) i watchlist) ;;; ret true
  | None => ret false
  end.

End Watchlist.

(** ** dexscreener.js *)

Module Dexscreener.

Definition formatPrice (price : Q) : string :=
  let price := Binary64.round price in
  let below (bound : Q) := Binary64.ltb price (Binary64.round bound) in
  if Binary64.eqb price (Binary64.Fin 0) then "$0.00"
  else if below 0.00000001%Q then "$" ++ Binary64.toExponential 4 price
  else if below 0.0001%Q then "$" ++ stripZeros (Binary64.toFixed 10 price)
  else if below 1%Q then "$" ++ stripZeros (Binary64.toFixed 6 price)
  else if below 1000%Q then "$" ++ Binary64.toFixed 4 price
  else "$" ++ Binary64.toLocaleString2 price.

(** [marketCap] is [None] when the argument is absent ([undefined], [null]
    or NaN).  The quotients are quotients of doubles. *)
Definition formatMarketCap (marketCap : option Q) : string :=
  match marketCap with
  | None => "N/A"
  | Some cap =>
      let marketCap := Binary64.round cap in
      let atLeast (unit : Q) := Binary64.geb marketCap (Binary64.round unit) in
      let over (unit : Q) := Binary64.div marketCap (Binary64.round unit) in
      if Binary64.eqb marketCap (Binary64.Fin 0) then "N/A"
      else if atLeast 1e12%Q then "$" ++ Binary64.toFixed 2 (over 1e12%Q) ++ "T"
      else if atLeast 1e9%Q then "$" ++ Binary64.toFixed 2 (over 1e9%Q) ++ "B"
      else if atLeast 1e6%Q then "$" ++ Binary64.toFixed 2 (over 1e6%Q) ++ "M"
      else if atLeast 1e3%Q then "$" ++ Binary64.toFixed 2 (over 1e3%Q) ++ "K"
      else "$" ++ Binary64.toFixed 2 marketCap
  end.

(** [axios.get(url, ...)] *)
Definition httpGet (upstream : Upstream) (chain : string) (addresses : list string)
  : M (list Pair) :=
  emit (HttpGet chain addresses) ;;;
  match upstream chain addresses with
  | inl data => ret data
  | inr err => throw err
  end.

Definition liquidityOf (p : Pair) : Q := orZero (pr_liquidityUsd p).

(** The callback of [pairs.reduce]. *)
Definition pickBest (best current : Pair) : Pair :=
  let currentLiquidity := liquidityOf current in
  let bestLiquidity := liquidityOf best in
  if Qgtb currentLiquidity bestLiquidity then current else best.

(** [pairs.reduce(pickBest, pairs[0])] with [pairs[0] = first]. *)
Definition bestPair (first : Pair) (pairs : list Pair) : Pair :=
  fold_left pickBest pairs first.

Definition toTokenData (chain address : string) (best : Pair) : TokenData :=
  {| td_name := orString (pr_name best) "Unknown";
     td_symbol := orString (pr_symbol best) "UNKNOWN";
     priceUsd := orZero (pr_priceUsd best);
     marketCap := (let cap := orZero (pr_marketCap best) in
                   if Qeqb cap 0 then orZero (pr_fdv best) else cap);
     liquidity := orZero (pr_liquidityUsd best);
     priceChange24h := orZero (pr_priceChangeH24 best);
     dexId := orString (pr_dexId best) "unknown";
     pairAddress := orString (pr_pairAddress best) "";
     url := orString (pr_url best)
              ("https://dexscreener.com/" ++ chain ++ "/" ++ address) |}.

Definition getTokenData (upstream : Upstream) (chain address : string)
  : M (option TokenData) :=
  tryCatch
    (let* data := httpGet upstream chain [address] in
     match data with
     | first :: _ => ret (Some (toTokenData chain address (bestPair first data)))
     | [] => ret None
     end)
    (fun err => consoleError (LogFetchError chain address err) ;;; ret None).

(** A [Map] from a string to an array, in insertion order:
    [if (!m.has(k)) m.set(k, []); m.get(k).push(x)]. *)
Fixpoint pushTo {A} (k : string) (x : A) (m : list (string * list A))
  : list (string * list A) :=
  match m with
  | [] => [(k, [x])]
  | (k', xs) :: rest =>
      if bool_decide (k' = k) then (k', (xs ++ [x])%list) :: rest
      else (k', xs) :: pushTo k x rest
  end.

(** The lowercased base-token address of a pair, when it is truthy. *)
Definition baseAddress (p : Pair) : option string :=
  match pr_address p with
  | Some a => if bool_decide (a = "") then None else Some (toLowerCase a)
  | None => None
  end.

Definition groupPairs (data : list Pair) : list (string * list Pair) :=
  fold_left (fun m p => match baseAddress p with
                        | Some addr => pushTo addr p m
                        | None => m
                        end) data [].

Definition storeBest (chain : string) (results : gmap string TokenData)
           (group : string * list Pair) : gmap string TokenData :=
  let '(addr, pairs) := group in
  match pairs with
  | first :: _ => <[addr := toTokenData chain addr (bestPair first pairs)]> results
  | [] => results
  end.

Definition batchSize : nat := 30.

Section Batches.
Variable upstream : Upstream.
Variable chain : string.
Variable tokenAddresses : list string.

(** The body of the [try] block for one batch. *)
Definition fetchBatch (batch : list string) (results : gmap string TokenData)
  : M (gmap string TokenData) :=
  tryCatch
    (let* data := httpGet upstream chain batch in
     ret (fold_left (storeBest chain) (groupPairs data) results))
    (fun err => consoleError (LogBatchError err) ;;; ret results).

(** [for (let i = ...; i < tokenAddresses.length; i += batchSize)] *)
Fixpoint batchLoop (fuel i : nat) (results : gmap string TokenData)
  : M (gmap string TokenData) :=
  if (i <? length tokenAddresses)%nat then
    match fuel with
    | O => fun w => (OutOfFuel, w)
    | S fuel' =>
        let batch := take batchSize (drop i tokenAddresses) in
        let* results' := fetchBatch batch results in
        (if (i + batchSize <? length tokenAddresses)%nat
         then emit (Sleep 250%N) else ret tt) ;;;
        batchLoop fuel' (i + batchSize) results'
    end
  else ret results.

Definition getMultipleTokensData : M (gmap string TokenData) :=
  batchLoop (length tokenAddresses) 0 ∅.
End Batches.

End Dexscreener.

(** ** priceMonitor.js *)

Module PriceMonitor.

(** [((currentPrice - lastAlertPrice) / lastAlertPrice) * 100]: a
    difference, a quotient and a product of doubles, each rounded. *)
Definition percentChangeOf (currentPrice lastAlertPrice : Q) : Binary64.Num :=
  Binary64.mul
    (Binary64.div (Binary64.sub (Binary64.round currentPrice)
                                (Binary64.round lastAlertPrice))
                  (Binary64.round lastAlertPrice))
    (Binary64.round 100).

(** [`${x > 0 ? '+' : ''}${x.toFixed(2)}`] *)
Definition signed (x : Binary64.Num) : string :=
  (if Binary64.gtb x (Binary64.Fin 0) then "+" else "") ++ Binary64.toFixed 2 x.

(** The fields of the alert text.  The total change is the same expression
    on the initial price, which the add path may have stored as 0: the
    quotient is then an infinity or NaN and is printed as such. *)
Definition alertMessage (entry : Entry) (tokenData : TokenData)
           (percentChange : Binary64.Num) : Message :=
  let priceFormatted := Dexscreener.formatPrice (priceUsd tokenData) in
  let marketCapFormatted := Dexscreener.formatMarketCap (Some (marketCap tokenData)) in
  let lastPriceFormatted := Dexscreener.formatPrice (lastAlertPrice entry) in
  let initialPriceFormatted := Dexscreener.formatPrice (initialPrice entry) in
  let totalChangePercent := percentChangeOf (priceUsd tokenData) (initialPrice entry) in
  let isUp := Binary64.gtb percentChange (Binary64.Fin 0) in
  MsgAlert isUp (escapeMarkdown (symbol entry)) (escapeMarkdown priceFormatted)
           (signed percentChange) (escapeMarkdown marketCapFormatted)
           (escapeMarkdown lastPriceFormatted) (escapeMarkdown initialPriceFormatted)
           (signed totalChangePercent) (dropThreshold entry)
           (escapeMarkdown (chainId entry)) (tokenAddress entry) (url tokenData).

(** [await bot.sendMessage(chat, msg, ...)] *)
Definition sendMessage (bot : Bot) (chat : string) (msg : Message) : M unit :=
  match bot chat msg with
  | None => emit (Sent chat msg)
  | Some err => throw err
  end.

Definition sendPriceAlert (entry : Entry) (tokenData : TokenData)
           (percentChange : Binary64.Num) : M unit :=
  fun w =>
    match monitorBot w with
    | None => consoleError LogBotNotInitialized w
    | Some bot =>
        tryCatch
          (sendMessage bot (chatId entry) (alertMessage entry tokenData percentChange))
          (fun err => consoleError (LogSendError (chatId entry) err)) w
    end.

(** The body of the inner loop of [checkPrices]. *)
Definition checkEntry (tokenDataMap : gmap string TokenData) (entry : Entry) : M unit :=
  match tokenDataMap !! toLowerCase (tokenAddress entry) with
  | None => consoleLog (LogNoData (symbol entry) (chainId entry))
  | Some tokenData =>
      let currentPrice := priceUsd tokenData in
      let lastAlertPrice := lastAlertPrice entry in
      if Binary64.leb (Binary64.round lastAlertPrice) (Binary64.Fin 0)
         || Binary64.leb (Binary64.round currentPrice) (Binary64.Fin 0)
      then ret tt
      else
        let percentChange := percentChangeOf currentPrice lastAlertPrice in
        let absChange := Binary64.abs percentChange in
        if Binary64.geb absChange (Binary64.round (dropThreshold entry)) then
          consoleLog (LogDetected (Binary64.gtb percentChange (Binary64.Fin 0))
                                  (symbol entry)
                                  (Binary64.toFixed 2 percentChange)) ;;;
          sendPriceAlert entry tokenData percentChange ;;;
          Watchlist.updateLastAlertPrice (tokenAddress entry) (chainId entry)
                                         (chatId entry) currentPrice
        else ret tt
  end.

Definition groupByChain (allEntries : list Entry) : list (string * list Entry) :=
  fold_left (fun m entry => Dexscreener.pushTo (chainId entry) entry m) allEntries [].

Definition checkChain (upstream : Upstream) (group : string * list Entry) : M unit :=
  let '(chain, entries) := group in
  let addresses := tokenAddress <$> entries in
  let* tokenDataMap := Dexscreener.getMultipleTokensData upstream chain addresses in
  forOf entries (checkEntry tokenDataMap).

Definition checkPrices (upstream : Upstream) : M unit :=
  let* allEntries := Watchlist.getAllWatchlist in
  if (length allEntries =? 0)%nat then ret tt
  else
    consoleLog (LogChecking (length allEntries)) ;;;
    forOf (groupByChain allEntries) (checkChain upstream).

(** *** Timers *)

(** The delay Node gives a timer: the delay asked when it is between 1 and
    [2^31 - 1] milliseconds, and 1 millisecond otherwise. *)
Definition timerDelay (ms : N) : N :=
  if (1 <=? ms)%N && (ms <=? 2147483647)%N then ms else 1%N.

Definition setTimeout (ms : N) : M nat :=
  fun w =>
    let h := nextHandle w in
    (Ok h, withTimers (timers w ++ [{| handle := h; due := (clock w + timerDelay ms)%N;
                                       period := None |}])
                      (S h) w).

Definition setInterval (ms : N) : M nat :=
  fun w =>
    let h := nextHandle w in
    (Ok h, withTimers (timers w ++ [{| handle := h; due := (clock w + timerDelay ms)%N;
                                       period := Some (timerDelay ms) |}])
                      (S h) w).

Definition clearInterval (h : nat) : M unit :=
  fun w =>
    (Ok tt, withTimers (List.filter (fun t => negb (handle t =? h)%nat) (timers w))
                       (nextHandle w) w).

Definition startMonitor (telegramBot : Bot) (intervalMs : option N) : M unit :=
  let intervalMs := default 60000%N intervalMs in
  (fun w => (Ok tt, withMonitorBot (Some telegramBot) w)) ;;;
  (fun w => match monitorInterval w with
            | Some h => clearInterval h w
            | None => (Ok tt, w)
            end) ;;;
  consoleLog (LogMonitorStarted (inject_Z (Z.of_N intervalMs) / 1000)%Q) ;;;
  setTimeout 5000%N ;;;
  let* h := setInterval intervalMs in
  fun w => (Ok tt, withMonitorInterval (Some h) w).

Definition stopMonitor : M unit :=
  fun w =>
    match monitorInterval w with
    | Some h =>
        (clearInterval h ;;;
         (fun w' => (Ok tt, withMonitorInterval None w')) ;;;
         consoleLog LogMonitorStopped) w
    | None => (Ok tt, w)
    end.

(** *** The event loop *)

(** The pending timer that is due first, the older one on a tie. *)
Definition earliest (ts : list Timer) : option Timer :=
  fold_left (fun best t =>
               match best with
               | Some b => if (due t <? due b)%N then Some t else Some b
               | None => Some t
               end) ts None.

(** What the timer table becomes when [t] fires at the time [now]: a
    timeout goes, an interval is armed again, its period after [now]. *)
Definition rearm (now : N) (t : Timer) (ts : list Timer) : list Timer :=
  match period t with
  | None => List.filter (fun t' => negb (handle t' =? handle t)%nat) ts
  | Some p =>
      (fun t' => if (handle t' =? handle t)%nat
                 then {| handle := handle t; due := (now + p)%N; period := Some p |}
                 else t') <$> ts
  end.

(** One turn of the event loop: the clock moves to the next timer that is
    due and its callback [() => checkPrices()] runs. *)
Definition fireNext (upstream : Upstream) (w : World) : option World :=
  match earliest (timers w) with
  | None => None
  | Some t =>
      let time := N.max (clock w) (due t) in
      let w1 := withClock time (withTimers (rearm time t (timers w)) (nextHandle w) w) in
      Some (run (emit (SweepBegins time) ;;; checkPrices upstream) w1)
  end.

(** The times at which a sweep began. *)
Definition sweeps (w : World) : list N :=
  omap (fun ev => match ev with SweepBegins t => Some t | _ => None end) (trace w).

End PriceMonitor.

(** ** bot/processors.js *)

Module Processors.

(** [await bot.sendMessage(...)] on the module's own [bot]. *)
Definition send (chat : string) (msg : Message) : M unit :=
  fun w =>
    match processorsBot w with
    | Some bot => PriceMonitor.sendMessage bot chat msg w
    | None => (Throw "TypeError: Cannot read properties of null", w)
    end.

Definition processAdd (upstream : Upstream) (chat chain address : string)
           (threshold : option Q) : M unit :=
  send chat MsgFetching ;;;
  let* found := Dexscreener.getTokenData upstream chain address in
  match found with
  | None => send chat MsgNotFound
  | Some tokenData =>
      let* entry := Watchlist.addToWatchlist
                      {| Watchlist.a_tokenAddress := address;
                         Watchlist.a_chainId := chain;
                         Watchlist.a_name := td_name tokenData;
                         Watchlist.a_symbol := td_symbol tokenData;
                         Watchlist.a_currentPrice := priceUsd tokenData;
                         Watchlist.a_dropThreshold := threshold;
                         Watchlist.a_chatId := chat |} in
      match entry with
      | None => send chat MsgAlreadyInWatchlist
      | Some _ =>
          let priceFormatted := Dexscreener.formatPrice (priceUsd tokenData) in
          let marketCapFormatted :=
            Dexscreener.formatMarketCap (Some (marketCap tokenData)) in
          send chat (MsgAdded (escapeMarkdown (td_name tokenData))
                              (escapeMarkdown (td_symbol tokenData))
                              (escapeMarkdown priceFormatted)
                              (escapeMarkdown marketCapFormatted)
                              threshold
                              (escapeMarkdown chain))
      end
  end.

End Processors.

Import Watchlist Dexscreener PriceMonitor.

(** ** Observations on a world *)

(** The detections logged by the evaluator: direction, symbol, change. *)
Definition detections (w : World) : list (bool * string * string) :=
  omap (fun ev => match ev with
                  | Console (LogDetected up sym change) => Some (up, sym, change)
                  | _ => None
                  end) (trace w).

(** The messages delivered by the bot. *)
Definition delivered (w : World) : list (string * Message) :=
  omap (fun ev => match ev with Sent chat msg => Some (chat, msg) | _ => None end) (trace w).

(** The network schedule: the requests and the pauses. *)
Definition isNetwork (ev : Event) : bool :=
  match ev with
  | HttpGet _ _ | Sleep _ => true
  | _ => false
  end.

(** The identity of an entry, address and chain compared without case. *)
Definition keyOf (e : Entry) : string * string * string :=
  (toLowerCase (tokenAddress e), toLowerCase (chainId e), chatId e).

Definition uniqueKeys (d : list Entry) : Prop := NoDup (keyOf <$> d).

Definition positivePrices (d : list Entry) : Prop :=
  Forall (fun e => (0 < lastAlertPrice e)%Q /\ (0 < initialPrice e)%Q) d.

(** What [updateLastAlertPrice] makes of the watchlist. *)
Definition repriced (address chain chat : string) (newPrice : Q) (d : list Entry)
  : list Entry :=
  match Watchlist.findIndex (Watchlist.matches (toLowerCase address) chain chat) d with
  | Some i => alter (Watchlist.setLastAlertPrice newPrice) i d
  | None => d
  end.

(** What [sendPriceAlert] leaves in the trace. *)
Definition alertNotice (bot : option Bot) (entry : Entry) (tokenData : TokenData)
           (percentChange : Binary64.Num) : Event :=
  match bot with
  | None => Console LogBotNotInitialized
  | Some b =>
      let msg := PriceMonitor.alertMessage entry tokenData percentChange in
      match b (chatId entry) msg with
      | None => Sent (chatId entry) msg
      | Some err => Console (LogSendError (chatId entry) err)
      end
  end.

(** The world an alert leaves behind: the detection line, the notice of the
    alert, and the watchlist with the new reference price. *)
Definition alertedWorld (entry : Entry) (tokenData : TokenData) (w : World) : World :=
  let percentChange := PriceMonitor.percentChangeOf (priceUsd tokenData) (lastAlertPrice entry) in
  withDisk (repriced (tokenAddress entry) (chainId entry) (chatId entry)
                     (priceUsd tokenData) (disk w))
    (withTrace (trace w ++ [Console (LogDetected
                                       (Binary64.gtb percentChange (Binary64.Fin 0))
                                       (symbol entry)
                                       (Binary64.toFixed 2 percentChange));
                            alertNotice (monitorBot w) entry tokenData percentChange]) w).

(** The number of alerts fired so far. *)
Definition alertCount (w : World) : nat := length (detections w).

(** Every field of an entry but the reference price. *)
Definition otherFields (e : Entry)
  : string * string * string * string * Q * Q * N * string :=
  (tokenAddress e, chainId e, name e, symbol e, dropThreshold e, initialPrice e,
   addedAt e, chatId e).

(** The requests of a trace, by batch of addresses. *)
Definition requests (evs : list Event) : list (list string) :=
  omap (fun ev => match ev with HttpGet _ batch => Some batch | _ => None end) evs.

(** The console line of a batch whose request failed. *)
Definition batchErrors (upstream : Upstream) (chain : string) (batch : list string)
  : list Event :=
  match upstream chain batch with
  | inl _ => []
  | inr err => [Console (LogBatchError err)]
  end.

(** What one batch adds to the results. *)
Definition absorb (upstream : Upstream) (chain : string)
           (results : gmap string TokenData) (batch : list string)
  : gmap string TokenData :=
  match upstream chain batch with
  | inl data => fold_left (Dexscreener.storeBest chain) (Dexscreener.groupPairs data) results
  | inr _ => results
  end.

(** The network schedule of a list of batches: one request per batch and a
    pause of 250 ms between two requests. *)
Fixpoint paced (chain : string) (batches : list (list string)) : list Event :=
  match batches with
  | [] => []
  | batch :: rest =>
      match rest with
      | [] => [HttpGet chain batch]
      | _ :: _ => HttpGet chain batch :: Sleep 250%N :: paced chain rest
      end
  end.

(** A grouping of pairs drawn from [src]: no group is empty, every pair of the
    group of [k] comes from [src] and has base address [k]. *)
Definition wellGrouped (src : list Pair) (m : list (string * list Pair)) : Prop :=
  forall k ps, (k, ps) ∈ m ->
               ps <> [] /\ forall p, p ∈ ps -> p ∈ src /\ baseAddress p = Some k.

(** A datum of the results was built from a pair that upstream returned for
    its key. *)
Definition answered (upstream : Upstream) (chain : string) (batches : list (list string))
           (k : string) (p : Pair) : Prop :=
  exists batch data, batch ∈ batches /\ upstream chain batch = inl data
                     /\ p ∈ data /\ baseAddress p = Some k.

(** The entry that [addToWatchlist] builds at time [now]. *)
Definition entryOf (p : AddParams) (now : N) : Entry :=
  {| tokenAddress := toLowerCase (a_tokenAddress p);
     chainId := toLowerCase (a_chainId p);
     name := a_name p;
     symbol := a_symbol p;
     dropThreshold := default 5%Q (a_dropThreshold p);
     lastAlertPrice := a_currentPrice p;
     initialPrice := a_currentPrice p;
     addedAt := now;
     chatId := a_chatId p |}.

(** The key under which an add request is looked up. *)
Definition keyOfRequest (p : AddParams) : string * string * string :=
  (toLowerCase (a_tokenAddress p), toLowerCase (a_chainId p), a_chatId p).

(** What [getTokenData] returns for one token. *)
Definition quoted (upstream : Upstream) (chain address : string) : option TokenData :=
  match upstream chain [address] with
  | inl (first :: rest) => Some (toTokenData chain address (bestPair first (first :: rest)))
  | inl [] => None
  | inr _ => None
  end.

(** The request that [processAdd] hands to [addToWatchlist]. *)
Definition requestOf (chat chain address : string) (threshold : option Q)
           (tokenData : TokenData) : AddParams :=
  {| a_tokenAddress := address;
     a_chainId := chain;
     a_name := td_name tokenData;
     a_symbol := td_symbol tokenData;
     a_currentPrice := priceUsd tokenData;
     a_dropThreshold := threshold;
     a_chatId := chat |}.










(** ** Sample data *)

Module Sample.

Definition quote (address : string) (price : option Q) : Pair :=
  {| pr_address := Some address; pr_name := Some "Owl"; pr_symbol := Some "OWL";
     pr_priceUsd := price; pr_marketCap := Some 1500000%Q; pr_fdv := None;
     pr_liquidityUsd := Some 20000%Q; pr_priceChangeH24 := None;
     pr_dexId := Some "raydium"; pr_pairAddress := Some "pool"; pr_url := None |}.

(** An upstream that quotes one price for the token [OwlMint]. *)
Definition market (price : Q) : Upstream :=
  fun _ _ => inl [quote "OwlMint" (Some price)].

(** An upstream that answers each address it is asked with one pair. *)
Definition echo : Upstream :=
  fun _ addresses => inl ((fun a => quote a (Some 1%Q)) <$> addresses).

(** An upstream whose pair carries no parseable price. *)
Definition unpriced : Upstream := fun _ _ => inl [quote "OwlMint" None].

(** An upstream that answers every request with a pair of another token. *)
Definition stranger : Upstream := fun _ _ => inl [quote "Stranger" (Some 1%Q)].

Definition owlFor (chat : string) (threshold reference : Q) : Entry :=
  {| tokenAddress := "owlmint"; chainId := "solana"; name := "Owl"; symbol := "OWL";
     dropThreshold := threshold; lastAlertPrice := reference; initialPrice := 1.00%Q;
     addedAt := 0%N; chatId := chat |}.

Definition owl : Entry := owlFor "42" 5%Q 1.00%Q.

Definition okBot : Bot := fun _ _ => None.
Definition downBot : Bot := fun _ _ => Some "ETELEGRAM: 403 Forbidden".

Definition boot (d : list Entry) (b : option Bot) : World :=
  {| disk := d; monitorBot := b; processorsBot := b; monitorInterval := None;
     timers := []; nextHandle := 1; clock := 0%N; trace := [] |}.

Definition owlData (price : Q) : gmap string TokenData :=
  {[ "owlmint" := Dexscreener.toTokenData "solana" "owlmint" (quote "OwlMint" (Some price)) ]}.

(** The world after one sweep per quoted price. *)
Definition afterSweeps (prices : list Q) (w : World) : World :=
  fold_left (fun w p => run (PriceMonitor.checkPrices (market p)) w) prices w.

(** The world after [processAdd] on the token without a price. *)
Definition zeroPriced : World :=
  run (Processors.processAdd unpriced "42" "solana" "OwlMint" (Some 5%Q))
      (boot [] (Some okBot)).

End Sample.

(** ** database.js *)

(** The connection to the database.  A client is named by the attempt that
    created it, and a database handle by the client it came from; the
    server is an oracle that tells what becomes of each attempt.  The
    handlers registered with [client.on] only log and are left out. *)
Module Database.

(** What becomes of one attempt: [new MongoClient] throws, [client.connect]
    rejects, [createIndex] rejects, or all three succeed. *)
Inductive Attempt :=
| ClientFails (err : string)
| ConnectFails (err : string)
| IndexFails (err : string)
| Connects.

Definition errorOf (a : Attempt) : option string :=
  match a with
  | ClientFails err | ConnectFails err | IndexFails err => Some err
  | Connects => None
  end.

Inductive DbLine :=
| LogUriMissing
| LogAddUri
| LogAttempt (attempt : nat)
| LogConnected
| LogAttemptFailed (attempt : nat) (err : string)
| LogRetrying (seconds : Q)
| LogGaveUp
| LogDisconnected.

Inductive DbEvent :=
| DbConsole (line : DbLine)
| Delay (ms : N)
| Close (client : nat).

Record Db := {
  client : option nat;
  db : option nat;
  dbTrace : list DbEvent
}.

(** How a call ends: it returns, throws, ends the process, or the model
    runs out of fuel. *)
Inductive DbRes (A : Type) :=
| Returned (a : A)
| Thrown (err : option string)
| Exited (code : Z)
| NoFuel.
Arguments Returned {A} a.
Arguments Thrown {A} err.
Arguments Exited {A} code.
Arguments NoFuel {A}.

Definition MAX_RETRIES : nat := 3.
Definition INITIAL_RETRY_DELAY_MS : N := 1000.

Definition say (line : DbLine) (s : Db) : Db :=
  {| client := client s; db := db s; dbTrace := (dbTrace s ++ [DbConsole line])%list |}.

Definition delay (ms : N) (s : Db) : Db :=
  {| client := client s; db := db s; dbTrace := (dbTrace s ++ [Delay ms])%list |}.

Definition setClient (c : option nat) (s : Db) : Db :=
  {| client := c; db := db s; dbTrace := dbTrace s |}.

Definition setDb (d : option nat) (s : Db) : Db :=
  {| client := client s; db := d; dbTrace := dbTrace s |}.

(** The [catch] block of one attempt. *)
Definition attemptFailed (attempt : nat) (err : string) (s : Db) : Db :=
  let s1 := say (LogAttemptFailed attempt err) s in
  if (attempt <? MAX_RETRIES)%nat then
    let delayMs := (INITIAL_RETRY_DELAY_MS * 2 ^ N.of_nat (attempt - 1))%N in
    delay delayMs (say (LogRetrying (inject_Z (Z.of_N delayMs) / 1000)) s1)
  else s1.

(** [for (let attempt = ...; attempt <= MAX_RETRIES; attempt++)] and what
    follows the loop. *)
Fixpoint connectLoop (server : nat -> Attempt) (fuel attempt : nat)
         (lastError : option string) (s : Db) : DbRes unit * Db :=
  if (attempt <=? MAX_RETRIES)%nat then
    match fuel with
    | O => (NoFuel, s)
    | S fuel' =>
        let s0 := say (LogAttempt attempt) s in
        let s1 := setClient (Some attempt) s0 in
        match server attempt with
        | ClientFails err =>
            connectLoop server fuel' (attempt + 1) (Some err) (attemptFailed attempt err s0)
        | ConnectFails err =>
            connectLoop server fuel' (attempt + 1) (Some err) (attemptFailed attempt err s1)
        | IndexFails err =>
            connectLoop server fuel' (attempt + 1) (Some err)
                        (attemptFailed attempt err (setDb (Some attempt) s1))
        | Connects => (Returned tt, say LogConnected (setDb (Some attempt) s1))
        end
    end
  else (Thrown lastError, say LogGaveUp s).

(** [uri] is [process.env.MONGODB_URI]. *)
Definition connectDB (uri : option string) (server : nat -> Attempt) (s : Db)
  : DbRes unit * Db :=
  match uri with
  | Some (String _ _) => connectLoop server MAX_RETRIES 1 None s
  | _ => (Exited 1, say LogAddUri (say LogUriMissing s))
  end.

Definition getDB (s : Db) : DbRes nat :=
  match db s with
  | Some d => Returned d
  | None => Thrown (Some "Database not connected. Call connectDB() first.")
  end.

Definition isConnected (s : Db) : bool :=
  match client s, db s with
  | Some _, Some _ => true
  | _, _ => false
  end.

(** [close c] is [None] when [client.close()] resolves and the message of
    the error when it rejects. *)
Definition disconnectDB (close : nat -> option string) (s : Db) : DbRes unit * Db :=
  match client s with
  | Some c =>
      let s1 := {| client := client s; db := db s;
                   dbTrace := (dbTrace s ++ [Close c])%list |} in
      match close c with
      | None => (Returned tt, say LogDisconnected (setDb None (setClient None s1)))
      | Some err => (Thrown (Some err), s1)
      end
  | None => (Returned tt, s)
  end.

(** The attempts and the pauses of a trace. *)
Definition attemptsOf (evs : list DbEvent) : list nat :=
  omap (fun ev => match ev with DbConsole (LogAttempt n) => Some n | _ => None end) evs.

Definition delaysOf (evs : list DbEvent) : list N :=
  omap (fun ev => match ev with Delay ms => Some ms | _ => None end) evs.

(** A server that refuses the first [n] connections. *)
Definition upAfter (n : nat) : nat -> Attempt :=
  fun attempt => if (attempt <=? n)%nat then ConnectFails "ECONNREFUSED" else Connects.

Definition fresh : Db := {| client := None; db := None; dbTrace := [] |}.

End Database.

(** ** bot/constants.js *)

Module Constants.

(** [{ id, label }] *)
Definition SUPPORTED_CHAINS : list (string * string) :=
  [("solana", "◎ Solana"); ("ethereum", "Ξ Ethereum"); ("bsc", "⬡ BSC");
   ("base", "🔵 Base"); ("arbitrum", "🔷 Arbitrum"); ("polygon", "⬡ Polygon");
   ("avalanche", "🔺 Avalanche"); ("sui", "💧 Sui"); ("ton", "💎 TON");
   ("tron", "⚡ Tron")].

(** The own properties of the object; the properties that every JavaScript
    object inherits are not part of the table. *)
Definition CHAIN_ALIASES : gmap string string :=
  list_to_map
    [("sol", "solana"); ("eth", "ethereum"); ("bsc", "bsc"); ("bnb", "bsc");
     ("arb", "arbitrum"); ("arbitrum", "arbitrum"); ("polygon", "polygon");
     ("matic", "polygon"); ("avax", "avalanche"); ("avalanche", "avalanche");
     ("base", "base"); ("solana", "solana"); ("ethereum", "ethereum");
     ("sui", "sui"); ("ton", "ton"); ("tron", "tron")].

End Constants.

(** ** bot/interactive.js *)

(** The conversations, one per chat.  A handler takes the map of
    conversations to the new map and to the calls it makes, in order; the
    calls to the bot resolve, and the calls to the processors are recorded
    with their arguments. *)
Module Interactive.

(** [{ command, step, data: { chain, address } }] *)
Record Conversation := {
  command : string;
  step : string;
  chain : option string;
  address : option string
}.

Record Button := {
  text : string;
  callback_data : string
}.

(** The texts sent, by template. *)
Inductive Text :=
| SelectChain (command : string)
| EnterQuery
| Cancelled
| SessionExpired
| ChainChosen (command : string) (value : option string)
| AddressReceived (command : string)
| InvalidThreshold (command : string).

Inductive Action :=
| AnswerCallbackQuery (id : string)
| SendMessage (chat : Z) (body : Text) (keyboard : list (list Button))
| EditMessageText (chat messageId : Z) (body : Text)
| ProcessAdd (chat : Z) (chain address : option string) (threshold : Q)
| ProcessRemove (chat : Z) (chain : option string) (address : string)
| ProcessPrice (chat : Z) (chain : option string) (address : string)
| ProcessSearch (chat : Z) (query : string)
| ProcessThreshold (chat : Z) (chain address : option string) (percent : Q).

Abbreviation State := (gmap Z Conversation).

Definition chainButton (command : string) (c : string * string) : Button :=
  {| text := c.2; callback_data := command ++ ":chain:" ++ c.1 |}.

Definition cancelButton : Button := {| text := "❌ Cancel"; callback_data := "cancel" |}.

(** [for (let i = 0; i < SUPPORTED_CHAINS.length; i += 2)] *)
Fixpoint chainRows (command : string) (chains : list (string * string))
  : list (list Button) :=
  match chains with
  | [] => []
  | [c] => [[chainButton command c]]
  | c :: c' :: rest => [chainButton command c; chainButton command c'] :: chainRows command rest
  end.

Definition createChainKeyboard (command : string) : list (list Button) :=
  (chainRows command Constants.SUPPORTED_CHAINS ++ [[cancelButton]])%list.

Definition begin (cmd first : string) (body : Text) (keyboard : list (list Button))
           (chat : Z) (st : State) : State * list Action :=
  (<[chat := {| command := cmd; step := first; chain := None; address := None |}]> st,
   [SendMessage chat body keyboard]).

Definition handleAddInteractive : Z -> State -> State * list Action :=
  begin "add" "chain" (SelectChain "add") (createChainKeyboard "add").

Definition handleRemoveInteractive : Z -> State -> State * list Action :=
  begin "remove" "chain" (SelectChain "remove") (createChainKeyboard "remove").

Definition handlePriceInteractive : Z -> State -> State * list Action :=
  begin "price" "chain" (SelectChain "price") (createChainKeyboard "price").

Definition handleSearchInteractive : Z -> State -> State * list Action :=
  begin "search" "query" EnterQuery [[cancelButton]].

Definition handleThresholdInteractive : Z -> State -> State * list Action :=
  begin "threshold" "chain" (SelectChain "threshold") (createChainKeyboard "threshold").

Definition handleCancel (chat : Z) (st : State) : State * list Action :=
  (delete chat st, [SendMessage chat Cancelled []]).

(** [data.split(':')] *)
Fixpoint split (data : string) : list string :=
  match data with
  | EmptyString => [EmptyString]
  | String c rest =>
      if bool_decide (c = ":"%char) then EmptyString :: split rest
      else match split rest with
           | first :: others => String c first :: others
           | [] => [String c EmptyString]
           end
  end.

Definition withChain (value : option string) (state : Conversation) : Conversation :=
  {| command := command state; step := step state; chain := value;
     address := address state |}.

Definition withStep (next : string) (state : Conversation) : Conversation :=
  {| command := command state; step := next; chain := chain state;
     address := address state |}.

Definition withAddress (value : option string) (state : Conversation) : Conversation :=
  {| command := command state; step := step state; chain := chain state;
     address := value |}.

Definition handleCallbackQuery (chat messageId : Z) (id data : string) (st : State)
  : State * list Action :=
  if bool_decide (data = "cancel") then
    (delete chat st,
     [AnswerCallbackQuery id; EditMessageText chat messageId Cancelled])
  else
    let parts := split data in
    let cmd := parts !! 0%nat in
    let action := parts !! 1%nat in
    let value := parts !! 2%nat in
    match st !! chat with
    | None => (st, [AnswerCallbackQuery id; EditMessageText chat messageId SessionExpired])
    | Some state =>
        if negb (bool_decide (Some (command state) = cmd)) then
          (st, [AnswerCallbackQuery id; EditMessageText chat messageId SessionExpired])
        else if bool_decide (action = Some "chain") then
          let state1 := withChain value state in
          let moved := <[chat := withStep "address" state1]> st in
          if bool_decide (cmd = Some "add") then
            (moved, [AnswerCallbackQuery id;
                     EditMessageText chat messageId (ChainChosen "add" value)])
          else if bool_decide (cmd = Some "remove") then
            (moved, [AnswerCallbackQuery id;
                     EditMessageText chat messageId (ChainChosen "remove" value)])
          else if bool_decide (cmd = Some "price") then
            (moved, [AnswerCallbackQuery id;
                     EditMessageText chat messageId (ChainChosen "price" value)])
          else if bool_decide (cmd = Some "threshold") then
            (moved, [AnswerCallbackQuery id;
                     EditMessageText chat messageId (ChainChosen "threshold" value)])
          else (<[chat := state1]> st, [AnswerCallbackQuery id])
        else (st, [AnswerCallbackQuery id])
    end.

Section Texts.
(** [String.prototype.trim] and [parseFloat], [None] standing for NaN. *)
Variable trim : string -> string.
Variable parseFloat : string -> option Q.

Definition startsWithSlash (s : string) : bool :=
  match s with
  | String c _ => bool_decide (c = "/"%char)
  | EmptyString => false
  end.

(** [parseFloat(text)] when it passes the test
    [isNaN(x) || x <= 0 || x > 100], which rejects the infinities too. *)
Definition validPercent (text : string) : option Q :=
  match parseFloat text with
  | None => None
  | Some x => if Qleb x 0 || Qgtb x 100 then None else Some x
  end.

Definition handleConversationMessage (chat : Z) (msgText : option string) (st : State)
  : State * list Action :=
  if default false (startsWithSlash <$> msgText) then (st, [])
  else
    match st !! chat with
    | None => (st, [])
    | Some state =>
        match trim <$> msgText with
        | None | Some EmptyString => (st, [])
        | Some text =>
            if bool_decide (command state = "add") then
              if bool_decide (step state = "address") then
                (<[chat := withStep "threshold" (withAddress (Some text) state)]> st,
                 [SendMessage chat (AddressReceived "add") []])
              else if bool_decide (step state = "threshold") then
                let threshold :=
                  if negb (bool_decide (toLowerCase text = "skip")) then validPercent text
                  else Some 5%Q in
                match threshold with
                | None => (st, [SendMessage chat (InvalidThreshold "add") []])
                | Some threshold =>
                    (delete chat st,
                     [ProcessAdd chat (chain state) (address state) threshold])
                end
              else (st, [])
            else if bool_decide (command state = "remove") then
              if bool_decide (step state = "address") then
                (delete chat st, [ProcessRemove chat (chain state) text])
              else (st, [])
            else if bool_decide (command state = "price") then
              if bool_decide (step state = "address") then
                (delete chat st, [ProcessPrice chat (chain state) text])
              else (st, [])
            else if bool_decide (command state = "search") then
              if bool_decide (step state = "query") then
                (delete chat st, [ProcessSearch chat text])
              else (st, [])
            else if bool_decide (command state = "threshold") then
              if bool_decide (step state = "address") then
                (<[chat := withStep "percent" (withAddress (Some text) state)]> st,
                 [SendMessage chat (AddressReceived "threshold") []])
              else if bool_decide (step state = "percent") then
                match validPercent text with
                | None => (st, [SendMessage chat (InvalidThreshold "threshold") []])
                | Some percent =>
                    (delete chat st,
                     [ProcessThreshold chat (chain state) (address state) percent])
                end
              else (st, [])
            else (st, [])
        end
    end.
End Texts.

End Interactive.

(** ** watchlist.js on a file system that can fail *)

(** The store again, with the [catch] blocks of [loadWatchlist] and
    [saveWatchlist].  The file is absent, holds a watchlist, or makes the
    read or the parse throw; [writeError] is the error that a write throws,
    if it throws. *)
Module FileStore.

Inductive Content :=
| Missing
| Holds (watchlist : list Entry)
| Unreadable (err : string).

Inductive FsLine :=
| LogLoadError (err : string)
| LogSaveError (err : string).

Record Fs := {
  content : Content;
  writeError : option string;
  fsLog : list FsLine
}.

Definition logged (line : FsLine) (s : Fs) : Fs :=
  {| content := content s; writeError := writeError s;
     fsLog := (fsLog s ++ [line])%list |}.

Definition loadWatchlist (s : Fs) : list Entry * Fs :=
  match content s with
  | Holds watchlist => (watchlist, s)
  | Unreadable err => ([], logged (LogLoadError err) s)
  | Missing => ([], s)
  end.

Definition saveWatchlist (watchlist : list Entry) (s : Fs) : Fs :=
  match writeError s with
  | None => {| content := Holds watchlist; writeError := None; fsLog := fsLog s |}
  | Some err => logged (LogSaveError err) s
  end.

Definition addToWatchlist (p : Watchlist.AddParams) (now : N) (s : Fs)
  : option Entry * Fs :=
  let '(watchlist, s1) := loadWatchlist s in
  let normalizedAddress := toLowerCase (Watchlist.a_tokenAddress p) in
  let exists_ :=
    existsb (Watchlist.matches normalizedAddress (Watchlist.a_chainId p)
                               (Watchlist.a_chatId p)) watchlist in
  if exists_ then (None, s1)
  else
    let entry := {| tokenAddress := normalizedAddress;
                    chainId := toLowerCase (Watchlist.a_chainId p);
                    name := Watchlist.a_name p;
                    symbol := Watchlist.a_symbol p;
                    dropThreshold := default 5%Q (Watchlist.a_dropThreshold p);
                    lastAlertPrice := Watchlist.a_currentPrice p;
                    initialPrice := Watchlist.a_currentPrice p;
                    addedAt := now;
                    chatId := Watchlist.a_chatId p |} in
    (Some entry, saveWatchlist (watchlist ++ [entry])%list s1).

Definition removeFromWatchlist (address chain chat : string) (s : Fs) : bool * Fs :=
  let '(watchlist, s1) := loadWatchlist s in
  let normalizedAddress := toLowerCase address in
  let initialLength := length watchlist in
  let filtered :=
    List.filter (fun entry => negb (Watchlist.matches normalizedAddress chain chat entry))
                watchlist in
  if (length filtered <? initialLength)%nat
  then (true, saveWatchlist filtered s1)
  else (false, s1).

Definition updateLastAlertPrice (address chain chat : string) (newPrice : Q) (s : Fs) : Fs :=
  let '(watchlist, s1) := loadWatchlist s in
  let normalizedAddress := toLowerCase address in
  match Watchlist.findIndex (Watchlist.matches normalizedAddress chain chat) watchlist with
  | Some i => saveWatchlist (alter (Watchlist.setLastAlertPrice newPrice) i watchlist) s1
  | None => s1
  end.

Definition updateThreshold (address chain chat : string) (newThreshold : Q) (s : Fs)
  : bool * Fs :=
  let '(watchlist, s1) := loadWatchlist s in
  let normalizedAddress := toLowerCase address in
  match Watchlist.findIndex (Watchlist.matches normalizedAddress chain chat) watchlist with
  | Some i =>
      (true, saveWatchlist (alter (Watchlist.setDropThreshold newThreshold) i watchlist) s1)
  | None => (false, s1)
  end.

End FileStore.

(** ** More observations *)

(** The pairs of a response that have base address [k], in their order. *)
Definition groupOf (k : string) (data : list Pair) : list Pair :=
  List.filter (fun p => bool_decide (baseAddress p = Some k)) data.

(** [m.get(k)] on a [Map] kept in insertion order. *)
Fixpoint assoc {A} (k : string) (m : list (string * list A)) : option (list A) :=
  match m with
  | [] => None
  | (k', xs) :: rest => if bool_decide (k' = k) then Some xs else assoc k rest
  end.

(** A list, when it has an element. *)
Definition nonEmpty {A} (l : list A) : option (list A) :=
  match l with
  | [] => None
  | _ :: _ => Some l
  end.

(** The entries of a watchlist on the chain [c], as [checkPrices] compares
    chains: case-sensitively. *)
Definition chainGroup (c : string) (d : list Entry) : list Entry :=
  List.filter (fun e => bool_decide (chainId e = c)) d.

(** What a sweep makes of an entry: nothing, or the same entry with a
    positive reference price. *)
Definition sameBut (e e' : Entry) : Prop :=
  e' = e \/ exists p, (0 < p)%Q /\ e' = Watchlist.setLastAlertPrice p e.

(** The events of a batched fetch of [addrs] on [chain]. *)
Definition fetchEvent (chain : string) (addrs : list string) (ev : Event) : Prop :=
  match ev with
  | HttpGet c batch => c = chain /\ batch <> [] /\ forall a, a ∈ batch -> a ∈ addrs
  | Sleep ms => ms = 250%N
  | Console (LogBatchError _) => True
  | _ => False
  end.

(** The events that a sweep over the watchlist [d] with the bot [b] can
    leave in the trace: requests for addresses watched on the chain asked,
    pauses, console lines, and messages that the bot accepted for the chat of
    an entry. *)
Definition sweepEvent (b : option Bot) (d : list Entry) (ev : Event) : Prop :=
  match ev with
  | HttpGet chain addresses =>
      addresses <> []
      /\ forall a, a ∈ addresses ->
                   exists e, e ∈ d /\ chainId e = chain /\ tokenAddress e = a
  | Sleep ms => ms = 250%N
  | Sent chat msg =>
      (exists e, e ∈ d /\ chatId e = chat)
      /\ exists bot, b = Some bot /\ bot chat msg = None
  | Console _ => True
  | SweepBegins _ => False
  end.

(** A world that a sweep started in [w0] can have reached. *)
Definition sweeping (w0 w : World) : Prop :=
  exists d' evs,
    w = withDisk d' (withTrace (trace w0 ++ evs)%list w0)
    /\ Forall2 sameBut (disk w0) d'
    /\ Forall (sweepEvent (monitorBot w0) (disk w0)) evs.

(** The entries reported as having no data, by symbol and chain. *)
Definition unanswered (evs : list Event) : list (string * string) :=
  omap (fun ev => match ev with
                  | Console (LogNoData sym chain) => Some (sym, chain)
                  | _ => None
                  end) evs.

(** An event that is neither a detection nor a message. *)
Definition quietEvent (ev : Event) : Prop :=
  match ev with
  | Console (LogDetected _ _ _) => False
  | Sent _ _ => False
  | SweepBegins _ => False
  | _ => True
  end.

(** The timers are well formed and at most one of them is periodic, the one
    that [monitorInterval] holds. *)
Definition oneInterval (w : World) : Prop :=
  NoDup (handle <$> timers w)
  /\ (forall t, t ∈ timers w -> (handle t < nextHandle w)%nat)
  /\ (forall t, t ∈ timers w -> is_Some (period t) -> monitorInterval w = Some (handle t)).

(** [n] turns of the event loop. *)
Fixpoint turns (upstream : Upstream) (n : nat) (w : World) : option World :=
  match n with
  | O => Some w
  | S n' =>
      match PriceMonitor.fireNext upstream w with
      | Some w' => turns upstream n' w'
      | None => None
      end
  end.

(** An upstream that is down. *)
Definition offline : Upstream := fun _ _ => inr "ECONNRESET".

(** The confirmation that [processAdd] sends for the token data it fetched. *)
Definition confirmation (chain : string) (threshold : option Q) (tokenData : TokenData)
  : Message :=
  MsgAdded (escapeMarkdown (td_name tokenData)) (escapeMarkdown (td_symbol tokenData))
           (escapeMarkdown (Dexscreener.formatPrice (priceUsd tokenData)))
           (escapeMarkdown (Dexscreener.formatMarketCap (Some (marketCap tokenData))))
           threshold (escapeMarkdown chain).

(** A bot that rejects the confirmation of an add and accepts the rest. *)
Definition pickyBot : Bot :=
  fun _ msg =>
    match msg with
    | MsgAdded _ _ _ _ _ _ => Some "ETELEGRAM: 400 Bad Request: can't parse entities"
    | _ => None
    end.

(** The characters that [escapeMarkdown] escapes. *)
Definition special (c : ascii) : bool :=
  bool_decide (c = "_"%char) || bool_decide (c = "*"%char)
  || bool_decide (c = "`"%char) || bool_decide (c = "["%char).

(** Every special character of [cs] comes right after a backslash, [prev]
    being the character before [cs]. *)
Fixpoint guarded (prev : ascii) (cs : list ascii) : Prop :=
  match cs with
  | [] => True
  | c :: rest => (special c = true -> prev = "\"%char) /\ guarded c rest
  end.

(** The chain identifiers that the keyboard offers. *)
Definition chainIds : list string := Constants.SUPPORTED_CHAINS.*1.

Fixpoint noColon (s : string) : Prop :=
  match s with
  | EmptyString => True
  | String c rest => c <> ":"%char /\ noColon rest
  end.

(** The conversation of every chat but [chat] is as before. *)
Definition othersKept (chat : Z) (st st' : Interactive.State) : Prop :=
  forall c, c <> chat -> st' !! c = st !! c.

(** A call to a processor. *)
Definition isDispatch (a : Interactive.Action) : bool :=
  match a with
  | Interactive.ProcessAdd _ _ _ _ | Interactive.ProcessRemove _ _ _
  | Interactive.ProcessPrice _ _ _ | Interactive.ProcessSearch _ _
  | Interactive.ProcessThreshold _ _ _ _ => true
  | _ => false
  end.

(** The percentage that a call passes to a processor. *)
Definition percentOf (a : Interactive.Action) : option Q :=
  match a with
  | Interactive.ProcessAdd _ _ _ threshold => Some threshold
  | Interactive.ProcessThreshold _ _ _ percent => Some percent
  | _ => None
  end.

(** The chain and the address that a call passes to a processor are
    defined. *)
Definition definedArguments (a : Interactive.Action) : Prop :=
  match a with
  | Interactive.ProcessAdd _ chain address _
  | Interactive.ProcessThreshold _ chain address _ => is_Some chain /\ is_Some address
  | Interactive.ProcessRemove _ chain _ | Interactive.ProcessPrice _ chain _ => is_Some chain
  | _ => True
  end.

(** The steps of each command, and what a conversation has collected when
    it is at a step. *)
Definition wellFormed (c : Interactive.Conversation) : Prop :=
  (Interactive.command c, Interactive.step c)
    ∈ [("add", "chain"); ("add", "address"); ("add", "threshold");
       ("remove", "chain"); ("remove", "address");
       ("price", "chain"); ("price", "address");
       ("search", "query");
       ("threshold", "chain"); ("threshold", "address"); ("threshold", "percent")]
  /\ (Interactive.step c ∈ ["address"; "threshold"; "percent"] ->
      is_Some (Interactive.chain c))
  /\ (Interactive.step c ∈ ["threshold"; "percent"] -> is_Some (Interactive.address c)).

Definition allWellFormed (st : Interactive.State) : Prop :=
  forall chat c, st !! chat = Some c -> wellFormed c.

(** Callback data that names a value, as the data of every button do. *)
Definition namesValue (data : string) : Prop :=
  is_Some (Interactive.split data !! 2%nat).

(** The file system of a world: the watchlist is on disk and writes
    succeed. *)
Definition onDisk (w : World) : FileStore.Fs :=
  {| FileStore.content := FileStore.Holds (disk w); FileStore.writeError := None;
     FileStore.fsLog := [] |}.

(** A file that cannot be read, and a disk that cannot be written. *)
Definition unreadable : FileStore.Fs :=
  {| FileStore.content := FileStore.Unreadable "EACCES: permission denied";
     FileStore.writeError := None; FileStore.fsLog := [] |}.


(** The request that adds the sample entry. *)
Definition owlRequest : Watchlist.AddParams :=
  {| Watchlist.a_tokenAddress := "OwlMint"; Watchlist.a_chainId := "solana";
     Watchlist.a_name := "Owl"; Watchlist.a_symbol := "OWL";
     Watchlist.a_currentPrice := 1.00%Q; Watchlist.a_dropThreshold := Some 5%Q;
     Watchlist.a_chatId := "42" |}.

(** * Properties *)

Local Open Scope list_scope.

(** ** Comparisons *)

Lemma Qleb_true x y : Qleb x y = true <-> (x <= y)%Q.
Proof. apply Qle_bool_iff. Qed.

Lemma Qleb_false x y : Qleb x y = false <-> (y < x)%Q.
Proof.
  unfold Qleb. split; intros H.
  - apply Qnot_le_lt. intros Hle. apply Qle_bool_iff in Hle. congruence.
  - destruct (Qle_bool x y) eqn:E; [|reflexivity].
    apply Qle_bool_iff in E. exfalso. exact (Qlt_not_le _ _ H E).
Qed.

Lemma Qgeb_true x y : Qgeb x y = true <-> (y <= x)%Q.
Proof. apply Qleb_true. Qed.

Lemma Qgeb_false x y : Qgeb x y = false <-> (x < y)%Q.
Proof. apply Qleb_false. Qed.

Lemma Qgtb_true x y : Qgtb x y = true <-> (y < x)%Q.
Proof. unfold Qgtb. rewrite negb_true_iff. apply Qleb_false. Qed.

Lemma Qltb_true x y : Qltb x y = true <-> (x < y)%Q.
Proof. unfold Qltb. rewrite negb_true_iff. apply Qleb_false. Qed.

Lemma Qltb_false x y : Qltb x y = false <-> (y <= x)%Q.
Proof. unfold Qltb. rewrite negb_false_iff. apply Qleb_true. Qed.

Lemma Qeqb_true x y : Qeqb x y = true <-> (x == y)%Q.
Proof. apply Qeq_bool_iff. Qed.

(** ** Binary64 arithmetic *)

Section Binary64_facts.
Import Binary64.
Local Open Scope Q_scope.

Lemma two_nonzero : ~ 2 == 0.
Proof. discriminate. Qed.

Lemma pow2_pos (e : Z) : 0 < pow2 e.
Proof. apply Qpower_0_lt. reflexivity. Qed.

Lemma pow2_add (a b : Z) : pow2 (a + b) == pow2 a * pow2 b.
Proof. apply Qpower_plus, two_nonzero. Qed.

Lemma pow2_sub (a b : Z) : pow2 (a - b) == pow2 a / pow2 b.
Proof. apply Qpower_minus, two_nonzero. Qed.

Lemma pow2_succ (e : Z) : pow2 (e + 1) == 2 * pow2 e.
Proof. rewrite pow2_add. change (pow2 1) with 2. ring. Qed.

Lemma pow2_le (a b : Z) : (a <= b)%Z -> pow2 a <= pow2 b.
Proof. intros H. apply Qpower_le_compat_l; [exact H | discriminate]. Qed.


Lemma pow2_lt_inv (a b : Z) : pow2 a < pow2 b -> (a < b)%Z.
Proof.
  intros H. destruct (Z_lt_le_dec a b) as [|Hle]; [assumption|].
  apply pow2_le in Hle. apply Qle_not_lt in Hle. contradiction.
Qed.

Lemma pow2_Z (e : Z) : (0 <= e)%Z -> pow2 e == inject_Z (2 ^ e).
Proof. intros H. symmetry. apply (Zpower_Qpower 2 e H). Qed.

Lemma Q_as_quotient (x : Q) : x * inject_Z (Zpos (Qden x)) == inject_Z (Qnum x).
Proof.
  destruct x as [n d]. unfold Qeq, Qmult, inject_Z. cbn [Qnum Qden].
  rewrite Pos.mul_1_r. lia.
Qed.

Lemma ilog2_spec (x : Q) : 0 < x -> pow2 (ilog2 x) <= x /\ x < pow2 (ilog2 x + 1).
Proof.
  intros Hx.
  assert (Hn : (0 < Qnum x)%Z).
  { destruct x as [n d]. unfold Qlt in Hx. cbn in *. lia. }
  pose proof (Q_as_quotient x) as Hq.
  set (n := Qnum x) in *. set (d := Zpos (Qden x)) in *.
  assert (Hd : (0 < d)%Z) by (subst d; lia).
  destruct (Z.log2_spec n Hn) as [Hn1 Hn2].
  destruct (Z.log2_spec d Hd) as [Hd1 Hd2].
  pose proof (Z.log2_nonneg n) as Ha. pose proof (Z.log2_nonneg d) as Hb.
  set (a := Z.log2 n) in *. set (b := Z.log2 d) in *.
  assert (HA : pow2 a <= inject_Z n).
  { rewrite (pow2_Z a Ha). rewrite <- Zle_Qle. exact Hn1. }
  assert (HA' : inject_Z n < 2 * pow2 a).
  { rewrite <- pow2_succ, (pow2_Z (a + 1)) by lia. rewrite <- Zlt_Qlt. exact Hn2. }
  assert (HB : pow2 b <= inject_Z d).
  { rewrite (pow2_Z b Hb). rewrite <- Zle_Qle. exact Hd1. }
  assert (HB' : inject_Z d < 2 * pow2 b).
  { rewrite <- pow2_succ, (pow2_Z (b + 1)) by lia. rewrite <- Zlt_Qlt. exact Hd2. }
  pose proof (pow2_pos a) as HpA. pose proof (pow2_pos b) as HpB.
  assert (Hg : pow2 (a - b) * pow2 b == pow2 a).
  { rewrite <- pow2_add. replace (a - b + b)%Z with a by lia. reflexivity. }
  unfold ilog2. fold n d a b.
  destruct (Qle_bool (pow2 (a - b)) x) eqn:E.
  - split; [by apply Qle_bool_iff|].
    rewrite pow2_succ.
    set (P := pow2 (a - b)) in *. set (A := pow2 a) in *. set (B := pow2 b) in *.
    set (N := inject_Z n) in *. set (D := inject_Z d) in *.
    apply Qnot_le_lt. intros Hc.
    assert (2 * P * B <= x * B) by (apply Qmult_le_compat_r; [exact Hc | lra]).
    assert (x * B <= x * D) by (rewrite !(Qmult_comm x); apply Qmult_le_compat_r; lra).
    lra.
  - assert (Hlt : x < pow2 (a - b)).
    { apply Qnot_le_lt. intros Hc. apply Qle_bool_iff in Hc. congruence. }
    replace (a - b - 1 + 1)%Z with (a - b)%Z by lia.
    split; [|exact Hlt].
    assert (Hh : 2 * pow2 (a - b - 1) == pow2 (a - b)).
    { rewrite <- pow2_succ. replace (a - b - 1 + 1)%Z with (a - b)%Z by lia. reflexivity. }
    set (P := pow2 (a - b)) in *. set (P' := pow2 (a - b - 1)) in *.
    set (A := pow2 a) in *. set (B := pow2 b) in *.
    set (N := inject_Z n) in *. set (D := inject_Z d) in *.
    apply Qnot_lt_le. intros Hc.
    assert (x * D < P' * D).
    { apply Qmult_lt_compat_r; [|exact Hc]. apply (Qlt_le_trans _ B); assumption. }
    assert (P' * D <= P' * (2 * B)).
    { rewrite !(Qmult_comm P'). apply Qmult_le_compat_r; [lra|].
      pose proof (pow2_pos (a - b - 1)). fold P' in H0. lra. }
    assert (2 * P' * B == A) by (rewrite <- Hg, <- Hh; ring).
    lra.
Qed.

Lemma ilog2_unique (x : Q) (e : Z) : pow2 e <= x -> x < pow2 (e + 1) -> ilog2 x = e.
Proof.
  intros H1 H2.
  assert (Hx : 0 < x) by (pose proof (pow2_pos e); lra).
  destruct (ilog2_spec x Hx) as [H3 H4].
  assert (ilog2 x < e + 1)%Z by (apply pow2_lt_inv; lra).
  assert (e < ilog2 x + 1)%Z by (apply pow2_lt_inv; lra).
  lia.
Qed.

Lemma ilog2_comp (x y : Q) : 0 < x -> x == y -> ilog2 x = ilog2 y.
Proof.
  intros Hx Hxy. symmetry. destruct (ilog2_spec x Hx) as [H1 H2].
  apply ilog2_unique; rewrite <- Hxy; assumption.
Qed.

Lemma ilog2_mono (x y : Q) : 0 < x -> x <= y -> (ilog2 x <= ilog2 y)%Z.
Proof.
  intros Hx Hxy.
  destruct (ilog2_spec x Hx) as [H1 _].
  destruct (ilog2_spec y ltac:(lra)) as [_ H2].
  assert (ilog2 x < ilog2 y + 1)%Z by (apply pow2_lt_inv; lra).
  lia.
Qed.




(** *** Rounding to the nearest integer *)

Lemma nearestEven_floor (x : Q) :
  (Qfloor x <= nearestEven x <= Qfloor x + 1)%Z.
Proof.
  unfold nearestEven.
  destruct (x - inject_Z (Qfloor x) ?= 1 # 2); [destruct (Z.even _)| |]; lia.
Qed.

Lemma nearestEven_comp (x y : Q) : x == y -> nearestEven x = nearestEven y.
Proof.
  intros H. unfold nearestEven. rewrite (Qfloor_comp x y H).
  assert (E : x - inject_Z (Qfloor y) == y - inject_Z (Qfloor y)) by (rewrite H; reflexivity).
  by rewrite (Qcompare_comp _ _ E (1 # 2) (1 # 2) (Qeq_refl _)).
Qed.

Lemma nearestEven_Z (n : Z) : nearestEven (inject_Z n) = n.
Proof.
  unfold nearestEven. rewrite Qfloor_Z.
  assert (E : inject_Z n - inject_Z n == 0) by ring.
  by rewrite (Qcompare_comp _ _ E (1 # 2) (1 # 2) (Qeq_refl _)).
Qed.

Lemma nearestEven_ge (x : Q) (n : Z) : inject_Z n <= x -> (n <= nearestEven x)%Z.
Proof.
  intros H. apply Qfloor_resp_le in H. rewrite Qfloor_Z in H.
  pose proof (nearestEven_floor x). lia.
Qed.

Lemma nearestEven_mono (x y : Q) : x <= y -> (nearestEven x <= nearestEven y)%Z.
Proof.
  intros H. pose proof (Qfloor_resp_le x y H) as Hf.
  pose proof (nearestEven_floor x) as Hx. pose proof (nearestEven_floor y) as Hy.
  destruct (Z.eq_dec (Qfloor x) (Qfloor y)) as [E|E]; [|lia].
  unfold nearestEven in *. rewrite E in *.
  destruct (Qcompare_spec (x - inject_Z (Qfloor y)) (1 # 2)) as [H1|H1|H1];
    destruct (Qcompare_spec (y - inject_Z (Qfloor y)) (1 # 2)) as [H2|H2|H2];
    try lia; try (exfalso; lra); destruct (Z.even (Qfloor y)); lia.
Qed.

Lemma nearestEven_le (x : Q) (n : Z) : x <= inject_Z n -> (nearestEven x <= n)%Z.
Proof.
  intros H. rewrite <- (nearestEven_Z n). by apply nearestEven_mono.
Qed.


(** *** Rounding to a double *)

Lemma ulpExp_comp (x y : Q) : 0 < x -> x == y -> ulpExp x = ulpExp y.
Proof. intros Hx H. unfold ulpExp. by rewrite (ilog2_comp x y Hx H). Qed.

Lemma ulpExp_mono (x y : Q) : 0 < x -> x <= y -> (ulpExp x <= ulpExp y)%Z.
Proof. intros Hx H. unfold ulpExp. pose proof (ilog2_mono x y Hx H). lia. Qed.

Lemma roundPos_eq (x : Q) :
  roundPos x == inject_Z (nearestEven (x / pow2 (ulpExp x))) * pow2 (ulpExp x).
Proof. unfold roundPos. apply Qred_correct. Qed.

Lemma roundPos_comp (x y : Q) : 0 < x -> x == y -> roundPos x = roundPos y.
Proof.
  intros Hx H. unfold roundPos. apply Qred_complete.
  rewrite (ulpExp_comp x y Hx H).
  rewrite (nearestEven_comp (x / pow2 (ulpExp y)) (y / pow2 (ulpExp y))); [reflexivity|].
  by rewrite H.
Qed.

Lemma scaled (x : Q) (u : Z) : x / pow2 u * pow2 u == x.
Proof. field. pose proof (pow2_pos u). lra. Qed.

Lemma roundPos_nonneg (x : Q) : 0 < x -> 0 <= roundPos x.
Proof.
  intros Hx. rewrite roundPos_eq. pose proof (pow2_pos (ulpExp x)) as Hp.
  apply Qmult_le_0_compat; [|lra].
  change 0 with (inject_Z 0). rewrite <- Zle_Qle. apply nearestEven_ge.
  change (inject_Z 0) with 0. apply Qle_shift_div_l; lra.
Qed.

(** The bounds of a binade are doubles, so rounding stays between them. *)
Lemma roundPos_ge_pow2 (x : Q) (e : Z) :
  (ulpExp x <= e)%Z -> pow2 e <= x -> pow2 e <= roundPos x.
Proof.
  intros Hu He. rewrite roundPos_eq. pose proof (pow2_pos (ulpExp x)) as Hp.
  assert (E : pow2 e == inject_Z (2 ^ (e - ulpExp x)) * pow2 (ulpExp x)).
  { rewrite <- pow2_Z by lia. rewrite <- pow2_add. by replace (e - ulpExp x + ulpExp x)%Z with e by lia. }
  rewrite E. apply Qmult_le_compat_r; [|lra].
  rewrite <- Zle_Qle. apply nearestEven_ge.
  apply Qle_shift_div_l; [lra|]. by rewrite <- E.
Qed.

Lemma roundPos_le_pow2 (x : Q) (e : Z) :
  (ulpExp x <= e)%Z -> x <= pow2 e -> roundPos x <= pow2 e.
Proof.
  intros Hu He. rewrite roundPos_eq. pose proof (pow2_pos (ulpExp x)) as Hp.
  assert (E : pow2 e == inject_Z (2 ^ (e - ulpExp x)) * pow2 (ulpExp x)).
  { rewrite <- pow2_Z by lia. rewrite <- pow2_add. by replace (e - ulpExp x + ulpExp x)%Z with e by lia. }
  rewrite E. apply Qmult_le_compat_r; [|lra].
  rewrite <- Zle_Qle. apply nearestEven_le.
  apply Qle_shift_div_r; [lra|]. by rewrite <- E.
Qed.

Lemma ulpExp_le_ilog2 (x : Q) : (-1074 <= ilog2 x)%Z -> (ulpExp x <= ilog2 x)%Z.
Proof. unfold ulpExp. lia. Qed.

Lemma roundPos_mono (x y : Q) : 0 < x -> x <= y -> roundPos x <= roundPos y.
Proof.
  intros Hx H. pose proof (ulpExp_mono x y Hx H) as Hu.
  destruct (Z.eq_dec (ulpExp x) (ulpExp y)) as [E|E].
  - rewrite !roundPos_eq, E. pose proof (pow2_pos (ulpExp y)) as Hp.
    apply Qmult_le_compat_r; [|lra]. rewrite <- Zle_Qle. apply nearestEven_mono.
    apply Qmult_le_compat_r; [exact H|]. apply Qlt_le_weak, Qinv_lt_0_compat, Hp.
  - assert (Hy : 0 < y) by lra.
    destruct (ilog2_spec x Hx) as [_ Hx2]. destruct (ilog2_spec y Hy) as [Hy1 _].
    assert (Hlt : (ilog2 x < ilog2 y)%Z) by (unfold ulpExp in *; lia).
    apply (Qle_trans _ (pow2 (Z.max (ilog2 x + 1) (ulpExp x)))).
    + apply roundPos_le_pow2; [lia|].
      apply (Qle_trans _ (pow2 (ilog2 x + 1))); [lra | apply pow2_le; lia].
    + apply (Qle_trans _ (pow2 (ilog2 y))); [apply pow2_le; unfold ulpExp in *; lia|].
      apply roundPos_ge_pow2; [unfold ulpExp in *; lia | exact Hy1].
Qed.

(** A double is its own rounding. *)
Lemma roundPos_grid (x : Q) (m : Z) (u : Z) :
  0 < x -> x == inject_Z m * pow2 u -> (ulpExp x <= u)%Z -> roundPos x == x.
Proof.
  intros Hx H Hu. rewrite roundPos_eq.
  assert (E : x / pow2 (ulpExp x) == inject_Z (m * 2 ^ (u - ulpExp x))).
  { rewrite inject_Z_mult, <- pow2_Z by lia. rewrite pow2_sub.
    pose proof (pow2_pos (ulpExp x)) as Hp. set (P := pow2 (ulpExp x)) in *.
    rewrite H. field. lra. }
  rewrite (nearestEven_comp _ _ E), nearestEven_Z, <- E. apply scaled.
Qed.

Lemma Qred_idem (q : Q) : Qred (Qred q) = Qred q.
Proof. apply Qred_complete, Qred_correct. Qed.

Lemma roundPos_reduced (x : Q) : Qred (roundPos x) = roundPos x.
Proof. apply Qred_idem. Qed.

Lemma Qopp_opp_eq (q : Q) : - - q = q.
Proof. destruct q as [n d]. unfold Qopp. cbn. f_equal. lia. Qed.

Lemma round_comp (x y : Q) : x == y -> round x = round y.
Proof.
  intros H. unfold round.
  rewrite (Qcompare_comp x y H 0 0 (Qeq_refl 0)).
  destruct (Qcompare_spec y 0) as [H0|H0|H0]; [done| |].
  - assert (E : - x == - y) by (by rewrite H).
    by rewrite (roundPos_comp (- x) (- y) ltac:(lra) E).
  - by rewrite (roundPos_comp x y ltac:(lra) H).
Qed.

Lemma round_pos (x : Q) :
  0 < x ->
  round x = if Qle_bool (pow2 1024) (roundPos x) then PInf else Fin (roundPos x).
Proof. intros H. unfold round. apply Qgt_alt in H. by rewrite H. Qed.

Lemma round_opp (x : Q) : round (- x) = neg (round x).
Proof.
  unfold round.
  destruct (Qcompare_spec x 0) as [H|H|H].
  - assert (E : (- x ?= 0) = Eq) by (apply (proj1 (Qeq_alt _ _)); lra). by rewrite E.
  - assert (E : (- x ?= 0) = Gt) by (apply (proj1 (Qgt_alt _ _)); lra). rewrite E.
    destruct (Qle_bool (pow2 1024) (roundPos (- x))); [done|].
    cbn [neg]. f_equal.
    by rewrite !Qred_opp, Qred_idem, roundPos_reduced, Qopp_opp_eq.
  - assert (E : (- x ?= 0) = Lt) by (apply (proj1 (Qlt_alt _ _)); lra). rewrite E.
    rewrite (roundPos_comp (- - x) x ltac:(lra) (Qopp_involutive x)).
    by destruct (Qle_bool (pow2 1024) (roundPos x)).
Qed.


Lemma atLeast_weaken (b c : Q) (a : Num) : c <= b -> atLeast b a -> atLeast c a.
Proof. destruct a; cbn; try done. intros; lra. Qed.

(** *** The doubles *)

(** A positive double is a multiple of its unit in the last place. *)
Lemma double_grid (x y : Q) :
  round x = Fin y -> 0 < y ->
  exists m : Z, (0 < m)%Z /\ y == inject_Z m * pow2 (ulpExp y).
Proof.
  intros Hr Hy.
  assert (Hx : 0 < x).
  { apply Qnot_le_lt. intros Hx. unfold round in Hr.
    destruct (Qcompare_spec x 0) as [H|H|H]; [| |lra].
    - injection Hr as <-. lra.
    - destruct (Qle_bool _ _); [done|]. injection Hr as <-.
      pose proof (roundPos_nonneg (- x) ltac:(lra)) as Hn.
      rewrite Qred_correct in Hy. lra. }
  rewrite (round_pos x Hx) in Hr.
  destruct (Qle_bool _ _); [done|]. injection Hr as <-.
  pose proof (roundPos_eq x) as Heq.
  set (y := roundPos x) in *. set (u := ulpExp x) in *.
  set (m := nearestEven (x / pow2 u)) in *.
  pose proof (pow2_pos u) as Hpu.
  assert (Hm : (0 < m)%Z).
  { destruct (Z_lt_le_dec 0 m) as [|Hle]; [done|].
    rewrite Zle_Qle in Hle. change (inject_Z 0) with 0 in Hle.
    assert (inject_Z m * pow2 u <= 0 * pow2 u) by (apply Qmult_le_compat_r; lra).
    lra. }
  destruct (Z_le_gt_dec (ulpExp y) u) as [Hu|Hu].
  - exists (m * 2 ^ (u - ulpExp y))%Z. split; [lia|].
    rewrite inject_Z_mult, <- pow2_Z by lia.
    etransitivity; [exact Heq|].
    rewrite <- Qmult_assoc, <- pow2_add.
    by replace (u - ulpExp y + ulpExp y)%Z with u by lia.
  - (* rounding reached the next binade: [y] is a power of two *)
    destruct (ilog2_spec x Hx) as [Hx1 Hx2]. destruct (ilog2_spec y Hy) as [Hy1 Hy2].
    assert (Hu' : (-1074 <= u)%Z) by (unfold u, ulpExp; lia).
    assert (Hi : (ilog2 x < ilog2 y)%Z) by (unfold u, ulpExp in *; lia).
    assert (Hle : y <= pow2 (Z.max (ilog2 x + 1) u)).
    { apply roundPos_le_pow2; [fold u; lia|].
      apply (Qle_trans _ (pow2 (ilog2 x + 1))); [lra | apply pow2_le; lia]. }
    assert (Hmax : (Z.max (ilog2 x + 1) u <= ilog2 y)%Z).
    { unfold u, ulpExp in *. lia. }
    assert (E : y == pow2 (ilog2 y)).
    { apply Qle_antisym; [|exact Hy1].
      apply (Qle_trans _ _ _ Hle). by apply pow2_le. }
    exists (2 ^ (ilog2 y - ulpExp y))%Z.
    assert (Hd : (ulpExp y <= ilog2 y)%Z) by (unfold ulpExp, u in *; lia).
    split; [lia|].
    rewrite <- pow2_Z by lia. rewrite <- pow2_add.
    by replace (ilog2 y - ulpExp y + ulpExp y)%Z with (ilog2 y) by lia.
Qed.




(** *** Signs through the operations *)












(** *** Monotonicity, accuracy and idempotence *)

Lemma round_finite_pos (x y : Q) :
  0 < x -> round x = Fin y -> y = roundPos x /\ y < pow2 1024.
Proof.
  intros Hx H. rewrite (round_pos x Hx) in H.
  destruct (Qle_bool (pow2 1024) (roundPos x)) eqn:E; [done|].
  injection H as <-. split; [done|].
  apply Qnot_le_lt. intros Hle. apply Qle_bool_iff in Hle. congruence.
Qed.

(** Rounding is monotone. *)
Lemma round_mono_pos (x y a b : Q) :
  0 < x -> x <= y -> round x = Fin a -> round y = Fin b -> a <= b.
Proof.
  intros Hx Hxy Ha Hb.
  destruct (round_finite_pos x a Hx Ha) as [-> _].
  destruct (round_finite_pos y b ltac:(lra) Hb) as [-> _].
  by apply roundPos_mono.
Qed.


Lemma roundPos_idem (x : Q) : 0 < x -> roundPos x < pow2 1024 -> 0 < roundPos x ->
  roundPos (roundPos x) = roundPos x.
Proof.
  intros Hx Hfin Hpos.
  assert (Hr : round x = Fin (roundPos x)).
  { rewrite (round_pos x Hx).
    destruct (Qle_bool (pow2 1024) (roundPos x)) eqn:E; [|done].
    apply Qle_bool_iff in E. lra. }
  destruct (double_grid x (roundPos x) Hr Hpos) as (m & Hm & Em).
  pose proof (roundPos_grid (roundPos x) m (ulpExp (roundPos x)) Hpos Em ltac:(lia)) as E.
  transitivity (Qred (roundPos (roundPos x))); [symmetry; apply roundPos_reduced|].
  transitivity (Qred (roundPos x)); [by apply Qred_complete | apply roundPos_reduced].
Qed.

(** A double is its own rounding. *)
Lemma round_idem (x y : Q) : round x = Fin y -> round y = Fin y.
Proof.
  intros H. unfold round in H.
  destruct (Qcompare_spec x 0) as [E|E|E].
  - by injection H as <-.
  - destruct (Qle_bool (pow2 1024) (roundPos (- x))) eqn:Hfin; [done|].
    injection H as <-.
    assert (Hx : 0 < - x) by lra.
    assert (Hlt : roundPos (- x) < pow2 1024).
    { apply Qnot_le_lt. intros Hle. apply Qle_bool_iff in Hle. congruence. }
    pose proof (roundPos_nonneg (- x) Hx) as Hnn.
    destruct (Qle_lt_or_eq _ _ Hnn) as [Hpos|Hz].
    + rewrite (round_comp _ (- roundPos (- x)) (Qred_correct _)).
      rewrite round_opp, (round_pos _ Hpos).
      by rewrite (roundPos_idem (- x) Hx Hlt Hpos), Hfin.
    + assert (Ez : roundPos (- x) = 0).
      { rewrite <- (roundPos_reduced (- x)). change 0 with (Qred 0).
        apply Qred_complete. by symmetry. }
      by rewrite Ez.
  - destruct (Qle_bool (pow2 1024) (roundPos x)) eqn:Hfin; [done|].
    injection H as <-.
    assert (Hlt : roundPos x < pow2 1024).
    { apply Qnot_le_lt. intros Hle. apply Qle_bool_iff in Hle. congruence. }
    pose proof (roundPos_nonneg x E) as Hnn.
    destruct (Qle_lt_or_eq _ _ Hnn) as [Hpos|Hz].
    + rewrite (round_pos _ Hpos), (roundPos_idem x E Hlt Hpos). by rewrite Hfin.
    + assert (Ez : roundPos x = 0).
      { rewrite <- (roundPos_reduced x). change 0 with (Qred 0).
        apply Qred_complete. by symmetry. }
      by rewrite Ez.
Qed.

(** *** The tests of the formatters *)






Lemma const_1000 : round 1000 = Fin 1000.
Proof. by vm_compute. Qed.

(** The guard of the evaluator: a price that is not positive rounds to a
    double that is not positive, and conversely. *)
Lemma guard_nonpos (q : Q) : q <= 0 -> leb (round q) (Fin 0) = true.
Proof.
  intros H. unfold round.
  destruct (Qcompare_spec q 0) as [E|E|E]; [done| |lra].
  destruct (Qle_bool (pow2 1024) (roundPos (- q))); [done|].
  cbn [leb]. apply Qle_bool_iff. rewrite Qred_correct.
  pose proof (roundPos_nonneg (- q) ltac:(lra)). lra.
Qed.

Lemma guard_pos (q : Q) : leb (round q) (Fin 0) = false -> 0 < q.
Proof.
  intros H. apply Qnot_le_lt. intros Hq. rewrite (guard_nonpos q Hq) in H. done.
Qed.

Lemma guard_double (q x : Q) : round q = Fin x -> 0 < x -> leb (round q) (Fin 0) = false.
Proof.
  intros -> Hx. cbn [leb]. destruct (Qle_bool x 0) eqn:E; [|done].
  apply Qle_bool_iff in E. lra.
Qed.

(** *** The accuracy of the computed change *)











End Binary64_facts.

(** ** The world setters *)

Lemma withDisk_same w : withDisk (disk w) w = w.
Proof. by destruct w. Qed.

Lemma withTrace_same w : withTrace (trace w) w = w.
Proof. by destruct w. Qed.

(** ** The store, as functions of the watchlist *)

Lemma updateLastAlertPrice_run address chain chat newPrice w :
  updateLastAlertPrice address chain chat newPrice w
  = (Ok tt, withDisk (repriced address chain chat newPrice (disk w)) w).
Proof.
  unfold updateLastAlertPrice, repriced, bind, loadWatchlist, saveWatchlist, ret.
  destruct (findIndex _ _); [reflexivity|]. by rewrite withDisk_same.
Qed.

Lemma sendPriceAlert_run entry tokenData percentChange w :
  sendPriceAlert entry tokenData percentChange w
  = (Ok tt, withTrace (trace w ++ [alertNotice (monitorBot w) entry tokenData percentChange]) w).
Proof.
  unfold sendPriceAlert, alertNotice.
  destruct (monitorBot w) as [b|]; [|reflexivity].
  unfold tryCatch, sendMessage.
  destruct (b _ _); reflexivity.
Qed.

Section CheckEntry.
Variable tokenDataMap : gmap string TokenData.
Variable entry : Entry.
Variable w : World.

Lemma checkEntry_nodata :
  tokenDataMap !! toLowerCase (tokenAddress entry) = None ->
  checkEntry tokenDataMap entry w
  = (Ok tt, withTrace (trace w ++ [Console (LogNoData (symbol entry) (chainId entry))]) w).
Proof. intros H. unfold checkEntry. by rewrite H. Qed.

Variable tokenData : TokenData.
Hypothesis Hdata : tokenDataMap !! toLowerCase (tokenAddress entry) = Some tokenData.

Lemma checkEntry_skip :
  (lastAlertPrice entry <= 0)%Q \/ (priceUsd tokenData <= 0)%Q ->
  checkEntry tokenDataMap entry w = (Ok tt, w).
Proof.
  intros H. unfold checkEntry. rewrite Hdata. cbv zeta.
  destruct H as [H|H]; apply guard_nonpos in H; rewrite H; [reflexivity|].
  by rewrite orb_true_r.
Qed.

Lemma checkEntry_guarded :
  Binary64.leb (Binary64.round (lastAlertPrice entry)) (Binary64.Fin 0)
  || Binary64.leb (Binary64.round (priceUsd tokenData)) (Binary64.Fin 0) = true ->
  checkEntry tokenDataMap entry w = (Ok tt, w).
Proof. intros H. unfold checkEntry. rewrite Hdata. cbv zeta. by rewrite H. Qed.

Hypothesis Hguard :
  Binary64.leb (Binary64.round (lastAlertPrice entry)) (Binary64.Fin 0)
  || Binary64.leb (Binary64.round (priceUsd tokenData)) (Binary64.Fin 0) = false.

Lemma checkEntry_quiet :
  Binary64.geb (Binary64.abs (percentChangeOf (priceUsd tokenData) (lastAlertPrice entry)))
               (Binary64.round (dropThreshold entry)) = false ->
  checkEntry tokenDataMap entry w = (Ok tt, w).
Proof.
  intros H. unfold checkEntry. rewrite Hdata. cbv zeta. by rewrite Hguard, H.
Qed.

Lemma checkEntry_fire :
  Binary64.geb (Binary64.abs (percentChangeOf (priceUsd tokenData) (lastAlertPrice entry)))
               (Binary64.round (dropThreshold entry)) = true ->
  checkEntry tokenDataMap entry w = (Ok tt, alertedWorld entry tokenData w).
Proof.
  intros H. unfold checkEntry. rewrite Hdata. cbv zeta. rewrite Hguard, H.
  unfold bind, consoleLog, emit.
  rewrite sendPriceAlert_run, updateLastAlertPrice_run.
  unfold alertedWorld. cbn. by rewrite <- app_assoc.
Qed.
End CheckEntry.



(** ** The alert rule *)

Lemma detections_app w evs :
  detections (withTrace (trace w ++ evs) w)
  = detections w ++ detections (withTrace evs w).
Proof. unfold detections. cbn. apply omap_app. Qed.






(** ** The store *)

Lemma matches_key address chain chat e :
  matches (toLowerCase address) chain chat e = true
  <-> keyOf e = (toLowerCase address, toLowerCase chain, chat).
Proof.
  unfold matches, keyOf. rewrite !andb_true_iff, !bool_decide_eq_true.
  split; [intros [[-> ->] ->]; reflexivity | intros [= -> -> ->]; done].
Qed.

Lemma findIndex_Some pred d i :
  findIndex pred d = Some i ->
  exists e, d !! i = Some e /\ pred e = true
            /\ forall j e', (j < i)%nat -> d !! j = Some e' -> pred e' = false.
Proof.
  revert i. induction d as [|x d IH]; intros i; cbn; [done|].
  destruct (pred x) eqn:Hx.
  - intros [= <-]. exists x. repeat split; [done|]. intros j e' Hj. lia.
  - destruct (findIndex pred d) as [k|] eqn:Hk; cbn; [|done].
    intros [= <-]. destruct (IH k eq_refl) as (e & He & Hp & Hfirst).
    exists e. repeat split; [done..|].
    intros [|j] e' Hj; cbn; [by intros [= <-]|].
    apply Hfirst. lia.
Qed.

Lemma findIndex_None pred d :
  findIndex pred d = None <-> forall e, e ∈ d -> pred e = false.
Proof.
  induction d as [|x d IH]; cbn.
  - split; [intros _ e He; by apply elem_of_nil in He | done].
  - destruct (pred x) eqn:Hx.
    + split; [done|]. intros H. specialize (H x (list_elem_of_here _ _)). congruence.
    + destruct (findIndex pred d) eqn:Hk; cbn.
      * split; [done|]. intros H.
        assert (Some n = None) as Habs; [|done].
        apply IH. intros e He. apply H. by apply list_elem_of_further.
      * split; [|done]. intros _ e He. apply elem_of_cons in He as [->|He]; [done|].
        by apply IH.
Qed.

Lemma findIndex_unique d i e :
  uniqueKeys d -> d !! i = Some e ->
  findIndex (matches (toLowerCase (tokenAddress e)) (chainId e) (chatId e)) d = Some i.
Proof.
  intros Hu Hi.
  destruct (findIndex _ d) as [j|] eqn:Hj.
  - destruct (findIndex_Some _ _ _ Hj) as (e' & He' & Hm & _).
    apply matches_key in Hm. f_equal.
    apply (NoDup_lookup (keyOf <$> d) j i (keyOf e)); [exact Hu|..].
    + rewrite list_lookup_fmap, He'. cbn. by rewrite Hm.
    + by rewrite list_lookup_fmap, Hi.
  - exfalso. pose proof (proj1 (findIndex_None _ _) Hj e) as H.
    assert (He : e ∈ d) by (apply list_elem_of_lookup; eauto).
    specialize (H He).
    assert (matches (toLowerCase (tokenAddress e)) (chainId e) (chatId e) e = true) as Ht
        by (by apply matches_key).
    congruence.
Qed.

Lemma repriced_length address chain chat p d :
  length (repriced address chain chat p d) = length d.
Proof. unfold repriced. destruct (findIndex _ _); [apply length_alter | done]. Qed.

Lemma repriced_absent address chain chat p d :
  (forall e, e ∈ d -> keyOf e <> (toLowerCase address, toLowerCase chain, chat)) ->
  repriced address chain chat p d = d.
Proof.
  intros H. unfold repriced.
  destruct (findIndex _ d) as [i|] eqn:Hi; [|done].
  destruct (findIndex_Some _ _ _ Hi) as (e & He & Hm & _).
  apply matches_key in Hm. exfalso. apply (H e); [|done].
  apply list_elem_of_lookup. eauto.
Qed.

(** Every position keeps its entry, apart from the reference price of the
    entry found; an entry with another key is untouched. *)
Lemma repriced_lookup address chain chat p d j e :
  d !! j = Some e ->
  exists e', repriced address chain chat p d !! j = Some e'
             /\ (e' = e \/ e' = setLastAlertPrice p e)
             /\ (keyOf e <> (toLowerCase address, toLowerCase chain, chat) -> e' = e).
Proof.
  intros Hj. unfold repriced.
  destruct (findIndex _ d) as [i|] eqn:Hi; [|by exists e; auto].
  destruct (findIndex_Some _ _ _ Hi) as (x & Hx & Hm & _).
  apply matches_key in Hm.
  destruct (decide (i = j)) as [->|Hne].
  - exists (setLastAlertPrice p e). rewrite list_lookup_alter_eq, Hj. cbn.
    repeat split; [auto|]. intros Hk. congruence.
  - exists e. rewrite list_lookup_alter_ne by done. auto.
Qed.

Lemma repriced_unique d i e p :
  uniqueKeys d -> d !! i = Some e ->
  repriced (tokenAddress e) (chainId e) (chatId e) p d
  = alter (setLastAlertPrice p) i d.
Proof.
  intros Hu Hi. unfold repriced. by rewrite (findIndex_unique d i e Hu Hi).
Qed.

Lemma keyOf_setLastAlertPrice p e : keyOf (setLastAlertPrice p e) = keyOf e.
Proof. reflexivity. Qed.

Lemma keys_repriced address chain chat p d :
  keyOf <$> repriced address chain chat p d = keyOf <$> d.
Proof.
  unfold repriced. destruct (findIndex _ d) as [i|]; [|done].
  apply list_eq. intros j. rewrite !list_lookup_fmap.
  destruct (decide (i = j)) as [->|Hne].
  - rewrite list_lookup_alter_eq. by destruct (d !! j).
  - by rewrite list_lookup_alter_ne.
Qed.

(** ** Lower case *)

Lemma lowerAscii_idemp c : lowerAscii (lowerAscii c) = lowerAscii c.
Proof. destruct c as [[] [] [] [] [] [] [] []]; reflexivity. Qed.

Lemma toLowerCase_idemp s : toLowerCase (toLowerCase s) = toLowerCase s.
Proof. induction s as [|c s IH]; cbn; [done|]. by rewrite lowerAscii_idemp, IH. Qed.

Lemma baseAddress_lower p k : baseAddress p = Some k -> toLowerCase k = k.
Proof.
  unfold baseAddress. destruct (pr_address p) as [a|]; [|done].
  case_bool_decide; [done|]. intros [= <-]. apply toLowerCase_idemp.
Qed.

(** ** The batched fetch *)

Lemma fetchBatch_run upstream chain batch results w :
  fetchBatch upstream chain batch results w
  = (Ok (absorb upstream chain results batch),
     withTrace (trace w ++ HttpGet chain batch :: batchErrors upstream chain batch) w).
Proof.
  unfold fetchBatch, tryCatch, httpGet, bind, emit, absorb, batchErrors.
  destruct (upstream chain batch) as [data|err]; cbn; [reflexivity|].
  unfold withTrace. cbn. by rewrite <- app_assoc.
Qed.

Lemma batchLoop_done upstream chain addrs fuel i results w :
  (length addrs <= i)%nat ->
  batchLoop upstream chain addrs fuel i results w = (Ok results, w).
Proof.
  intros H.
  assert (E : (i <? length addrs)%nat = false) by (apply Nat.ltb_ge; lia).
  destruct fuel; cbn [batchLoop]; by rewrite E.
Qed.

Lemma paced_cons chain batch rest :
  rest <> [] -> paced chain (batch :: rest) = HttpGet chain batch :: Sleep 250%N :: paced chain rest.
Proof. by destruct rest. Qed.

Lemma batchLoop_spec upstream chain addrs fuel :
  forall i results w,
    (length addrs <= i + fuel)%nat ->
    exists batches evs,
      batchLoop upstream chain addrs fuel i results w
      = (Ok (fold_left (absorb upstream chain) batches results),
         withTrace (trace w ++ evs) w)
      /\ List.filter isNetwork evs = paced chain batches
      /\ concat batches = drop i addrs
      /\ Forall (fun b => (0 < length b <= batchSize)%nat) batches.
Proof.
  induction fuel as [|fuel IH]; intros i results w Hfuel.
  - exists [], []. rewrite batchLoop_done by lia.
    rewrite app_nil_r, withTrace_same, drop_ge by lia. by repeat split.
  - destruct (decide (length addrs <= i)%nat) as [Hdone|Hmore].
    { exists [], []. rewrite batchLoop_done by lia.
      rewrite app_nil_r, withTrace_same, drop_ge by lia. by repeat split. }
    cbn [batchLoop].
    destruct (i <? length addrs)%nat eqn:E; [|apply Nat.ltb_ge in E; lia].
    set (batch := take batchSize (drop i addrs)).
    assert (Hbatch : (0 < length batch <= batchSize)%nat).
    { unfold batch. rewrite length_take, length_drop. unfold batchSize. lia. }
    unfold bind at 1. rewrite fetchBatch_run.
    set (w1 := withTrace _ w).
    destruct (i + batchSize <? length addrs)%nat eqn:Enext.
    + apply Nat.ltb_lt in Enext.
      unfold bind, emit.
      set (w2 := withTrace _ w1).
      destruct (IH (i + batchSize)%nat (absorb upstream chain results batch) w2)
        as (batches & evs & Hrun & Hnet & Hcat & Hall); [lia|].
      exists (batch :: batches),
             (HttpGet chain batch :: batchErrors upstream chain batch ++ Sleep 250%N :: evs).
      rewrite Hrun. split; [|split; [|split]].
      * f_equal. unfold w2, w1, withTrace. cbn. f_equal.
        rewrite <- !app_assoc. cbn. by rewrite <- ?app_assoc.
      * assert (batches <> []) as Hne.
        { intros ->. cbn in Hcat. symmetry in Hcat.
          apply (f_equal length) in Hcat. rewrite length_drop in Hcat. cbn in Hcat. lia. }
        rewrite (paced_cons _ _ _ Hne), <- Hnet.
        cbn [List.filter isNetwork]. rewrite List.filter_app.
        unfold batchErrors. by destruct (upstream chain batch).
      * cbn. rewrite Hcat. unfold batch. rewrite <- (drop_drop addrs batchSize i).
        apply take_drop.
      * by constructor.
    + apply Nat.ltb_ge in Enext.
      unfold bind, ret. rewrite batchLoop_done by lia.
      exists [batch], (HttpGet chain batch :: batchErrors upstream chain batch).
      split; [reflexivity|]. split; [|split].
      * cbn [List.filter isNetwork paced]. unfold batchErrors.
        by destruct (upstream chain batch).
      * cbn. rewrite app_nil_r. unfold batch. apply take_ge.
        rewrite length_drop. unfold batchSize in *. lia.
      * constructor; [exact Hbatch | constructor].
Qed.

(** *** Grouping the pairs of a response *)

Lemma pushTo_keys {A} (k : string) (x : A) m k' :
  k' ∈ (pushTo k x m).*1 <-> k' = k \/ k' ∈ m.*1.
Proof.
  induction m as [|[k0 xs] m IH]; cbn.
  - rewrite list_elem_of_singleton. split; [auto|]. intros [H|H]; [done|].
    by apply elem_of_nil in H.
  - case_bool_decide as Hk; cbn; rewrite !elem_of_cons.
    + subst. tauto.
    + rewrite IH. tauto.
Qed.

Lemma pushTo_elem {A} (k : string) (x : A) m k' xs' :
  (k', xs') ∈ pushTo k x m ->
  (k', xs') ∈ m
  \/ (k' = k /\ (xs' = [x] \/ exists xs, (k, xs) ∈ m /\ xs' = xs ++ [x])).
Proof.
  induction m as [|[k0 xs] m IH]; cbn.
  - rewrite list_elem_of_singleton. intros [= -> ->]. auto.
  - case_bool_decide as Hk; rewrite !elem_of_cons.
    + intros [[= -> ->]|H]; [|auto]. subst. right. split; [done|]. right.
      exists xs. split; [apply list_elem_of_here | done].
    + intros [H|H]; [auto|]. destruct (IH H) as [H'|(-> & [->|(ys & Hys & ->)])]; [auto|auto|].
      right. split; [done|]. right. exists ys. split; [by apply list_elem_of_further | done].
Qed.

Lemma wellGrouped_push src m k p :
  wellGrouped src m -> p ∈ src -> baseAddress p = Some k ->
  wellGrouped src (pushTo k p m).
Proof.
  intros Hm Hp Hk k' ps' Hin.
  destruct (pushTo_elem _ _ _ _ _ Hin) as [H|(-> & [->|(xs & Hxs & ->)])].
  - by apply Hm.
  - split; [done|]. intros q Hq. apply list_elem_of_singleton in Hq. by subst.
  - destruct (Hm _ _ Hxs) as [_ Hall]. split; [by destruct xs|].
    intros q Hq. apply elem_of_app in Hq as [Hq|Hq]; [by apply Hall|].
    apply list_elem_of_singleton in Hq. by subst.
Qed.

Lemma groupFold_sound src l :
  forall m, wellGrouped src m -> (forall p, p ∈ l -> p ∈ src) ->
            wellGrouped src
              (fold_left (fun m p => match baseAddress p with
                                     | Some addr => pushTo addr p m
                                     | None => m
                                     end) l m).
Proof.
  induction l as [|p l IH]; intros m Hm Hl; cbn; [done|].
  apply IH.
  - destruct (baseAddress p) as [k|] eqn:Hk; [|done].
    apply wellGrouped_push; [done| |done]. apply Hl, list_elem_of_here.
  - intros q Hq. by apply Hl, list_elem_of_further.
Qed.

Lemma groupFold_keys l :
  forall m k,
    k ∈ (fold_left (fun m p => match baseAddress p with
                               | Some addr => pushTo addr p m
                               | None => m
                               end) l m).*1
    <-> k ∈ m.*1 \/ exists p, p ∈ l /\ baseAddress p = Some k.
Proof.
  induction l as [|p l IH]; intros m k; cbn.
  - split; [auto|]. intros [H|(p & Hp & _)]; [done|]. by apply elem_of_nil in Hp.
  - rewrite IH. split.
    + intros [H|(q & Hq & Hk)].
      * destruct (baseAddress p) as [a|] eqn:Ha; [|auto].
        apply pushTo_keys in H as [->|H]; [|auto].
        right. exists p. split; [apply list_elem_of_here | done].
      * right. exists q. split; [by apply list_elem_of_further | done].
    + intros [H|(q & Hq & Hk)].
      * left. destruct (baseAddress p); [|done]. apply pushTo_keys. auto.
      * apply elem_of_cons in Hq as [->|Hq].
        -- left. rewrite Hk. apply pushTo_keys. auto.
        -- right. eauto.
Qed.

Lemma groupPairs_sound data : wellGrouped data (groupPairs data).
Proof.
  apply groupFold_sound; [|done]. intros k ps H. by apply elem_of_nil in H.
Qed.

Lemma groupPairs_keys data k :
  k ∈ (groupPairs data).*1 <-> exists p, p ∈ data /\ baseAddress p = Some k.
Proof.
  unfold groupPairs. rewrite groupFold_keys. cbn. split; [|auto].
  intros [H|H]; [by apply elem_of_nil in H | done].
Qed.

(** *** The best pair of a group *)

Lemma bestPair_elem pairs :
  forall first, bestPair first pairs = first \/ bestPair first pairs ∈ pairs.
Proof.
  unfold bestPair. induction pairs as [|p pairs IH]; intros first; cbn; [auto|].
  destruct (IH (pickBest first p)) as [H|H].
  - rewrite H. unfold pickBest. destruct (Qgtb _ _); [|auto].
    right. apply list_elem_of_here.
  - right. by apply list_elem_of_further.
Qed.

(** No pair of the group has more liquidity than the pair selected. *)
Lemma bestPair_max pairs :
  forall first p, p = first \/ p ∈ pairs ->
                  (liquidityOf p <= liquidityOf (bestPair first pairs))%Q.
Proof.
  unfold bestPair. induction pairs as [|q pairs IH]; intros first p Hp; cbn.
  - destruct Hp as [->|Hp]; [apply Qle_refl | by apply elem_of_nil in Hp].
  - assert (Hstep : (liquidityOf first <= liquidityOf (pickBest first q))%Q
                    /\ (liquidityOf q <= liquidityOf (pickBest first q))%Q).
    { unfold pickBest. destruct (Qgtb _ _) eqn:E.
      - apply Qgtb_true in E. split; [by apply Qlt_le_weak | apply Qle_refl].
      - unfold Qgtb in E. apply negb_false_iff, Qleb_true in E.
        split; [apply Qle_refl | done]. }
    destruct Hstep as [H1 H2].
    destruct Hp as [->|Hp].
    + eapply Qle_trans; [exact H1|]. apply IH. auto.
    + apply elem_of_cons in Hp as [->|Hp].
      * eapply Qle_trans; [exact H2|]. apply IH. auto.
      * apply IH. auto.
Qed.

(** *** What the results hold *)

Lemma storeFold_sound chain groups :
  forall results k d,
    fold_left (storeBest chain) groups results !! k = Some d ->
    results !! k = Some d
    \/ exists ps p, (k, ps) ∈ groups /\ p ∈ ps /\ d = toTokenData chain k p.
Proof.
  induction groups as [|[a ps] groups IH]; intros results k d; cbn; [auto|].
  intros H. destruct (IH _ _ _ H) as [H'|(ps' & p & Hin & Hp & ->)].
  - destruct ps as [|first rest]; [auto|].
    destruct (decide (a = k)) as [->|Hne].
    + rewrite lookup_insert_eq in H'. injection H' as <-.
      right. exists (first :: rest), (bestPair first (first :: rest)).
      split; [apply list_elem_of_here|]. split; [|done].
      destruct (bestPair_elem (first :: rest) first) as [->|Hb]; [apply list_elem_of_here | done].
    + rewrite lookup_insert_ne in H' by done. auto.
  - right. exists ps', p. split; [by apply list_elem_of_further | done].
Qed.

Lemma storeFold_keeps chain groups :
  forall results k,
    is_Some (results !! k) -> is_Some (fold_left (storeBest chain) groups results !! k).
Proof.
  induction groups as [|[a ps] groups IH]; intros results k H; cbn; [done|].
  apply IH. destruct ps as [|first rest]; [done|].
  destruct (decide (a = k)) as [->|Hne];
    [rewrite lookup_insert_eq; eauto | by rewrite lookup_insert_ne].
Qed.

Lemma storeFold_complete chain groups :
  forall results k ps,
    (k, ps) ∈ groups -> ps <> [] ->
    is_Some (fold_left (storeBest chain) groups results !! k).
Proof.
  induction groups as [|[a qs] groups IH]; intros results k ps Hin Hne; cbn.
  - by apply elem_of_nil in Hin.
  - apply elem_of_cons in Hin as [[= <- <-]|Hin]; [|by eapply IH].
    apply storeFold_keeps. destruct ps as [|first rest]; [done|].
    rewrite lookup_insert_eq. eauto.
Qed.

Lemma absorb_sound upstream chain results batch k d :
  absorb upstream chain results batch !! k = Some d ->
  results !! k = Some d
  \/ exists p, answered upstream chain [batch] k p /\ d = toTokenData chain k p.
Proof.
  unfold absorb. destruct (upstream chain batch) as [data|err] eqn:Hup; [|auto].
  intros H. destruct (storeFold_sound _ _ _ _ _ H) as [H'|(ps & p & Hin & Hp & ->)]; [auto|].
  right. exists p. split; [|done].
  destruct (groupPairs_sound data _ _ Hin) as [_ Hall].
  destruct (Hall p Hp) as [Hdata Hk].
  exists batch, data. split; [apply list_elem_of_here | done].
Qed.

Lemma absorb_keeps upstream chain results batch k :
  is_Some (results !! k) -> is_Some (absorb upstream chain results batch !! k).
Proof.
  unfold absorb. destruct (upstream chain batch); [apply storeFold_keeps | done].
Qed.

Lemma absorb_complete upstream chain results batch data p k :
  upstream chain batch = inl data -> p ∈ data -> baseAddress p = Some k ->
  is_Some (absorb upstream chain results batch !! k).
Proof.
  intros Hup Hp Hk. unfold absorb. rewrite Hup.
  assert (k ∈ (groupPairs data).*1) as Hkey by (apply groupPairs_keys; eauto).
  apply list_elem_of_fmap in Hkey as ([k' ps] & -> & Hin). cbn.
  eapply storeFold_complete; [exact Hin|].
  by destruct (groupPairs_sound data _ _ Hin).
Qed.

Lemma absorbAll_keeps upstream chain batches :
  forall results k,
    is_Some (results !! k) ->
    is_Some (fold_left (absorb upstream chain) batches results !! k).
Proof.
  induction batches as [|b batches IH]; intros results k H; cbn; [done|].
  by apply IH, absorb_keeps.
Qed.

Lemma absorbAll_sound upstream chain batches :
  forall results k d,
    fold_left (absorb upstream chain) batches results !! k = Some d ->
    results !! k = Some d
    \/ exists p, answered upstream chain batches k p /\ d = toTokenData chain k p.
Proof.
  induction batches as [|b batches IH]; intros results k d; cbn; [auto|].
  intros H. destruct (IH _ _ _ H) as [H'|(p & (b' & data & Hb & Hrest) & ->)].
  - destruct (absorb_sound _ _ _ _ _ _ H') as [H''|(p & (b' & data & Hb & Hrest) & ->)]; [auto|].
    right. exists p. split; [|done]. exists b, data.
    apply list_elem_of_singleton in Hb as ->. split; [apply list_elem_of_here | done].
  - right. exists p. split; [|done]. exists b', data.
    split; [by apply list_elem_of_further | done].
Qed.

Lemma absorbAll_complete upstream chain batches :
  forall results k p,
    answered upstream chain batches k p ->
    is_Some (fold_left (absorb upstream chain) batches results !! k).
Proof.
  induction batches as [|b batches IH]; intros results k p (b' & data & Hb & Hup & Hp & Hk); cbn.
  - by apply elem_of_nil in Hb.
  - apply elem_of_cons in Hb as [->|Hb].
    + apply absorbAll_keeps. by eapply absorb_complete.
    + eapply IH. exists b', data. eauto.
Qed.

Lemma elem_of_concat {A} (x : A) (l : list A) (ls : list (list A)) :
  x ∈ l -> l ∈ ls -> x ∈ concat ls.
Proof.
  intros Hx. induction ls as [|l' ls IH]; cbn; intros Hl.
  - by apply elem_of_nil in Hl.
  - apply elem_of_app. apply elem_of_cons in Hl as [->|Hl]; auto.
Qed.

Lemma getMultipleTokensData_run upstream chain addrs w :
  exists batches evs,
    getMultipleTokensData upstream chain addrs w
    = (Ok (fold_left (absorb upstream chain) batches ∅), withTrace (trace w ++ evs) w)
    /\ List.filter isNetwork evs = paced chain batches
    /\ concat batches = addrs
    /\ Forall (fun b => (0 < length b <= batchSize)%nat) batches.
Proof.
  unfold getMultipleTokensData.
  destruct (batchLoop_spec upstream chain addrs (length addrs) 0 ∅ w)
    as (batches & evs & Hrun & Hnet & Hcat & Hall); [lia|].
  exists batches, evs. by rewrite drop_0 in Hcat.
Qed.

(** C8, as the code has it.  For every chain and every list of addresses the
    batched fetch returns (it neither throws nor runs out of fuel); its
    network schedule is one request per batch with a pause of 250 ms between
    two successive requests; the batches are the successive slices of the
    input, each of 1 to 30 addresses.  The mapping returned is keyed by the
    lowercased base-token address of the pairs that upstream returned, not by
    the input: a key maps to the data built from a pair that upstream
    returned with that base address, every key is in lower case, every
    address for which a pair was returned is present, and an address for
    which no pair was returned is absent.  Only when upstream answers for
    the addresses it was asked and no other is every key a lowercased input
    address. *)
Theorem batched_fetch (upstream : Upstream) (chain : string) (addrs : list string)
        (w : World) :
  exists results batches evs,
    getMultipleTokensData upstream chain addrs w
    = (Ok results, withTrace (trace w ++ evs) w)
    /\ List.filter isNetwork evs = paced chain batches
    /\ concat batches = addrs
    /\ Forall (fun b => (0 < length b <= 30)%nat) batches
    /\ (forall k d, results !! k = Some d ->
                    exists p, answered upstream chain batches k p
                              /\ d = toTokenData chain k p)
    /\ (forall k, is_Some (results !! k) -> toLowerCase k = k)
    /\ (forall k p, answered upstream chain batches k p -> is_Some (results !! k))
    /\ (forall a, (forall p, ~ answered upstream chain batches (toLowerCase a) p) ->
                  results !! toLowerCase a = None)
    /\ ((forall batch data p k,
            upstream chain batch = inl data -> p ∈ data -> baseAddress p = Some k ->
            k ∈ toLowerCase <$> batch) ->
        forall k, is_Some (results !! k) -> k ∈ toLowerCase <$> addrs).
Proof.
  destruct (getMultipleTokensData_run upstream chain addrs w)
    as (batches & evs & Hrun & Hnet & Hcat & Hall).
  set (results := fold_left (absorb upstream chain) batches ∅) in *.
  assert (Hsound : forall k d, results !! k = Some d ->
                     exists p, answered upstream chain batches k p
                               /\ d = toTokenData chain k p).
  { intros k d H. destruct (absorbAll_sound _ _ _ _ _ _ H) as [H'|H']; [|done].
    by rewrite lookup_empty in H'. }
  exists results, batches, evs.
  split; [done|]. split; [done|]. split; [done|]. split; [done|]. split; [done|].
  split; [|split; [|split]].
  - intros k [d Hd]. destruct (Hsound _ _ Hd) as (p & (batch & data & _ & _ & _ & Hk) & _).
    by eapply baseAddress_lower.
  - intros k p H. by eapply absorbAll_complete.
  - intros a Hnone. destruct (results !! toLowerCase a) as [d|] eqn:E; [|done].
    destruct (Hsound _ _ E) as (p & Hp & _). by destruct (Hnone p).
  - intros Hfaithful k [d Hd].
    destruct (Hsound _ _ Hd) as (p & (batch & data & Hb & Hup & Hp & Hk) & _).
    specialize (Hfaithful batch data p k Hup Hp Hk).
    apply list_elem_of_fmap in Hfaithful as (a & -> & Ha).
    apply list_elem_of_fmap. exists a. split; [done|].
    rewrite <- Hcat. by apply (elem_of_concat a batch).
Qed.

Lemma echo_faithful chain batch data p k :
  Sample.echo chain batch = inl data -> p ∈ data -> baseAddress p = Some k ->
  k ∈ toLowerCase <$> batch.
Proof.
  unfold Sample.echo. intros [= <-] Hp Hk.
  apply list_elem_of_fmap in Hp as (a & -> & Ha).
  unfold baseAddress in Hk. cbn in Hk. case_bool_decide; [done|].
  injection Hk as <-. apply list_elem_of_fmap. eauto.
Qed.

Lemma batched_fetch_witness :
  exists results,
    outcome (getMultipleTokensData Sample.echo "solana" ["OwlMint"; "Other"])
            (Sample.boot [] None) = Ok results
    /\ forall k, is_Some (results !! k) -> k ∈ toLowerCase <$> ["OwlMint"; "Other"].
Proof.
  destruct (batched_fetch Sample.echo "solana" ["OwlMint"; "Other"] (Sample.boot [] None))
    as (results & batches & evs & Hrun & _ & _ & _ & _ & _ & _ & _ & Hkeys).
  exists results. split.
  - unfold outcome. by rewrite Hrun.
  - apply Hkeys. intros batch data p k. apply echo_faithful.
Defined.

(** C8, as stated, fails on the keys: the code keys the mapping by the base
    token of each pair of the response.  When upstream answers the request
    for [OwlMint] with a pair of another token, the mapping returned has the
    key of that token, which is no input address, and nothing for the
    address asked. *)
Lemma foreign_pair_becomes_key :
  exists results,
    outcome (getMultipleTokensData Sample.stranger "solana" ["OwlMint"])
            (Sample.boot [] None) = Ok results
    /\ is_Some (results !! "stranger")
    /\ ("stranger" ∉ (toLowerCase <$> ["OwlMint"]))
    /\ results !! "owlmint" = None.
Proof.
  eexists. split; [by vm_compute|].
  split; [vm_compute; by eexists|]. split; [|by vm_compute].
  cbn. rewrite list_elem_of_singleton. discriminate.
Qed.

(** Sixty-five addresses go out as 30, 30 and 5, with two pauses; the one
    token upstream knows is found under its lowercased address. *)
Example batched_fetch_sixty_five :
  let addrs := replicate 40 "Other" ++ ["OwlMint"] ++ replicate 24 "Other" in
  let r := getMultipleTokensData (Sample.market 0.94) "solana" addrs (Sample.boot [] None) in
  (fun ev => match ev with
             | HttpGet _ batch => length batch
             | Sleep ms => N.to_nat ms
             | _ => 0%nat
             end) <$> trace (snd r)
  = [30; 250; 30; 250; 5]%nat
  /\ (priceUsd <$> (match fst r with Ok results => results !! "owlmint" | _ => None end))
     = Some 0.94%Q.
Proof. by vm_compute. Qed.

(** ** The sweep *)

(** The four ways out of the body of the inner loop. *)
Lemma checkEntry_cases tokenDataMap entry w :
  checkEntry tokenDataMap entry w
  = (Ok tt, withTrace (trace w ++ [Console (LogNoData (symbol entry) (chainId entry))]) w)
  \/ checkEntry tokenDataMap entry w = (Ok tt, w)
  \/ exists tokenData,
      tokenDataMap !! toLowerCase (tokenAddress entry) = Some tokenData
      /\ (0 < lastAlertPrice entry)%Q /\ (0 < priceUsd tokenData)%Q
      /\ Binary64.geb
           (Binary64.abs (percentChangeOf (priceUsd tokenData) (lastAlertPrice entry)))
           (Binary64.round (dropThreshold entry)) = true
      /\ checkEntry tokenDataMap entry w = (Ok tt, alertedWorld entry tokenData w).
Proof.
  destruct (tokenDataMap !! toLowerCase (tokenAddress entry)) as [tokenData|] eqn:Hdata.
  - right.
    destruct (Binary64.leb (Binary64.round (lastAlertPrice entry)) (Binary64.Fin 0)
              || Binary64.leb (Binary64.round (priceUsd tokenData)) (Binary64.Fin 0))
      eqn:Hguard; [left; by eapply checkEntry_guarded|].
    destruct (Binary64.geb
                (Binary64.abs (percentChangeOf (priceUsd tokenData) (lastAlertPrice entry)))
                (Binary64.round (dropThreshold entry))) eqn:Hfire.
    + right. exists tokenData. pose proof Hguard as Hpos.
      apply orb_false_iff in Hpos as [Href Hcur].
      apply guard_pos in Href. apply guard_pos in Hcur.
      repeat split; try done. by eapply checkEntry_fire.
    + left. by eapply checkEntry_quiet.
  - left. by apply checkEntry_nodata.
Qed.

(** An alert is counted only when the evaluation took the firing branch. *)
Lemma checkEntry_counted tokenDataMap entry tokenData w :
  tokenDataMap !! toLowerCase (tokenAddress entry) = Some tokenData ->
  alertCount (run (checkEntry tokenDataMap entry) w) = S (alertCount w) ->
  checkEntry tokenDataMap entry w = (Ok tt, alertedWorld entry tokenData w).
Proof.
  intros Hdata Hcount. unfold run in Hcount.
  destruct (checkEntry_cases tokenDataMap entry w) as [H|[H|(d & Hd & _ & _ & _ & H)]].
  - rewrite H in Hcount. cbn [snd] in Hcount. unfold alertCount in Hcount.
    rewrite detections_app, length_app in Hcount. cbn in Hcount. lia.
  - rewrite H in Hcount. cbn [snd] in Hcount. lia.
  - congruence.
Qed.

(** The evaluation of one entry does not throw, and it changes the watchlist
    only by storing a positive reference price. *)
Lemma checkEntry_inv (P : list Entry -> Prop) :
  (forall a c s p d, (0 < p)%Q -> P d -> P (repriced a c s p d)) ->
  forall tokenDataMap entry w,
    P (disk w) ->
    exists w', checkEntry tokenDataMap entry w = (Ok tt, w') /\ P (disk w').
Proof.
  intros Hstep tokenDataMap entry w Hw.
  destruct (checkEntry_cases tokenDataMap entry w)
    as [H|[H|(tokenData & _ & _ & Hcur & _ & H)]]; rewrite H; eexists; split; try done.
  cbn. by apply Hstep.
Qed.

Lemma forOf_inv {A} (I : World -> Prop) (xs : list A) (body : A -> M unit) :
  (forall x w, I w -> exists w', body x w = (Ok tt, w') /\ I w') ->
  forall w, I w -> exists w', forOf xs body w = (Ok tt, w') /\ I w'.
Proof.
  intros Hbody. induction xs as [|x xs IH]; intros w Hw; cbn.
  - by exists w.
  - unfold bind. destruct (Hbody x w Hw) as (w1 & -> & Hw1). by apply IH.
Qed.

Lemma checkChain_inv (P : list Entry -> Prop) :
  (forall a c s p d, (0 < p)%Q -> P d -> P (repriced a c s p d)) ->
  forall upstream group w,
    P (disk w) ->
    exists w', checkChain upstream group w = (Ok tt, w') /\ P (disk w').
Proof.
  intros Hstep upstream [chain entries] w Hw. unfold checkChain, bind.
  destruct (getMultipleTokensData_run upstream chain (tokenAddress <$> entries) w)
    as (batches & evs & -> & _).
  apply (forOf_inv (fun w => P (disk w))); [|done].
  intros entry w0. by apply checkEntry_inv.
Qed.

(** A sweep returns normally, whatever upstream and the bot do, and keeps
    every property of the watchlist that storing a positive reference price
    keeps. *)
Lemma checkPrices_inv (P : list Entry -> Prop) :
  (forall a c s p d, (0 < p)%Q -> P d -> P (repriced a c s p d)) ->
  forall upstream w,
    P (disk w) ->
    exists w', checkPrices upstream w = (Ok tt, w') /\ P (disk w').
Proof.
  intros Hstep upstream w Hw.
  unfold checkPrices, bind, getAllWatchlist, loadWatchlist.
  destruct (length (disk w) =? 0)%nat; [by exists w|].
  unfold consoleLog, emit.
  apply (forOf_inv (fun w => P (disk w))); [|done].
  intros group w0. by apply checkChain_inv.
Qed.

Lemma checkPrices_ok upstream w : outcome (checkPrices upstream) w = Ok tt.
Proof.
  destruct (checkPrices_inv (fun _ => True) (fun _ _ _ _ _ _ _ => I) upstream w I)
    as (w' & H & _).
  unfold outcome. by rewrite H.
Qed.

Lemma uniqueKeys_repriced a c s p d : uniqueKeys d -> uniqueKeys (repriced a c s p d).
Proof. unfold uniqueKeys. by rewrite keys_repriced. Qed.

Lemma positivePrices_repriced a c s p d :
  (0 < p)%Q -> positivePrices d -> positivePrices (repriced a c s p d).
Proof.
  intros Hp Hd. unfold repriced. destruct (findIndex _ d) as [i|]; [|done].
  unfold positivePrices in *. rewrite Forall_lookup in *.
  intros j e. destruct (decide (i = j)) as [->|Hne].
  - rewrite list_lookup_alter_eq. destruct (d !! j) as [x|] eqn:Hx; [|done].
    cbn. intros [= <-]. cbn. split; [done|]. by destruct (Hd _ _ Hx).
  - rewrite list_lookup_alter_ne by done. apply Hd.
Qed.

Lemma checkEntry_disk tokenDataMap entry w :
  disk (run (checkEntry tokenDataMap entry) w) = disk w
  \/ exists tokenData,
      tokenDataMap !! toLowerCase (tokenAddress entry) = Some tokenData
      /\ (0 < priceUsd tokenData)%Q
      /\ disk (run (checkEntry tokenDataMap entry) w)
         = repriced (tokenAddress entry) (chainId entry) (chatId entry)
                    (priceUsd tokenData) (disk w).
Proof.
  unfold run.
  destruct (checkEntry_cases tokenDataMap entry w)
    as [H|[H|(tokenData & Hdata & _ & Hcur & _ & H)]]; rewrite H; [by left..|].
  right. by exists tokenData.
Qed.

(** C2.  When an alert fires for a stored entry, the stored reference price
    becomes the price that triggered it, the other fields of the entry and
    the other entries stay as they were, whatever becomes of the
    notification; the next evaluation reads that stored price.  From
    reference 1.00 with threshold 5, the prices 0.94, 0.89, 0.92, 0.84 fire
    exactly three alerts and leave the references 0.94, 0.89, 0.89, 0.84,
    with a bot that delivers, a bot that rejects every message, or no bot at
    all. *)
Theorem reference_follows_alert (tokenDataMap : gmap string TokenData) (entry : Entry)
        (tokenData : TokenData) (w : World) (i : nat) :
  tokenDataMap !! toLowerCase (tokenAddress entry) = Some tokenData ->
  alertCount (run (checkEntry tokenDataMap entry) w) = S (alertCount w) ->
  disk w !! i = Some entry ->
  uniqueKeys (disk w) ->
  disk (run (checkEntry tokenDataMap entry) w) !! i
  = Some (setLastAlertPrice (priceUsd tokenData) entry)
  /\ lastAlertPrice (setLastAlertPrice (priceUsd tokenData) entry) = priceUsd tokenData
  /\ otherFields (setLastAlertPrice (priceUsd tokenData) entry) = otherFields entry
  /\ (forall j, j <> i -> disk (run (checkEntry tokenDataMap entry) w) !! j = disk w !! j)
  /\ (forall bot, bot ∈ [Some Sample.okBot; Some Sample.downBot; None] ->
        let after prices := Sample.afterSweeps prices (Sample.boot [Sample.owl] bot) in
        (lastAlertPrice <$> disk (after [0.94%Q]), alertCount (after [0.94%Q]))
        = ([0.94%Q], 1%nat)
        /\ (lastAlertPrice <$> disk (after [0.94%Q; 0.89%Q]),
            alertCount (after [0.94%Q; 0.89%Q]))
           = ([0.89%Q], 2%nat)
        /\ (lastAlertPrice <$> disk (after [0.94%Q; 0.89%Q; 0.92%Q]),
            alertCount (after [0.94%Q; 0.89%Q; 0.92%Q]))
           = ([0.89%Q], 2%nat)
        /\ (lastAlertPrice <$> disk (after [0.94%Q; 0.89%Q; 0.92%Q; 0.84%Q]),
            alertCount (after [0.94%Q; 0.89%Q; 0.92%Q; 0.84%Q]))
           = ([0.84%Q], 3%nat)).
Proof.
  intros Hdata Hfired Hi Hu.
  unfold run. rewrite (checkEntry_counted _ _ _ _ Hdata Hfired).
  cbn [snd]. unfold alertedWorld. cbn [disk withDisk].
  rewrite (repriced_unique _ _ _ _ Hu Hi).
  split; [by rewrite list_lookup_alter_eq, Hi|]. split; [reflexivity|].
  split; [reflexivity|].
  split; [intros j Hj; by rewrite list_lookup_alter_ne|].
  intros bot Hbot. rewrite !elem_of_cons in Hbot.
  destruct Hbot as [->|[->|[->|Hbot]]]; [by vm_compute..|by apply elem_of_nil in Hbot].
Qed.

Lemma reference_follows_alert_witness :
  disk (run (checkEntry (Sample.owlData 0.94) Sample.owl)
            (Sample.boot [Sample.owl] (Some Sample.downBot))) !! 0%nat
  = Some (setLastAlertPrice 0.94 Sample.owl).
Proof.
  assert (Hdata : Sample.owlData 0.94 !! toLowerCase (tokenAddress Sample.owl)
                  = Some (toTokenData "solana" "owlmint"
                            (Sample.quote "OwlMint" (Some 0.94%Q))))
    by (vm_compute; reflexivity).
  assert (Hfired : alertCount (run (checkEntry (Sample.owlData 0.94) Sample.owl)
                                   (Sample.boot [Sample.owl] (Some Sample.downBot)))
                   = S (alertCount (Sample.boot [Sample.owl] (Some Sample.downBot))))
    by (vm_compute; reflexivity).
  assert (Hi : disk (Sample.boot [Sample.owl] (Some Sample.downBot)) !! 0%nat
               = Some Sample.owl) by reflexivity.
  assert (Hu : uniqueKeys (disk (Sample.boot [Sample.owl] (Some Sample.downBot))))
    by (apply (bool_decide_unpack _); vm_compute; reflexivity).
  exact (proj1 (reference_follows_alert _ _ _ _ _ Hdata Hfired Hi Hu)).
Defined.

(** C3.  An entry whose stored reference price is not positive, or for which
    the fetched price is not positive (zero or negative), is skipped: the
    evaluation ends normally and leaves the whole world as it was, so no
    notification is sent, nothing is logged and no entry is written.  The
    guard comes before the quotient: an alert, whose percent change divides
    by the reference price, is only ever fired with a positive reference
    and a positive fetched price.  Sweeps over a reference of 0, a fetched
    price of 0 and a negative fetched price fire nothing. *)
Theorem nonpositive_price_skipped (tokenDataMap : gmap string TokenData) (entry : Entry)
        (tokenData : TokenData) (w : World) :
  tokenDataMap !! toLowerCase (tokenAddress entry) = Some tokenData ->
  (lastAlertPrice entry <= 0)%Q \/ (priceUsd tokenData <= 0)%Q ->
  checkEntry tokenDataMap entry w = (Ok tt, w)
  /\ (forall m e w0,
        alertCount (run (checkEntry m e) w0) <> alertCount w0 ->
        (0 < lastAlertPrice e)%Q
        /\ exists d, m !! toLowerCase (tokenAddress e) = Some d /\ (0 < priceUsd d)%Q)
  /\ (forall m e w0,
        (lastAlertPrice e <= 0)%Q ->
        outcome (checkEntry m e) w0 = Ok tt
        /\ disk (run (checkEntry m e) w0) = disk w0
        /\ delivered (run (checkEntry m e) w0) = delivered w0
        /\ alertCount (run (checkEntry m e) w0) = alertCount w0)
  /\ (let s := Sample.afterSweeps [0.50%Q]
                 (Sample.boot [Sample.owlFor "42" 5 0] (Some Sample.okBot)) in
      disk s = [Sample.owlFor "42" 5 0] /\ alertCount s = 0%nat /\ delivered s = [])
  /\ (let s := Sample.afterSweeps [0%Q; (-1)%Q]
                 (Sample.boot [Sample.owl] (Some Sample.okBot)) in
      disk s = [Sample.owl] /\ alertCount s = 0%nat /\ delivered s = []).
Proof.
  intros Hdata Hguard.
  split; [by eapply checkEntry_skip|].
  split; [|split; [|by vm_compute]].
  - intros m e w0 Hcount. unfold run in Hcount.
    destruct (checkEntry_cases m e w0) as [H|[H|(d & Hd & Href & Hcur & _ & H)]];
      rewrite H in Hcount; cbn [snd] in Hcount.
    + exfalso. apply Hcount. unfold alertCount. rewrite detections_app.
      rewrite length_app. cbn. lia.
    + done.
    + split; [done|]. by exists d.
  - intros m e w0 Href. unfold outcome, run.
    destruct (checkEntry_cases m e w0) as [H|[H|(d & _ & Hpos & _)]].
    + rewrite H. cbn [fst snd]. repeat split.
      * unfold delivered. cbn. rewrite omap_app. cbn. by rewrite app_nil_r.
      * unfold alertCount. rewrite detections_app, length_app. cbn. lia.
    + rewrite H. repeat split.
    + exfalso. exact (Qlt_not_le _ _ Hpos Href).
Qed.

Lemma nonpositive_price_skipped_witness :
  checkEntry (Sample.owlData 0.50) (Sample.owlFor "42" 5 0)
             (Sample.boot [Sample.owlFor "42" 5 0] (Some Sample.okBot))
  = (Ok tt, Sample.boot [Sample.owlFor "42" 5 0] (Some Sample.okBot)).
Proof.
  assert (Hdata : Sample.owlData 0.50 !! toLowerCase (tokenAddress (Sample.owlFor "42" 5 0))
                  = Some (toTokenData "solana" "owlmint"
                            (Sample.quote "OwlMint" (Some 0.50%Q))))
    by (vm_compute; reflexivity).
  assert (Href : (lastAlertPrice (Sample.owlFor "42" 5 0) <= 0)%Q)
    by (vm_compute; discriminate).
  exact (proj1 (nonpositive_price_skipped _ _ _
                  (Sample.boot [Sample.owlFor "42" 5 0] (Some Sample.okBot))
                  Hdata (or_introl Href))).
Defined.

(** C4.  When the dispatch of a fired alert fails, the failure is caught and
    logged inside the evaluator: the evaluation of the entry ends normally,
    the trace holds the detection and the error line, no message is
    delivered, and the entry is stored with the current price as its
    reference price all the same, its other fields and the other entries as
    they were.  [sendPriceAlert] never throws, and neither does a whole
    sweep, whatever upstream and the bot do. *)
Theorem failed_notification_contained (tokenDataMap : gmap string TokenData)
        (entry : Entry) (tokenData : TokenData) (w : World) (i : nat)
        (bot : Bot) (err : string) :
  monitorBot w = Some bot ->
  bot (chatId entry)
      (alertMessage entry tokenData
         (percentChangeOf (priceUsd tokenData) (lastAlertPrice entry))) = Some err ->
  tokenDataMap !! toLowerCase (tokenAddress entry) = Some tokenData ->
  alertCount (run (checkEntry tokenDataMap entry) w) = S (alertCount w) ->
  disk w !! i = Some entry ->
  uniqueKeys (disk w) ->
  outcome (checkEntry tokenDataMap entry) w = Ok tt
  /\ trace (run (checkEntry tokenDataMap entry) w)
     = trace w
       ++ [Console (LogDetected
                      (Binary64.gtb
                         (percentChangeOf (priceUsd tokenData) (lastAlertPrice entry))
                         (Binary64.Fin 0))
                      (symbol entry)
                      (Binary64.toFixed 2 (percentChangeOf (priceUsd tokenData)
                                                           (lastAlertPrice entry))));
           Console (LogSendError (chatId entry) err)]
  /\ delivered (run (checkEntry tokenDataMap entry) w) = delivered w
  /\ (exists stored,
        disk (run (checkEntry tokenDataMap entry) w) !! i = Some stored
        /\ lastAlertPrice stored = priceUsd tokenData
        /\ otherFields stored = otherFields entry)
  /\ (forall j, j <> i -> disk (run (checkEntry tokenDataMap entry) w) !! j = disk w !! j)
  /\ (forall e d pc w0, outcome (sendPriceAlert e d pc) w0 = Ok tt)
  /\ (forall upstream w0, outcome (checkPrices upstream) w0 = Ok tt).
Proof.
  intros Hbot Hfail Hdata Hfired Hi Hu.
  unfold outcome, run. rewrite (checkEntry_counted _ _ _ _ Hdata Hfired).
  cbn [fst snd]. split; [done|].
  assert (Hnotice : alertNotice (monitorBot w) entry tokenData
                      (percentChangeOf (priceUsd tokenData) (lastAlertPrice entry))
                    = Console (LogSendError (chatId entry) err)).
  { unfold alertNotice. by rewrite Hbot, Hfail. }
  unfold alertedWorld. rewrite Hnotice. cbn [trace disk withDisk withTrace].
  split; [done|]. split.
  { unfold delivered. cbn. rewrite omap_app. cbn. by rewrite app_nil_r. }
  rewrite (repriced_unique _ _ _ _ Hu Hi).
  split.
  { exists (setLastAlertPrice (priceUsd tokenData) entry).
    split; [by rewrite list_lookup_alter_eq, Hi|]. split; reflexivity. }
  split; [intros j Hj; by rewrite list_lookup_alter_ne|].
  split.
  - intros e d pc w0. unfold outcome. by rewrite sendPriceAlert_run.
  - apply checkPrices_ok.
Qed.

Lemma failed_notification_contained_witness :
  outcome (checkEntry (Sample.owlData 0.94) Sample.owl)
          (Sample.boot [Sample.owl] (Some Sample.downBot)) = Ok tt
  /\ exists stored,
       disk (run (checkEntry (Sample.owlData 0.94) Sample.owl)
                 (Sample.boot [Sample.owl] (Some Sample.downBot))) !! 0%nat
       = Some stored
       /\ lastAlertPrice stored = 0.94%Q.
Proof.
  set (w := Sample.boot [Sample.owl] (Some Sample.downBot)).
  set (d := toTokenData "solana" "owlmint" (Sample.quote "OwlMint" (Some 0.94%Q))).
  assert (Hbot : monitorBot w = Some Sample.downBot) by reflexivity.
  assert (Hfail : Sample.downBot (chatId Sample.owl)
                    (alertMessage Sample.owl d
                       (percentChangeOf (priceUsd d) (lastAlertPrice Sample.owl)))
                  = Some "ETELEGRAM: 403 Forbidden") by reflexivity.
  assert (Hdata : Sample.owlData 0.94 !! toLowerCase (tokenAddress Sample.owl) = Some d)
    by (vm_compute; reflexivity).
  assert (Hfired : alertCount (run (checkEntry (Sample.owlData 0.94) Sample.owl) w)
                   = S (alertCount w)) by (vm_compute; reflexivity).
  assert (Hi : disk w !! 0%nat = Some Sample.owl) by reflexivity.
  assert (Hu : uniqueKeys (disk w)) by (apply (bool_decide_unpack _); vm_compute; reflexivity).
  destruct (failed_notification_contained _ _ _ _ _ _ _
              Hbot Hfail Hdata Hfired Hi Hu) as (H1 & _ & _ & (stored & H2 & H3 & _) & _).
  split; [exact H1|]. exists stored. split; [exact H2 | exact H3].
Defined.

(** ** Isolation between subscribers *)

Lemma checkEntry_frame tokenDataMap entry w j e :
  disk w !! j = Some e ->
  keyOf e <> keyOf entry ->
  disk (run (checkEntry tokenDataMap entry) w) !! j = Some e.
Proof.
  intros Hj Hkey.
  destruct (checkEntry_disk tokenDataMap entry w) as [->|(d & _ & _ & ->)]; [done|].
  destruct (repriced_lookup (tokenAddress entry) (chainId entry) (chatId entry)
                            (priceUsd d) (disk w) j e Hj) as (e' & He' & _ & Hsame).
  rewrite He'. f_equal. by apply Hsame.
Qed.

(** C10.  A reference-price update changes the watchlist only: it keeps the
    length and the position of every entry, leaves every entry with another
    key exactly as it was (in particular every entry of another subscriber,
    also for the same token on the same chain), changes at most the
    reference price of the entry it finds, and leaves the world unchanged
    when no entry has the key.  An evaluation, fired or not, leaves every
    entry with another key untouched.  With two subscribers on the same
    token, a sweep that fires for one of them leaves the other's entry as it
    was. *)
Theorem subscriber_isolation (address chain chat : string) (newPrice : Q) (w : World) :
  let w' := run (updateLastAlertPrice address chain chat newPrice) w in
  w' = withDisk (disk w') w
  /\ length (disk w') = length (disk w)
  /\ (forall j e,
        disk w !! j = Some e ->
        exists e', disk w' !! j = Some e'
                   /\ (e' = e \/ e' = setLastAlertPrice newPrice e)
                   /\ (keyOf e <> (toLowerCase address, toLowerCase chain, chat) -> e' = e)
                   /\ (chatId e <> chat -> e' = e))
  /\ ((forall e, e ∈ disk w ->
                 keyOf e <> (toLowerCase address, toLowerCase chain, chat)) ->
      w' = w)
  /\ (forall tokenDataMap entry w0 j e,
        disk w0 !! j = Some e ->
        keyOf e <> keyOf entry \/ chatId e <> chatId entry ->
        disk (run (checkEntry tokenDataMap entry) w0) !! j = Some e)
  /\ (disk (Sample.afterSweeps [0.94%Q]
              (Sample.boot [Sample.owlFor "42" 5 1.00; Sample.owlFor "77" 5 0.97]
                           (Some Sample.okBot)))
      = [Sample.owlFor "42" 5 0.94; Sample.owlFor "77" 5 0.97]).
Proof.
  intros w'. unfold w', run. rewrite updateLastAlertPrice_run. cbn [snd disk withDisk].
  split; [reflexivity|]. split; [apply repriced_length|]. split; [|split; [|split]].
  - intros j e Hj.
    destruct (repriced_lookup address chain chat newPrice (disk w) j e Hj)
      as (e' & He' & Hor & Hsame).
    exists e'. split; [done|]. split; [done|]. split; [done|].
    intros Hchat. apply Hsame. unfold keyOf. congruence.
  - intros Habsent. rewrite repriced_absent by done. apply withDisk_same.
  - intros tokenDataMap entry w0 j e Hj Hdiff. apply checkEntry_frame; [done|].
    destruct Hdiff as [H|H]; [done|]. unfold keyOf. congruence.
  - by vm_compute.
Qed.

(** ** Uniqueness of the keys *)

Lemma keyOf_entryOf p now : keyOf (entryOf p now) = keyOfRequest p.
Proof. unfold keyOf, entryOf, keyOfRequest. cbn. by rewrite !toLowerCase_idemp. Qed.

Lemma existsb_matches p d :
  existsb (matches (toLowerCase (a_tokenAddress p)) (a_chainId p) (a_chatId p)) d = true
  <-> exists e, e ∈ d /\ keyOf e = keyOfRequest p.
Proof.
  rewrite existsb_exists. unfold keyOfRequest. split.
  - intros (e & He & Hm). exists e. split; [by apply list_elem_of_In|by apply matches_key].
  - intros (e & He & Hk). exists e. split; [by apply list_elem_of_In|by apply matches_key].
Qed.

Lemma addToWatchlist_duplicate p w :
  (exists e, e ∈ disk w /\ keyOf e = keyOfRequest p) ->
  addToWatchlist p w = (Ok None, w).
Proof.
  intros H. apply existsb_matches in H.
  unfold addToWatchlist, bind, loadWatchlist. by rewrite H.
Qed.

Lemma addToWatchlist_fresh p w :
  (forall e, e ∈ disk w -> keyOf e <> keyOfRequest p) ->
  addToWatchlist p w
  = (Ok (Some (entryOf p (clock w))), withDisk (disk w ++ [entryOf p (clock w)]) w).
Proof.
  intros H. unfold addToWatchlist, bind, loadWatchlist.
  destruct (existsb _ (disk w)) eqn:E; [|reflexivity].
  apply existsb_matches in E as (e & He & Hk). by destruct (H e He).
Qed.

(** An add either finds the key and changes nothing, or appends the entry
    it builds. *)
Lemma addToWatchlist_cases p w :
  ((exists e, e ∈ disk w /\ keyOf e = keyOfRequest p)
   /\ addToWatchlist p w = (Ok None, w))
  \/ ((forall e, e ∈ disk w -> keyOf e <> keyOfRequest p)
      /\ addToWatchlist p w
         = (Ok (Some (entryOf p (clock w))),
            withDisk (disk w ++ [entryOf p (clock w)]) w)).
Proof.
  destruct (existsb (matches (toLowerCase (a_tokenAddress p)) (a_chainId p) (a_chatId p))
                    (disk w)) eqn:E.
  - left. apply existsb_matches in E. split; [done|]. by apply addToWatchlist_duplicate.
  - right.
    assert (H : forall e, e ∈ disk w -> keyOf e <> keyOfRequest p).
    { intros e He Hk.
      assert (existsb (matches (toLowerCase (a_tokenAddress p)) (a_chainId p) (a_chatId p))
                      (disk w) = true) as Ht by (apply existsb_matches; eauto).
      congruence. }
    split; [done|]. by apply addToWatchlist_fresh.
Qed.

Lemma uniqueKeys_snoc d e :
  uniqueKeys d -> (forall x, x ∈ d -> keyOf x <> keyOf e) -> uniqueKeys (d ++ [e]).
Proof.
  unfold uniqueKeys. intros Hd Hfresh. rewrite fmap_app. cbn.
  apply NoDup_app. split; [done|]. split; [|apply NoDup_singleton].
  intros k Hk Hk'. apply list_elem_of_singleton in Hk' as ->.
  apply list_elem_of_fmap in Hk as (x & Hx & Hin). by destruct (Hfresh x Hin).
Qed.

Lemma uniqueKeys_filter f d : uniqueKeys d -> uniqueKeys (List.filter f d).
Proof.
  unfold uniqueKeys. induction d as [|x d IH]; cbn; [done|].
  rewrite NoDup_cons. intros [Hx Hd].
  destruct (f x); cbn; [|by apply IH].
  apply NoDup_cons. split; [|by apply IH].
  intros Hin. apply Hx.
  apply list_elem_of_fmap in Hin as (y & -> & Hy).
  apply list_elem_of_fmap. exists y. split; [done|].
  apply list_elem_of_In in Hy. apply filter_In in Hy as [Hy _]. by apply list_elem_of_In.
Qed.

Lemma fmap_alter_same {B} (f : Entry -> B) (g : Entry -> Entry) (i : nat) (d : list Entry) :
  (forall e, f (g e) = f e) -> f <$> alter g i d = f <$> d.
Proof.
  intros Hg. apply list_eq. intros j. rewrite !list_lookup_fmap.
  destruct (decide (i = j)) as [->|Hne].
  - rewrite list_lookup_alter_eq. destruct (d !! j); cbn; [by rewrite Hg | done].
  - by rewrite list_lookup_alter_ne.
Qed.

Lemma removeFromWatchlist_disk a c s w :
  disk (run (removeFromWatchlist a c s) w) = disk w
  \/ disk (run (removeFromWatchlist a c s) w)
     = List.filter (fun entry => negb (matches (toLowerCase a) c s entry)) (disk w).
Proof.
  unfold run, removeFromWatchlist, bind, loadWatchlist.
  destruct (_ <? _)%nat; [right | left]; reflexivity.
Qed.

Lemma updateThreshold_disk a c s x w :
  disk (run (updateThreshold a c s x) w) = disk w
  \/ exists i, disk (run (updateThreshold a c s x) w) = alter (setDropThreshold x) i (disk w).
Proof.
  unfold run, updateThreshold, bind, loadWatchlist.
  destruct (findIndex _ _) as [i|]; [right; by exists i | by left].
Qed.

(** *** The add command *)

Lemma getTokenData_run upstream chain address w :
  exists evs,
    getTokenData upstream chain address w
    = (Ok (quoted upstream chain address), withTrace (trace w ++ evs) w).
Proof.
  unfold getTokenData, quoted, tryCatch, httpGet, bind, emit, throw, ret, consoleError.
  destruct (upstream chain [address]) as [[|first rest]|err]; cbn.
  - by eexists.
  - by eexists.
  - eexists. unfold withTrace. cbn. by rewrite <- app_assoc.
Qed.

Lemma send_cases chat msg w :
  (exists evs, Processors.send chat msg w = (Ok tt, withTrace (trace w ++ evs) w))
  \/ (exists err, Processors.send chat msg w = (Throw err, w)).
Proof.
  unfold Processors.send, sendMessage, emit, throw.
  destruct (processorsBot w) as [bot|]; [|right; by eexists].
  destruct (bot chat msg); [right | left]; by eexists.
Qed.

(** [processAdd] leaves the watchlist as it was or appends the entry built
    from the token data it fetched. *)
Lemma processAdd_disk upstream chat chain address threshold w :
  disk (run (Processors.processAdd upstream chat chain address threshold) w) = disk w
  \/ exists tokenData,
      quoted upstream chain address = Some tokenData
      /\ (forall e, e ∈ disk w ->
                    keyOf e <> keyOfRequest (requestOf chat chain address threshold tokenData))
      /\ disk (run (Processors.processAdd upstream chat chain address threshold) w)
         = disk w ++ [entryOf (requestOf chat chain address threshold tokenData) (clock w)].
Proof.
  unfold run, Processors.processAdd, bind.
  destruct (send_cases chat MsgFetching w) as [[evs ->]|[err ->]]; [|by left].
  set (w1 := withTrace _ w).
  destruct (getTokenData_run upstream chain address w1) as [evs' ->].
  set (w2 := withTrace _ w1).
  destruct (quoted upstream chain address) as [tokenData|] eqn:Hq.
  - fold (requestOf chat chain address threshold tokenData).
    destruct (addToWatchlist_cases (requestOf chat chain address threshold tokenData) w2)
      as [[_ ->]|[Hfresh ->]].
    + left. destruct (send_cases chat MsgAlreadyInWatchlist w2) as [[evs2 ->]|[err ->]];
        reflexivity.
    + right. exists tokenData. split; [done|]. split; [exact Hfresh|].
      set (w3 := withDisk _ w2).
      match goal with
      | |- context [Processors.send chat ?msg w3] =>
          destruct (send_cases chat msg w3) as [[evs2 ->]|[err ->]]
      end; reflexivity.
  - left. destruct (send_cases chat MsgNotFound w2) as [[evs2 ->]|[err ->]]; reflexivity.
Qed.

(** C5.  An add request whose key (address and chain compared without case,
    and subscriber) is already in the store returns the duplicate signal
    [null] and leaves the world as it was, the watchlist with it.  An add
    with a fresh key appends one entry with that key.  Hence the add, the
    remove, the two updates, the sweep and the add command all keep the keys
    of the watchlist distinct.  Adding the same token twice for one
    subscriber, the second time in upper case, is rejected and the watchlist
    keeps its one entry. *)
Theorem duplicate_add_rejected (p : AddParams) (w : World) (e : Entry) :
  e ∈ disk w ->
  keyOf e = keyOfRequest p ->
  addToWatchlist p w = (Ok None, w)
  /\ (forall q w0, uniqueKeys (disk w0) -> uniqueKeys (disk (run (addToWatchlist q) w0)))
  /\ (forall a c s w0,
        uniqueKeys (disk w0) -> uniqueKeys (disk (run (removeFromWatchlist a c s) w0)))
  /\ (forall a c s x w0,
        uniqueKeys (disk w0) -> uniqueKeys (disk (run (updateLastAlertPrice a c s x) w0)))
  /\ (forall a c s x w0,
        uniqueKeys (disk w0) -> uniqueKeys (disk (run (updateThreshold a c s x) w0)))
  /\ (forall upstream w0,
        uniqueKeys (disk w0) -> uniqueKeys (disk (run (checkPrices upstream) w0)))
  /\ (forall upstream chat chain address threshold w0,
        uniqueKeys (disk w0) ->
        uniqueKeys
          (disk (run (Processors.processAdd upstream chat chain address threshold) w0)))
  /\ (let request address chain :=
        {| a_tokenAddress := address; a_chainId := chain; a_name := "Owl";
           a_symbol := "OWL"; a_currentPrice := 1.00%Q; a_dropThreshold := None;
           a_chatId := "42" |} in
      let w1 := run (addToWatchlist (request "OwlMint" "solana")) (Sample.boot [] None) in
      outcome (addToWatchlist (request "OwlMint" "solana")) (Sample.boot [] None)
      = Ok (Some Sample.owl)
      /\ disk w1 = [Sample.owl]
      /\ addToWatchlist (request "OWLMINT" "Solana") w1 = (Ok None, w1)).
Proof.
  intros He Hk.
  split; [apply addToWatchlist_duplicate; eauto|].
  split; [|split; [|split; [|split; [|split; [|split]]]]].
  - intros q w0 Hu. unfold run.
    destruct (addToWatchlist_cases q w0) as [[_ ->]|[Hfresh ->]]; [done|].
    cbn [snd disk withDisk]. apply uniqueKeys_snoc; [done|].
    intros x Hx. rewrite keyOf_entryOf. by apply Hfresh.
  - intros a c s w0 Hu.
    destruct (removeFromWatchlist_disk a c s w0) as [->| ->];
      [done | by apply uniqueKeys_filter].
  - intros a c s x w0 Hu. unfold run. rewrite updateLastAlertPrice_run.
    cbn [snd disk withDisk]. by apply uniqueKeys_repriced.
  - intros a c s x w0 Hu.
    destruct (updateThreshold_disk a c s x w0) as [->|[i ->]]; [done|].
    unfold uniqueKeys. by rewrite fmap_alter_same.
  - intros upstream w0 Hu.
    destruct (checkPrices_inv uniqueKeys
                (fun a c s x d _ => uniqueKeys_repriced a c s x d) upstream w0 Hu)
      as (w' & H & Hu').
    unfold run. by rewrite H.
  - intros upstream chat chain address threshold w0 Hu.
    destruct (processAdd_disk upstream chat chain address threshold w0)
      as [->|(tokenData & _ & Hfresh & ->)]; [done|].
    apply uniqueKeys_snoc; [done|]. intros x Hx. rewrite keyOf_entryOf. by apply Hfresh.
  - vm_compute. repeat split.
Qed.

Lemma duplicate_add_rejected_witness :
  addToWatchlist
    {| a_tokenAddress := "OWLMINT"; a_chainId := "Solana"; a_name := "Owl";
       a_symbol := "OWL"; a_currentPrice := 0.94%Q; a_dropThreshold := Some 10%Q;
       a_chatId := "42" |}
    (Sample.boot [Sample.owl] None)
  = (Ok None, Sample.boot [Sample.owl] None).
Proof.
  set (p := {| a_tokenAddress := "OWLMINT"; a_chainId := "Solana"; a_name := "Owl";
               a_symbol := "OWL"; a_currentPrice := 0.94%Q; a_dropThreshold := Some 10%Q;
               a_chatId := "42" |}).
  assert (He : Sample.owl ∈ disk (Sample.boot [Sample.owl] None))
    by apply list_elem_of_here.
  assert (Hk : keyOf Sample.owl = keyOfRequest p) by (vm_compute; reflexivity).
  exact (proj1 (duplicate_add_rejected p _ _ He Hk)).
Defined.

(** ** The sign of the stored prices *)

Lemma initialPrices_repriced a c s p d :
  initialPrice <$> repriced a c s p d = initialPrice <$> d.
Proof.
  unfold repriced. destruct (findIndex _ d) as [i|]; [|done]. by apply fmap_alter_same.
Qed.

Lemma positivePrices_filter f d : positivePrices d -> positivePrices (List.filter f d).
Proof.
  unfold positivePrices. rewrite !Forall_forall. intros H e He.
  apply H. apply list_elem_of_In in He. apply filter_In in He as [He _].
  by apply list_elem_of_In.
Qed.

Lemma positivePrices_snoc d e :
  positivePrices d -> (0 < lastAlertPrice e)%Q -> (0 < initialPrice e)%Q ->
  positivePrices (d ++ [e]).
Proof.
  unfold positivePrices. intros Hd H1 H2. apply Forall_app. split; [done|].
  by repeat constructor.
Qed.

Lemma positivePrices_threshold x i d :
  positivePrices d -> positivePrices (alter (setDropThreshold x) i d).
Proof.
  unfold positivePrices. rewrite !Forall_lookup. intros Hd j e.
  destruct (decide (i = j)) as [->|Hne].
  - rewrite list_lookup_alter_eq. destruct (d !! j) as [y|] eqn:Hy; [|done].
    cbn. intros [= <-]. cbn. by apply (Hd j).
  - rewrite list_lookup_alter_ne by done. apply Hd.
Qed.

(** C6, as the code has it.  The add path does not look at the sign of the
    price: a fresh add stores the price it is given as the reference and as
    the initial price, and [processAdd] gives it the fetched price.  The
    evaluator writes positive reference prices only and leaves the initial
    prices alone.  So a watchlist whose reference and initial prices are all
    positive keeps them positive through a sweep, a remove, a threshold
    update, an add of a positive price, and a [processAdd] for which upstream
    quotes a positive price. *)
Theorem positive_prices_kept (w : World) :
  positivePrices (disk w) ->
  (forall upstream, positivePrices (disk (run (checkPrices upstream) w)))
  /\ (forall a c s, positivePrices (disk (run (removeFromWatchlist a c s) w)))
  /\ (forall a c s x, positivePrices (disk (run (updateThreshold a c s x) w)))
  /\ (forall p, (0 < a_currentPrice p)%Q ->
                positivePrices (disk (run (addToWatchlist p) w)))
  /\ (forall upstream chat chain address threshold,
        (forall tokenData, quoted upstream chain address = Some tokenData ->
                           (0 < priceUsd tokenData)%Q) ->
        positivePrices
          (disk (run (Processors.processAdd upstream chat chain address threshold) w)))
  /\ (forall p w0 e,
        outcome (addToWatchlist p) w0 = Ok (Some e) ->
        lastAlertPrice e = a_currentPrice p
        /\ initialPrice e = a_currentPrice p
        /\ disk (run (addToWatchlist p) w0) = disk w0 ++ [e])
  /\ (forall upstream w0,
        initialPrice <$> disk (run (checkPrices upstream) w0) = initialPrice <$> disk w0).
Proof.
  intros Hw. split; [|split; [|split; [|split; [|split; [|split]]]]].
  - intros upstream.
    destruct (checkPrices_inv positivePrices positivePrices_repriced upstream w Hw)
      as (w' & H & Hw').
    unfold run. by rewrite H.
  - intros a c s.
    destruct (removeFromWatchlist_disk a c s w) as [->| ->];
      [done | by apply positivePrices_filter].
  - intros a c s x.
    destruct (updateThreshold_disk a c s x w) as [->|[i ->]];
      [done | by apply positivePrices_threshold].
  - intros p Hp. unfold run.
    destruct (addToWatchlist_cases p w) as [[_ ->]|[_ ->]]; [done|].
    cbn [snd disk withDisk]. by apply positivePrices_snoc.
  - intros upstream chat chain address threshold Hquote.
    destruct (processAdd_disk upstream chat chain address threshold w)
      as [->|(tokenData & Hq & _ & ->)]; [done|].
    apply positivePrices_snoc; [done|..]; cbn; by apply Hquote.
  - intros p w0 e. unfold outcome, run.
    destruct (addToWatchlist_cases p w0) as [[_ ->]|[_ ->]]; cbn [fst snd]; [done|].
    intros [= <-]. repeat split.
  - intros upstream w0.
    destruct (checkPrices_inv
                (fun d => initialPrice <$> d = initialPrice <$> disk w0)
                (fun a c s x d _ H => eq_trans (initialPrices_repriced a c s x d) H)
                upstream w0 eq_refl) as (w' & H & Hw').
    unfold run. by rewrite H.
Qed.

Lemma positive_prices_kept_witness :
  positivePrices
    (disk (run (checkPrices (Sample.market 0.94))
               (Sample.boot [Sample.owl] (Some Sample.okBot)))).
Proof.
  assert (Hw : positivePrices (disk (Sample.boot [Sample.owl] (Some Sample.okBot)))).
  { repeat constructor. }
  exact (proj1 (positive_prices_kept _ Hw) (Sample.market 0.94)).
Defined.

(** C6, as stated, fails: [processAdd] on a token for which upstream gives
    no parseable price creates an entry whose reference price and initial
    price are 0. *)
Lemma add_path_stores_zero_price :
  outcome (Processors.processAdd Sample.unpriced "42" "solana" "OwlMint" (Some 5%Q))
          (Sample.boot [] (Some Sample.okBot)) = Ok tt
  /\ lastAlertPrice <$> disk Sample.zeroPriced = [0%Q]
  /\ initialPrice <$> disk Sample.zeroPriced = [0%Q]
  /\ ~ positivePrices (disk Sample.zeroPriced).
Proof.
  split; [by vm_compute|]. split; [by vm_compute|]. split; [by vm_compute|].
  intros H. apply Forall_inv in H. destruct H as [H _].
  vm_compute in H. discriminate.
Qed.

(** ** The timers *)

Lemma stopMonitor_clears w h :
  monitorInterval w = Some h ->
  monitorInterval (run stopMonitor w) = None
  /\ forall t, t ∈ timers (run stopMonitor w) -> handle t <> h.
Proof.
  intros Hh. unfold run, stopMonitor. rewrite Hh. cbn. split; [done|].
  intros t Ht. apply list_elem_of_In, filter_In in Ht as [_ Ht].
  apply negb_true_iff, Nat.eqb_neq in Ht. done.
Qed.

Lemma startMonitor_timers bot intervalMs w :
  let started := run (startMonitor bot intervalMs) w in
  monitorInterval started = Some (S (nextHandle w))
  /\ exists kept,
      timers started
      = kept ++ [{| handle := nextHandle w; due := (clock w + 5000)%N; period := None |};
                 {| handle := S (nextHandle w);
                    due := (clock w + timerDelay (default 60000%N intervalMs))%N;
                    period := Some (timerDelay (default 60000%N intervalMs)) |}].
Proof.
  unfold run, startMonitor, bind, consoleLog, emit, setTimeout, setInterval, clearInterval.
  change (timerDelay 5000) with 5000%N.
  cbn -[timerDelay]. destruct (monitorInterval w) as [h|]; cbn -[timerDelay].
  - split; [done|]. eexists. by rewrite <- app_assoc.
  - split; [done|]. eexists. by rewrite <- app_assoc.
Qed.

(** C7, on the code.  [stopMonitor] clears the interval and nothing else:
    after [startMonitor] then [stopMonitor], whatever the bot, the interval
    and the world before, the handle of the interval is gone but the warm-up
    timeout set by that start is still pending, due 5000 ms after the start.
    Started and stopped at once on a watchlist with one entry, the event
    loop still begins a sweep at time 5000, and that sweep fires an alert;
    after it no timer is left. *)
Theorem stop_leaves_warmup_pending (bot : Bot) (intervalMs : option N) (w : World) :
  let stopped := run stopMonitor (run (startMonitor bot intervalMs) w) in
  monitorInterval stopped = None
  /\ (forall t, t ∈ timers stopped -> handle t <> S (nextHandle w))
  /\ {| handle := nextHandle w; due := (clock w + 5000)%N; period := None |} ∈ timers stopped
  /\ (let halted := run stopMonitor
                        (run (startMonitor Sample.okBot (Some 60000%N))
                             (Sample.boot [Sample.owl] None)) in
      timers halted = [{| handle := 1; due := 5000%N; period := None |}]
      /\ sweeps halted = []
      /\ (sweeps <$> fireNext (Sample.market 0.94) halted) = Some [5000%N]
      /\ (alertCount <$> fireNext (Sample.market 0.94) halted) = Some 1%nat
      /\ (timers <$> fireNext (Sample.market 0.94) halted) = Some []).
Proof.
  intros stopped.
  destruct (startMonitor_timers bot intervalMs w) as (Hh & kept & Hts).
  destruct (stopMonitor_clears _ _ Hh) as [Hnone Hgone].
  split; [done|]. split; [done|]. split; [|by vm_compute].
  unfold stopped. clear stopped Hnone Hgone.
  set (started := run (startMonitor bot intervalMs) w) in *.
  unfold run, stopMonitor. rewrite Hh. cbn. rewrite Hts.
  apply list_elem_of_In, filter_In. split.
  - apply in_or_app. right. by left.
  - cbn. apply negb_true_iff, Nat.eqb_neq. lia.
Qed.

(** ** Formatting *)

(** *** The strings depend on the value of the number only *)

#[local] Instance Qleb_proper : Proper (Qeq ==> Qeq ==> eq) Qleb.
Proof. intros x x' Hx y y' Hy. unfold Qleb. by rewrite Hx, Hy. Qed.

#[local] Instance Qltb_proper : Proper (Qeq ==> Qeq ==> eq) Qltb.
Proof. intros x x' Hx y y' Hy. unfold Qltb. by rewrite Hx, Hy. Qed.

#[local] Instance Qgeb_proper : Proper (Qeq ==> Qeq ==> eq) Qgeb.
Proof. intros x x' Hx y y' Hy. unfold Qgeb. by rewrite Hx, Hy. Qed.

#[local] Instance Qgtb_proper : Proper (Qeq ==> Qeq ==> eq) Qgtb.
Proof. intros x x' Hx y y' Hy. unfold Qgtb. by rewrite Hx, Hy. Qed.

#[local] Instance Qeqb_proper : Proper (Qeq ==> Qeq ==> eq) Qeqb.
Proof. intros x x' Hx y y' Hy. unfold Qeqb. by rewrite Hx, Hy. Qed.

#[local] Instance roundHalfUp_proper : Proper (Qeq ==> eq) roundHalfUp.
Proof. intros x y H. unfold roundHalfUp. by rewrite H. Qed.

#[local] Instance toFixed_proper f : Proper (Qeq ==> eq) (toFixed f).
Proof.
  intros x y H. unfold toFixed.
  assert (Qltb x 0 = Qltb y 0) as -> by (by rewrite H).
  assert (roundHalfUp (Qabs x * pow10 (Z.of_nat f))
          = roundHalfUp (Qabs y * pow10 (Z.of_nat f))) as -> by (by rewrite H).
  reflexivity.
Qed.

#[local] Instance expDigits_proper f : Proper (Qeq ==> eq) (expDigits f).
Proof. intros x y H. unfold expDigits. by rewrite (Qred_complete _ _ H). Qed.

#[local] Instance toExponential_proper f : Proper (Qeq ==> eq) (toExponential f).
Proof.
  intros x y H. unfold toExponential.
  assert (Qltb x 0 = Qltb y 0) as -> by (by rewrite H).
  assert (Qeqb x 0 = Qeqb y 0) as -> by (by rewrite H).
  assert (expDigits f (Qabs x) = expDigits f (Qabs y)) as -> by (by rewrite H).
  reflexivity.
Qed.

#[local] Instance toLocaleString2_proper : Proper (Qeq ==> eq) toLocaleString2.
Proof.
  intros x y H. unfold toLocaleString2.
  assert (Qltb x 0 = Qltb y 0) as -> by (by rewrite H).
  assert (roundHalfUp (Qabs x * 100) = roundHalfUp (Qabs y * 100)) as -> by (by rewrite H).
  reflexivity.
Qed.



(** *** The digits after the point *)

Lemma append_cons c a b : (String c a ++ b)%string = String c (a ++ b)%string.
Proof. reflexivity. Qed.


Lemma list_of_append a b :
  list_ascii_of_string (a ++ b)%string = list_ascii_of_string a ++ list_ascii_of_string b.
Proof.
  induction a as [|c a IH]; [done|]. rewrite append_cons. cbn. by rewrite IH.
Qed.

Lemma length_list_of_string s : length (list_ascii_of_string s) = String.length s.
Proof. induction s as [|c s IH]; [done|]. cbn. by rewrite IH. Qed.













(** *** Stripping the trailing zeros *)

Lemma dropZeros_split cs :
  exists zeros,
    cs = zeros ++ dropZeros cs
    /\ Forall (fun c => c = "0"%char) zeros
    /\ head (dropZeros cs) <> Some "0"%char.
Proof.
  induction cs as [|c cs (zeros & Hcs & Hz & Hhead)]; cbn [dropZeros].
  - exists []. by repeat split.
  - case_bool_decide as Hc.
    + exists (c :: zeros). split; [cbn; by rewrite <- Hcs|]. split; [by constructor|done].
    + exists []. repeat split; [constructor|]. cbn. congruence.
Qed.

Lemma last_rev {A} (l : list A) : last (rev l) = head l.
Proof. destruct l as [|x l]; [done|]. cbn. apply last_snoc. Qed.

(** The string is what is kept, then the point that was dropped if any,
    then the zeros that were dropped; a point is only dropped with zeros
    behind it, and what is kept without dropping a point does not end with a
    zero. *)
Lemma stripZeros_spec s :
  exists point zeros,
    list_ascii_of_string s = list_ascii_of_string (stripZeros s) ++ point ++ zeros
    /\ Forall (fun c => c = "0"%char) zeros
    /\ (point = [] \/ (point = ["."%char] /\ zeros <> []))
    /\ (point = [] -> last (list_ascii_of_string (stripZeros s)) <> Some "0"%char).
Proof.
  unfold stripZeros. set (l := list_ascii_of_string s).
  destruct (dropZeros_split (rev l)) as (zeros & Hsplit & Hz & Hhead).
  set (r' := dropZeros (rev l)) in *.
  assert (Hl : l = rev r' ++ rev zeros).
  { rewrite <- rev_app_distr, <- Hsplit. by rewrite rev_involutive. }
  assert (Hlen : length (rev l) = (length zeros + length r')%nat).
  { rewrite Hsplit at 1. apply length_app. }
  destruct zeros as [|z zeros].
  - cbn in Hlen. rewrite Hlen, Nat.eqb_refl. fold l.
    exists [], []. rewrite !app_nil_r. repeat split; [constructor | by left |].
    intros _. cbn in Hl. rewrite app_nil_r in Hl. rewrite Hl, last_rev. exact Hhead.
  - cbn [length] in Hlen.
    destruct (length r' =? length (rev l))%nat eqn:E; [apply Nat.eqb_eq in E; lia|].
    rewrite list_ascii_of_string_of_list_ascii.
    assert (Hzeros : Forall (fun c => c = "0"%char) (rev (z :: zeros))) by (by apply Forall_rev).
    destruct r' as [|c r''] eqn:Hr.
    + exists [], (rev (z :: zeros)). cbn [rev app] in *.
      repeat split; [done | done | by left | done].
    + case_bool_decide as Hc.
      * subst c. exists ["."%char], (rev (z :: zeros)).
        split; [rewrite Hl; cbn [rev]; by rewrite <- !app_assoc|].
        split; [done|]. split; [|done]. right. split; [done|].
        intros Hnil. apply (f_equal length) in Hnil. rewrite length_rev in Hnil. done.
      * exists [], (rev (z :: zeros)).
        split; [by rewrite Hl|]. split; [done|]. split; [by left|].
        intros _. rewrite last_rev. exact Hhead.
Qed.

(** *** The amount that a string shows *)











(** The digits of [toFixed] write the number of units of the last place. *)
Lemma toFixed_digits f x :
  (0 <= x)%Q -> f <> 0%nat ->
  toFixed f x
  = (decimal (roundHalfUp (x * pow10 (Z.of_nat f)) / 10 ^ Z.of_nat f)
     ++ "." ++ fixedDigits f (roundHalfUp (x * pow10 (Z.of_nat f))))%string.
Proof.
  intros Hx Hf. unfold toFixed.
  assert (E0 : Qltb x 0 = false).
  { unfold Qltb. apply negb_false_iff. by apply Qle_bool_iff. }
  assert (E1 : roundHalfUp (Qabs x * pow10 (Z.of_nat f))
               = roundHalfUp (x * pow10 (Z.of_nat f))).
  { unfold roundHalfUp. apply Qfloor_comp. by rewrite (Qabs_pos x Hx). }
  rewrite E0, E1. destruct (Nat.eqb_spec f 0); [done|]. reflexivity.
Qed.




(** *** Commas and stripped zeros do not change the amount *)












(** *** The tiers *)

Section PriceTiers.
Local Open Scope Q_scope.
Variables p y : Q.
Hypothesis Hy : Binary64.round p = Binary64.Fin y.
Hypothesis Hyp : y == p.

Lemma eqb_zero_false : 0 < p -> Binary64.eqb (Binary64.Fin y) (Binary64.Fin 0) = false.
Proof.
  intros H. cbn. destruct (Qeq_bool y 0) eqn:E; [|done]. apply Qeq_bool_eq in E. lra.
Qed.








End PriceTiers.





(** *** The shape and the accuracy of a printed price *)

Section PriceShapes.
Local Open Scope Q_scope.
Variables p y : Q.
Hypothesis Hy : Binary64.round p = Binary64.Fin y.
Hypothesis Hyp : y == p.





End PriceShapes.

(** *** Market caps *)

Lemma round_bounded (x b b' : Q) :
  (0 < x)%Q -> (x <= b)%Q -> Binary64.round b = Binary64.Fin b' ->
  exists q, Binary64.round x = Binary64.Fin q /\ (0 <= q)%Q /\ (q <= b')%Q.
Proof.
  intros Hx Hb Hb'.
  destruct (round_finite_pos b b' ltac:(lra) Hb') as [-> Hfin].
  pose proof (roundPos_mono x b Hx Hb) as Hmono.
  pose proof (roundPos_nonneg x Hx) as Hnn.
  exists (Binary64.roundPos x). split; [|by split].
  rewrite (round_pos x Hx).
  destruct (Qle_bool (Binary64.pow2 1024) (Binary64.roundPos x)) eqn:E; [|done].
  apply Qle_bool_iff in E. lra.
Qed.

Lemma geb_true (y unit u : Q) :
  Binary64.round unit = Binary64.Fin u -> (u <= y)%Q ->
  Binary64.geb (Binary64.Fin y) (Binary64.round unit) = true.
Proof. intros -> H. cbn. by apply Qle_bool_iff. Qed.

Lemma geb_false (y unit u : Q) :
  Binary64.round unit = Binary64.Fin u -> (y < u)%Q ->
  Binary64.geb (Binary64.Fin y) (Binary64.round unit) = false.
Proof.
  intros -> H. cbn. destruct (Qle_bool u y) eqn:E; [|done].
  apply Qle_bool_iff in E. lra.
Qed.

Lemma unit_e3 : Binary64.round 1e3 = Binary64.Fin 1000.
Proof. by vm_compute. Qed.

Lemma unit_e6 : Binary64.round 1e6 = Binary64.Fin 1000000.
Proof. by vm_compute. Qed.

Lemma unit_e9 : Binary64.round 1e9 = Binary64.Fin 1000000000.
Proof. by vm_compute. Qed.

Lemma unit_e12 : Binary64.round 1e12 = Binary64.Fin 1000000000000.
Proof. by vm_compute. Qed.

Lemma toFixed_finite f q :
  (Qabs q < 1000000000000000000000)%Q -> Binary64.toFixed f (Binary64.Fin q) = toFixed f q.
Proof.
  intros H. cbn [Binary64.toFixed].
  destruct (Qle_bool (pow10 21) (Qabs q)) eqn:E; [|done].
  apply Qle_bool_iff in E.
  assert ((pow10 21 == 1000000000000000000000)%Q) by reflexivity. lra.
Qed.

(** The quotient of a cap by its unit, as the code computes it. *)
Lemma over_unit (y unit u : Q) :
  (0 < y)%Q -> (0 < u)%Q -> Binary64.round unit = Binary64.Fin u ->
  Binary64.div (Binary64.Fin y) (Binary64.round unit) = Binary64.round (y / u).
Proof.
  intros Hy Hu ->. cbn [Binary64.div].
  destruct (Qeq_bool u 0) eqn:E; [|done]. apply Qeq_bool_eq in E. lra.
Qed.



Section CapTiers.
Local Open Scope Q_scope.
Variables p y : Q.
Hypothesis Hy : Binary64.round p = Binary64.Fin y.
Hypothesis Hyp : y == p.


(** The branch taken, by the tests of the code on the double. *)
Lemma cap_select :
  0 < p ->
  formatMarketCap (Some p)
  = (if Qle_bool 1000000000000 y
     then "$" ++ Binary64.toFixed 2 (Binary64.round (y / 1000000000000)) ++ "T"
     else if Qle_bool 1000000000 y
     then "$" ++ Binary64.toFixed 2 (Binary64.round (y / 1000000000)) ++ "B"
     else if Qle_bool 1000000 y
     then "$" ++ Binary64.toFixed 2 (Binary64.round (y / 1000000)) ++ "M"
     else if Qle_bool 1000 y
     then "$" ++ Binary64.toFixed 2 (Binary64.round (y / 1000)) ++ "K"
     else "$" ++ Binary64.toFixed 2 (Binary64.Fin y))%string.
Proof.
  intros H0. unfold formatMarketCap. cbv zeta. rewrite Hy.
  rewrite (eqb_zero_false p y Hyp H0).
  assert (Hpos : 0 < y) by lra.
  rewrite (over_unit y 1e3 1000 Hpos eq_refl unit_e3),
          (over_unit y 1e6 1000000 Hpos eq_refl unit_e6),
          (over_unit y 1e9 1000000000 Hpos eq_refl unit_e9),
          (over_unit y 1e12 1000000000000 Hpos eq_refl unit_e12).
  rewrite unit_e3, unit_e6, unit_e9, unit_e12. reflexivity.
Qed.

Lemma Qle_bool_false a b : b < a -> Qle_bool a b = false.
Proof.
  intros H. destruct (Qle_bool a b) eqn:E; [|done]. apply Qle_bool_iff in E. lra.
Qed.

Lemma Qle_bool_true a b : a <= b -> Qle_bool a b = true.
Proof. apply Qle_bool_iff. Qed.






End CapTiers.


Lemma formatMarketCap_double p y :
  Binary64.round p = Binary64.Fin y -> formatMarketCap (Some p) = formatMarketCap (Some y).
Proof. intros H. unfold formatMarketCap. by rewrite H, (round_idem p y H). Qed.




(** * Further properties of the store *)

Lemma matches_keyb address chain chat e :
  matches (toLowerCase address) chain chat e
  = bool_decide (keyOf e = (toLowerCase address, toLowerCase chain, chat)).
Proof.
  destruct (matches (toLowerCase address) chain chat e) eqn:E; symmetry.
  - apply bool_decide_eq_true_2. by apply matches_key.
  - apply bool_decide_eq_false_2. intros H. apply matches_key in H. congruence.
Qed.

Lemma filter_length_eq {A} (f : A -> bool) (l : list A) :
  length (List.filter f l) = length l -> List.filter f l = l.
Proof.
  induction l as [|x l IH]; cbn; [done|].
  pose proof (List.filter_length_le f l) as Hle.
  destruct (f x); cbn; intros H; [f_equal; apply IH; lia | lia].
Qed.

Lemma removeFromWatchlist_run a c s w :
  removeFromWatchlist a c s w
  = (Ok (existsb (matches (toLowerCase a) c s) (disk w)),
     withDisk (List.filter (fun e => negb (matches (toLowerCase a) c s e)) (disk w)) w).
Proof.
  unfold removeFromWatchlist, bind, loadWatchlist, saveWatchlist, ret.
  set (f := fun e => negb (matches (toLowerCase a) c s e)).
  assert (Hex : existsb (matches (toLowerCase a) c s) (disk w)
                = (length (List.filter f (disk w)) <? length (disk w))%nat).
  { induction (disk w) as [|x l IH]; [done|].
    pose proof (List.filter_length_le f l) as Hle.
    cbn [existsb List.filter]. unfold f at 1.
    destruct (matches (toLowerCase a) c s x); cbn [negb orb length].
    - symmetry. apply Nat.ltb_lt. lia.
    - rewrite IH. fold f.
      destruct (Nat.ltb_spec (length (List.filter f l)) (length l));
        symmetry; [apply Nat.ltb_lt | apply Nat.ltb_ge]; lia. }
  rewrite Hex. destruct (_ <? _)%nat eqn:E; [reflexivity|].
  apply Nat.ltb_ge in E. pose proof (List.filter_length_le f (disk w)) as Hle.
  rewrite (filter_length_eq f (disk w)) by lia. by rewrite withDisk_same.
Qed.

Lemma removed_key_gone a c s d e :
  e ∈ List.filter (fun e => negb (matches (toLowerCase a) c s e)) d ->
  keyOf e <> (toLowerCase a, toLowerCase c, s).
Proof.
  intros He Hk. apply list_elem_of_In, filter_In in He as [_ He].
  apply negb_true_iff in He. apply matches_key in Hk. congruence.
Qed.

(** X1.  A remove deletes every entry with the key (address and chain
    compared without case, same chat) and nothing else: the entries with
    another key stay, in their order.  It answers [true] exactly when an
    entry had the key; when none had it, the world is left as it was.
    Afterwards no entry has the key. *)
Theorem remove_deletes_the_key (a c s : string) (w : World) :
  let k := (toLowerCase a, toLowerCase c, s) in
  let w' := run (removeFromWatchlist a c s) w in
  outcome (removeFromWatchlist a c s) w = Ok (bool_decide (k ∈ keyOf <$> disk w))
  /\ w' = withDisk (disk w') w
  /\ disk w' = List.filter (fun e => negb (bool_decide (keyOf e = k))) (disk w)
  /\ (k ∉ keyOf <$> disk w')
  /\ (k ∉ keyOf <$> disk w -> w' = w).
Proof.
  intros k w'. unfold w', outcome, run. rewrite removeFromWatchlist_run. cbn [fst snd].
  assert (Hfilter : List.filter (fun e => negb (matches (toLowerCase a) c s e)) (disk w)
                    = List.filter (fun e => negb (bool_decide (keyOf e = k))) (disk w)).
  { apply List.filter_ext. intros e. by rewrite matches_keyb. }
  rewrite Hfilter. cbn [disk withDisk].
  assert (Hgone : k ∉ (keyOf <$> List.filter (fun e => negb (bool_decide (keyOf e = k)))
                                             (disk w))).
  { intros Hin. apply list_elem_of_fmap in Hin as (e & Hk & He).
    apply list_elem_of_In, filter_In in He as [_ He].
    apply negb_true_iff, bool_decide_eq_false in He. congruence. }
  split; [|split; [done|split; [done|split; [done|]]]].
  - f_equal. destruct (existsb _ (disk w)) eqn:E; symmetry.
    + apply bool_decide_eq_true_2. apply existsb_exists in E as (e & He & Hm).
      apply matches_key in Hm. apply list_elem_of_fmap. exists e.
      split; [done | by apply list_elem_of_In].
    + apply bool_decide_eq_false_2. intros Hin.
      apply list_elem_of_fmap in Hin as (e & Hk & He).
      assert (existsb (matches (toLowerCase a) c s) (disk w) = true) as Ht.
      { apply existsb_exists. exists e. split; [by apply list_elem_of_In|].
        by apply matches_key. }
      congruence.
  - intros Hnot.
    assert (Hall : List.filter (fun e => negb (bool_decide (keyOf e = k))) (disk w) = disk w).
    { apply List.forallb_filter_id. apply forallb_forall. intros e He.
      apply negb_true_iff, bool_decide_eq_false_2. intros Hk. apply Hnot.
      apply list_elem_of_fmap. exists e. split; [done | by apply list_elem_of_In]. }
    rewrite Hall. apply withDisk_same.
Qed.

(** X2.  Add and remove undo each other: on a watchlist that does not hold
    the key, an add followed by a remove of the same token for the same chat
    answers [true] and gives back the world as it was; and after a remove the
    key is free, so an add of that token for that chat is never rejected as a
    duplicate. *)
Theorem add_remove_round_trip (p : AddParams) (w : World) :
  keyOfRequest p ∉ (keyOf <$> disk w) ->
  removeFromWatchlist (a_tokenAddress p) (a_chainId p) (a_chatId p)
                      (run (addToWatchlist p) w)
  = (Ok true, w)
  /\ (forall w0,
        outcome (addToWatchlist p)
                (run (removeFromWatchlist (a_tokenAddress p) (a_chainId p) (a_chatId p)) w0)
        = Ok (Some (entryOf p (clock w0)))).
Proof.
  intros Hfresh. split.
  - assert (Hf : forall e, e ∈ disk w -> keyOf e <> keyOfRequest p).
    { intros e He Hk. apply Hfresh. apply list_elem_of_fmap. eauto. }
    unfold run at 1. rewrite (addToWatchlist_fresh p w Hf). cbn [snd].
    rewrite removeFromWatchlist_run. cbn [disk withDisk]. f_equal.
    + f_equal. rewrite existsb_app. cbn. rewrite orb_false_r.
      apply orb_true_iff. right. apply matches_key. apply keyOf_entryOf.
    + rewrite List.filter_app. cbn.
      assert (matches (toLowerCase (a_tokenAddress p)) (a_chainId p) (a_chatId p)
                      (entryOf p (clock w)) = true) as ->
          by (apply matches_key; apply keyOf_entryOf).
      cbn. rewrite app_nil_r.
      assert (List.filter (fun e => negb (matches (toLowerCase (a_tokenAddress p))
                                                  (a_chainId p) (a_chatId p) e)) (disk w)
              = disk w) as ->.
      { apply List.forallb_filter_id.
        apply forallb_forall. intros e He. apply negb_true_iff.
        rewrite matches_keyb. apply bool_decide_eq_false_2.
        apply Hf. by apply list_elem_of_In. }
      destruct w; reflexivity.
  - intros w0. unfold run, outcome. rewrite removeFromWatchlist_run. cbn [snd].
    rewrite addToWatchlist_fresh; [reflexivity|].
    intros e He. cbn [disk withDisk] in He. by apply removed_key_gone in He.
Qed.

Lemma add_remove_round_trip_witness :
  removeFromWatchlist "OwlMint" "Solana" "77"
    (run (addToWatchlist
            {| a_tokenAddress := "OwlMint"; a_chainId := "Solana"; a_name := "Owl";
               a_symbol := "OWL"; a_currentPrice := 0.94%Q; a_dropThreshold := None;
               a_chatId := "77" |})
         (Sample.boot [Sample.owl] None))
  = (Ok true, Sample.boot [Sample.owl] None).
Proof.
  set (p := {| a_tokenAddress := "OwlMint"; a_chainId := "Solana"; a_name := "Owl";
               a_symbol := "OWL"; a_currentPrice := 0.94%Q; a_dropThreshold := None;
               a_chatId := "77" |}).
  assert (Hfresh : keyOfRequest p ∉ keyOf <$> disk (Sample.boot [Sample.owl] None)).
  { apply (bool_decide_unpack _). vm_compute. reflexivity. }
  exact (proj1 (add_remove_round_trip p _ Hfresh)).
Defined.

Lemma updateThreshold_run a c s x w :
  updateThreshold a c s x w
  = (Ok (bool_decide (is_Some (findIndex (matches (toLowerCase a) c s) (disk w)))),
     withDisk (match findIndex (matches (toLowerCase a) c s) (disk w) with
               | Some i => alter (setDropThreshold x) i (disk w)
               | None => disk w
               end) w).
Proof.
  unfold updateThreshold, bind, loadWatchlist, saveWatchlist, ret.
  destruct (findIndex _ _); [reflexivity|]. by rewrite withDisk_same.
Qed.

Lemma findIndex_is_Some a c s d :
  is_Some (findIndex (matches (toLowerCase a) c s) d)
  <-> (toLowerCase a, toLowerCase c, s) ∈ keyOf <$> d.
Proof.
  split.
  - intros [i Hi]. destruct (findIndex_Some _ _ _ Hi) as (e & He & Hm & _).
    apply matches_key in Hm. apply list_elem_of_fmap. exists e.
    split; [done|]. apply list_elem_of_lookup. eauto.
  - intros Hin. apply list_elem_of_fmap in Hin as (e & Hk & He).
    destruct (findIndex _ d) eqn:E; [eauto|].
    pose proof (proj1 (findIndex_None _ _) E e He) as Hf.
    assert (matches (toLowerCase a) c s e = true) by (by apply matches_key). congruence.
Qed.

(** X3.  A threshold update answers [true] exactly when the chat holds the
    token (address and chain compared without case); it then sets the
    threshold of the first entry with that key and changes nothing else: every
    entry keeps its place, its key, its reference and initial price, and the
    entries with another key are left as they were.  When no entry has the
    key the world is unchanged.  On a watchlist with distinct keys the entry
    updated is the entry asked for. *)
Theorem threshold_update_is_local (a c s : string) (x : Q) (w : World) :
  let k := (toLowerCase a, toLowerCase c, s) in
  let w' := run (updateThreshold a c s x) w in
  outcome (updateThreshold a c s x) w = Ok (bool_decide (k ∈ keyOf <$> disk w))
  /\ w' = withDisk (disk w') w
  /\ length (disk w') = length (disk w)
  /\ (forall j e,
        disk w !! j = Some e ->
        exists e', disk w' !! j = Some e'
                   /\ (e' = e \/ e' = setDropThreshold x e)
                   /\ (keyOf e <> k -> e' = e)
                   /\ keyOf e' = keyOf e
                   /\ lastAlertPrice e' = lastAlertPrice e
                   /\ initialPrice e' = initialPrice e)
  /\ ((k ∉ keyOf <$> disk w) -> w' = w)
  /\ (forall i e,
        uniqueKeys (disk w) -> disk w !! i = Some e -> keyOf e = k ->
        disk w' = <[i := setDropThreshold x e]> (disk w)).
Proof.
  intros k w'. unfold w', outcome, run. rewrite updateThreshold_run. cbn [fst snd disk withDisk].
  split.
  { f_equal. apply bool_decide_ext. apply findIndex_is_Some. }
  split; [done|].
  destruct (findIndex (matches (toLowerCase a) c s) (disk w)) as [i|] eqn:Hi.
  - destruct (findIndex_Some _ _ _ Hi) as (y & Hy & Hm & _). apply matches_key in Hm.
    split; [apply length_alter|]. split; [|split].
    + intros j e Hj. destruct (decide (i = j)) as [->|Hne].
      * exists (setDropThreshold x e). rewrite list_lookup_alter_eq, Hj. cbn.
        repeat split; [auto|]. intros Hk. rewrite Hy in Hj. injection Hj as <-. done.
      * exists e. rewrite list_lookup_alter_ne by done. repeat split; auto.
    + intros Hnot. exfalso. apply Hnot. apply findIndex_is_Some. by rewrite Hi.
    + intros j e Hu Hj Hk.
      assert (i = j) as ->.
      { apply (NoDup_lookup (keyOf <$> disk w) i j k); [exact Hu|..].
        - rewrite list_lookup_fmap, Hy. cbn. by rewrite Hm.
        - rewrite list_lookup_fmap, Hj. cbn. by rewrite Hk. }
      apply list_eq. intros n. destruct (decide (j = n)) as [->|Hne].
      * rewrite list_lookup_alter_eq, Hj. cbn.
        rewrite list_lookup_insert_eq; [done|]. by apply lookup_lt_Some in Hj.
      * by rewrite list_lookup_alter_ne, list_lookup_insert_ne.
  - split; [done|]. split; [|split].
    + intros j e Hj. exists e. repeat split; auto.
    + intros _. apply withDisk_same.
    + intros j e Hu Hj Hk. exfalso.
      assert (is_Some (findIndex (matches (toLowerCase a) c s) (disk w))) as [n Hn].
      { apply findIndex_is_Some. apply list_elem_of_fmap. exists e.
        split; [done|]. apply list_elem_of_lookup. eauto. }
      congruence.
Qed.

(** X4.  The listing of a chat returns the entries of that chat and no
    other, in the order of the watchlist, and changes nothing; the listing
    for the monitor returns the whole watchlist and changes nothing, and the
    listing of a chat is the part of it that belongs to the chat.  After an
    add that was accepted, the listing of the adding chat is the listing
    before followed by the new entry, and the listing of every other chat is
    what it was. *)
Theorem listing_is_per_chat (chat : string) (w : World) :
  getWatchlistForChat chat w
  = (Ok (List.filter (fun e => bool_decide (chatId e = chat)) (disk w)), w)
  /\ getAllWatchlist w = (Ok (disk w), w)
  /\ (forall all l, outcome getAllWatchlist w = Ok all ->
                    outcome (getWatchlistForChat chat) w = Ok l ->
                    l = List.filter (fun e => bool_decide (chatId e = chat)) all)
  /\ (forall l e, outcome (getWatchlistForChat chat) w = Ok l ->
                  (e ∈ l <-> e ∈ disk w /\ chatId e = chat))
  /\ (forall p e l l',
        outcome (addToWatchlist p) w = Ok (Some e) ->
        outcome (getWatchlistForChat chat) w = Ok l ->
        outcome (getWatchlistForChat chat) (run (addToWatchlist p) w) = Ok l' ->
        l' = if bool_decide (a_chatId p = chat) then l ++ [e] else l).
Proof.
  split; [reflexivity|]. split; [reflexivity|]. split; [by intros all l [= <-] [= <-]|].
  split.
  - intros l e [= <-]. rewrite list_elem_of_In, filter_In, bool_decide_eq_true.
    by rewrite <- list_elem_of_In.
  - intros p e l l'. unfold outcome, run.
    destruct (addToWatchlist_cases p w) as [[_ ->]|[_ ->]]; cbn [fst snd]; [done|].
    intros [= <-] [= <-] [= <-]. cbn [disk withDisk].
    rewrite List.filter_app. cbn.
    destruct (bool_decide (a_chatId p = chat)); [done | by rewrite app_nil_r].
Qed.

(** ** How the updates compose *)

Lemma withDisk_withDisk d d' w : withDisk d (withDisk d' w) = withDisk d w.
Proof. reflexivity. Qed.

Lemma findIndex_alter pred (g : Entry -> Entry) (i : nat) (d : list Entry) :
  (forall e, pred (g e) = pred e) -> findIndex pred (alter g i d) = findIndex pred d.
Proof.
  intros Hg. revert i. induction d as [|x d IH]; intros i; [done|].
  destruct i as [|i]; cbn.
  - by rewrite Hg.
  - by rewrite IH.
Qed.

Lemma alter_alter_commute (f g : Entry -> Entry) (i j : nat) (d : list Entry) :
  (forall e, f (g e) = g (f e)) ->
  alter f i (alter g j d) = alter g j (alter f i d).
Proof.
  intros Hfg. apply list_eq. intros n.
  destruct (decide (i = n)) as [->|Hi]; destruct (decide (j = n)) as [->|Hj];
    rewrite ?list_lookup_alter_eq, ?list_lookup_alter_ne by done;
    rewrite ?list_lookup_alter_eq, ?list_lookup_alter_ne by done; try done.
  destruct (d !! n); cbn; [by rewrite Hfg | done].
Qed.

(** X5.  The two updates of the store compose as writes to separate fields:
    of two reference-price updates for one key the later one wins, and a
    reference-price update and a threshold update, for the same key or for
    different keys, give the same world in either order. *)
Theorem updates_compose (a c s a' c' s' : string) (p q x : Q) (w : World) :
  run (updateLastAlertPrice a c s q) (run (updateLastAlertPrice a c s p) w)
  = run (updateLastAlertPrice a c s q) w
  /\ run (updateThreshold a' c' s' x) (run (updateLastAlertPrice a c s p) w)
     = run (updateLastAlertPrice a c s p) (run (updateThreshold a' c' s' x) w).
Proof.
  split.
  - unfold run. rewrite !updateLastAlertPrice_run. cbn [snd disk withDisk].
    rewrite withDisk_withDisk. f_equal. unfold repriced.
    destruct (findIndex (matches (toLowerCase a) c s) (disk w)) as [i|] eqn:Hi.
    + rewrite findIndex_alter by done. rewrite Hi.
      apply list_eq. intros n.
      destruct (decide (i = n)) as [->|Hne];
        rewrite ?list_lookup_alter_eq, ?list_lookup_alter_ne by done; [|done].
      by destruct (disk w !! n).
    + by rewrite Hi.
  - unfold run. rewrite !updateLastAlertPrice_run, !updateThreshold_run.
    cbn [snd disk withDisk]. rewrite !withDisk_withDisk. f_equal. unfold repriced.
    destruct (findIndex (matches (toLowerCase a) c s) (disk w)) as [i|] eqn:Hi;
      destruct (findIndex (matches (toLowerCase a') c' s') (disk w)) as [j|] eqn:Hj;
      rewrite ?findIndex_alter by done; rewrite ?Hi, ?Hj; try done.
    by apply alter_alter_commute.
Qed.

(** * Further properties of the market-data client *)

Lemma pickBest_self p : pickBest p p = p.
Proof. unfold pickBest. by destruct (Qgtb _ _). Qed.

(** The fold of [reduce] keeps the first pair of greatest liquidity. *)
Lemma foldBest_first_max l :
  forall pre b ib,
    pre !! ib = Some b ->
    (forall q, q ∈ pre -> (liquidityOf q <= liquidityOf b)%Q) ->
    (forall j q, (j < ib)%nat -> pre !! j = Some q -> (liquidityOf q < liquidityOf b)%Q) ->
    exists i,
      (pre ++ l) !! i = Some (fold_left pickBest l b)
      /\ (forall q, q ∈ pre ++ l ->
                    (liquidityOf q <= liquidityOf (fold_left pickBest l b))%Q)
      /\ (forall j q, (j < i)%nat -> (pre ++ l) !! j = Some q ->
                      (liquidityOf q < liquidityOf (fold_left pickBest l b))%Q).
Proof.
  induction l as [|x l IH]; intros pre b ib Hb Hmax Hfirst; cbn [fold_left].
  - exists ib. rewrite app_nil_r. by repeat split.
  - replace (pre ++ x :: l) with ((pre ++ [x]) ++ l) by (by rewrite <- app_assoc).
    unfold pickBest at 2 4 6. destruct (Qgtb (liquidityOf x) (liquidityOf b)) eqn:E.
    + apply Qgtb_true in E. apply (IH (pre ++ [x]) x (length pre)).
      * by rewrite lookup_app_r, Nat.sub_diag.
      * intros q Hq. apply elem_of_app in Hq as [Hq|Hq].
        -- apply Qlt_le_weak. eapply Qle_lt_trans; [by apply Hmax | done].
        -- apply list_elem_of_singleton in Hq as ->. apply Qle_refl.
      * intros j q Hj Hq. rewrite lookup_app_l in Hq by done.
        eapply Qle_lt_trans; [|exact E]. apply Hmax.
        apply list_elem_of_lookup. eauto.
    + unfold Qgtb in E. apply negb_false_iff, Qleb_true in E.
      apply (IH (pre ++ [x]) b ib).
      * rewrite lookup_app_l; [done|]. by apply lookup_lt_Some in Hb.
      * intros q Hq. apply elem_of_app in Hq as [Hq|Hq]; [by apply Hmax|].
        by apply list_elem_of_singleton in Hq as ->.
      * intros j q Hj Hq. apply (Hfirst j q Hj).
        rewrite lookup_app_l in Hq; [done|]. apply lookup_lt_Some in Hb. lia.
Qed.

Lemma bestPair_first_max first rest :
  exists i,
    (first :: rest) !! i = Some (bestPair first (first :: rest))
    /\ (forall q, q ∈ first :: rest ->
                  (liquidityOf q <= liquidityOf (bestPair first (first :: rest)))%Q)
    /\ (forall j q, (j < i)%nat -> (first :: rest) !! j = Some q ->
                    (liquidityOf q < liquidityOf (bestPair first (first :: rest)))%Q).
Proof.
  unfold bestPair. cbn [fold_left]. rewrite pickBest_self.
  apply (foldBest_first_max rest [first] first 0%nat); [done|..].
  - intros q Hq. apply list_elem_of_singleton in Hq as ->. apply Qle_refl.
  - intros j q Hj. lia.
Qed.

(** X6.  [getTokenData] never throws and touches nothing but the trace, where
    it leaves its one request (and the error line when the request failed).
    It returns [null] exactly when the request failed or the response held no
    pair.  Otherwise it returns the data of a pair of the response with the
    greatest liquidity (a missing liquidity counting as 0), and of the first
    such pair when several are tied. *)
Theorem getTokenData_selects_best (upstream : Upstream) (chain address : string)
        (w : World) :
  exists found evs,
    getTokenData upstream chain address w = (Ok found, withTrace (trace w ++ evs) w)
    /\ requests evs = [[address]]
    /\ delivered (withTrace evs w) = []
    /\ (found = None <-> upstream chain [address] = inl []
                         \/ exists err, upstream chain [address] = inr err)
    /\ (forall data, upstream chain [address] = inl data -> data <> [] ->
          exists i p,
            data !! i = Some p
            /\ found = Some (toTokenData chain address p)
            /\ (forall q, q ∈ data -> (liquidityOf q <= liquidityOf p)%Q)
            /\ (forall j q, (j < i)%nat -> data !! j = Some q ->
                            (liquidityOf q < liquidityOf p)%Q)).
Proof.
  unfold getTokenData, tryCatch, httpGet, bind, emit, throw, ret, consoleError.
  destruct (upstream chain [address]) as [[|first rest]|err] eqn:Hup; cbn.
  - exists None, [HttpGet chain [address]]. repeat split; auto. intros data [= <-]. done.
  - exists (Some (toTokenData chain address (bestPair first (first :: rest)))),
           [HttpGet chain [address]].
    repeat split; try done.
    + intros [H|[err H]]; discriminate.
    + intros data [= <-] _.
      destruct (bestPair_first_max first rest) as (i & Hi & Hmax & Hfirst).
      exists i, (bestPair first (first :: rest)). by repeat split.
  - exists None, [HttpGet chain [address]; Console (LogFetchError chain address err)].
    repeat split; eauto.
    + unfold withTrace. cbn. by rewrite <- app_assoc.
    + intros data [=].
Qed.

(** ** The selection rule of the batched fetch *)

Lemma assoc_pushTo {A} (k k' : string) (x : A) m :
  assoc k' (pushTo k x m)
  = if bool_decide (k' = k) then Some (default [] (assoc k m) ++ [x]) else assoc k' m.
Proof.
  induction m as [|[k0 xs] m IH]; cbn.
  - case_bool_decide as H1; case_bool_decide as H2; congruence.
  - destruct (decide (k0 = k)) as [->|H0].
    + rewrite !bool_decide_eq_true_2 by done. cbn [assoc default].
      destruct (decide (k = k')) as [->|H1].
      * by rewrite !bool_decide_eq_true_2.
      * by rewrite !bool_decide_eq_false_2 by congruence.
    + rewrite !(bool_decide_eq_false_2 (k0 = k)) by done. cbn [assoc]. rewrite IH.
      destruct (decide (k0 = k')) as [->|H1].
      * rewrite bool_decide_eq_true_2 by done.
        by rewrite bool_decide_eq_false_2 by congruence.
      * by rewrite (bool_decide_eq_false_2 (k0 = k')) by done.
Qed.

Lemma assoc_None {A} (k : string) (m : list (string * list A)) :
  k ∉ m.*1 -> assoc k m = None.
Proof.
  induction m as [|[k0 xs] m IH]; cbn; [done|].
  rewrite not_elem_of_cons. intros [Hk Hm].
  rewrite bool_decide_eq_false_2 by congruence. by apply IH.
Qed.

Lemma pushTo_NoDup {A} (k : string) (x : A) m : NoDup m.*1 -> NoDup (pushTo k x m).*1.
Proof.
  induction m as [|[k0 xs] m IH]; cbn.
  - intros _. apply NoDup_singleton.
  - rewrite NoDup_cons. intros [Hk Hm]. case_bool_decide as H0; cbn.
    + apply NoDup_cons. by split.
    + apply NoDup_cons. split; [|by apply IH].
      intros Hin. apply pushTo_keys in Hin as [->|Hin]; done.
Qed.

Lemma groupOf_snoc k pre x :
  groupOf k (pre ++ [x])
  = groupOf k pre ++ (if bool_decide (baseAddress x = Some k) then [x] else []).
Proof. unfold groupOf. rewrite List.filter_app. cbn. by destruct (bool_decide _). Qed.

Lemma groupFold_assoc l :
  forall pre m,
    NoDup m.*1 ->
    (forall k, assoc k m = nonEmpty (groupOf k pre)) ->
    let m' := fold_left (fun m p => match baseAddress p with
                                    | Some addr => pushTo addr p m
                                    | None => m
                                    end) l m in
    NoDup m'.*1 /\ forall k, assoc k m' = nonEmpty (groupOf k (pre ++ l)).
Proof.
  induction l as [|x l IH]; intros pre m Hnd Hm; cbn [fold_left].
  - rewrite app_nil_r. by split.
  - replace (pre ++ x :: l) with ((pre ++ [x]) ++ l) by (by rewrite <- app_assoc).
    apply IH.
    + destruct (baseAddress x); [by apply pushTo_NoDup | done].
    + intros k. rewrite groupOf_snoc.
      destruct (baseAddress x) as [a|] eqn:Ha.
      * rewrite assoc_pushTo. case_bool_decide as Hk.
        -- subst a. rewrite bool_decide_eq_true_2 by done. rewrite Hm.
           by destruct (groupOf k pre).
        -- rewrite bool_decide_eq_false_2 by congruence. by rewrite app_nil_r.
      * rewrite bool_decide_eq_false_2 by done. by rewrite app_nil_r.
Qed.

Lemma groupPairs_assoc data :
  NoDup (groupPairs data).*1
  /\ forall k, assoc k (groupPairs data) = nonEmpty (groupOf k data).
Proof.
  apply (groupFold_assoc data [] []); [constructor | done].
Qed.

Lemma storeFold_lookup chain m :
  forall results k,
    NoDup m.*1 ->
    fold_left (storeBest chain) m results !! k
    = match assoc k m with
      | Some (first :: rest) => Some (toTokenData chain k (bestPair first (first :: rest)))
      | _ => results !! k
      end.
Proof.
  induction m as [|[a ps] m IH]; intros results k Hnd; cbn [fold_left assoc]; [done|].
  apply NoDup_cons in Hnd as [Ha Hm]. rewrite IH by done.
  case_bool_decide as Hk.
  - subst a. rewrite (assoc_None k m Ha).
    destruct ps as [|first rest]; cbn; [done|]. by rewrite lookup_insert_eq.
  - destruct (assoc k m) as [[|first rest]|]; try done;
      destruct ps as [|f r]; cbn; try done; by rewrite lookup_insert_ne.
Qed.

Lemma getMultipleTokensData_one_batch upstream chain addrs w :
  addrs <> [] -> (length addrs <= 30)%nat ->
  getMultipleTokensData upstream chain addrs w
  = (Ok (absorb upstream chain ∅ addrs),
     withTrace (trace w ++ HttpGet chain addrs :: batchErrors upstream chain addrs) w).
Proof.
  intros Hne Hlen. unfold getMultipleTokensData.
  destruct addrs as [|a addrs]; [done|]. cbn [length batchLoop].
  assert (E : (0 <? S (length addrs))%nat = true) by (apply Nat.ltb_lt; lia).
  rewrite E. rewrite drop_0, take_ge by (cbn in *; unfold batchSize; lia).
  unfold bind at 1. rewrite fetchBatch_run.
  assert (E' : (0 + batchSize <? S (length addrs))%nat = false)
    by (apply Nat.ltb_ge; cbn in *; unfold batchSize; lia).
  rewrite E'. unfold bind, ret. rewrite batchLoop_done; [done|].
  cbn in *. unfold batchSize. lia.
Qed.

(** X7.  For a list of 1 to 30 addresses the batched fetch makes one request
    and no pause, and applies per address the selection rule of the single
    fetch: a key is present exactly when the response holds a pair with that
    base address (compared in lower case), and its data are those of the pair
    of greatest liquidity among these pairs, the first of them on a tie.  A
    failed request gives the empty mapping. *)
Theorem batch_selects_best_per_address (upstream : Upstream) (chain : string)
        (addrs : list string) (w : World) :
  addrs <> [] -> (length addrs <= 30)%nat ->
  exists results,
    outcome (getMultipleTokensData upstream chain addrs) w = Ok results
    /\ List.filter isNetwork
         (drop (length (trace w)) (trace (run (getMultipleTokensData upstream chain addrs) w)))
       = [HttpGet chain addrs]
    /\ ((exists err, upstream chain addrs = inr err) -> results = ∅)
    /\ (forall data k,
          upstream chain addrs = inl data ->
          (results !! k = None <-> groupOf k data = [])
          /\ (forall d, results !! k = Some d ->
                exists i p,
                  groupOf k data !! i = Some p
                  /\ d = toTokenData chain k p
                  /\ (forall q, q ∈ groupOf k data -> (liquidityOf q <= liquidityOf p)%Q)
                  /\ (forall j q, (j < i)%nat -> groupOf k data !! j = Some q ->
                                  (liquidityOf q < liquidityOf p)%Q))).
Proof.
  intros Hne Hlen. exists (absorb upstream chain ∅ addrs).
  unfold outcome, run. rewrite (getMultipleTokensData_one_batch _ _ _ _ Hne Hlen).
  cbn [fst snd trace withTrace]. split; [done|]. split; [|split].
  - rewrite drop_app_length. cbn. unfold batchErrors.
    by destruct (upstream chain addrs).
  - intros [err Herr]. unfold absorb. by rewrite Herr.
  - intros data k Hup. unfold absorb. rewrite Hup.
    destruct (groupPairs_assoc data) as [Hnd Hassoc].
    rewrite (storeFold_lookup chain _ ∅ k Hnd), Hassoc, lookup_empty.
    destruct (groupOf k data) as [|first rest] eqn:Hg; cbn.
    + split; [done|]. intros d [=].
    + split; [split; discriminate|]. intros d [= <-].
      destruct (bestPair_first_max first rest) as (i & Hi & Hmax & Hfirst).
      exists i, (bestPair first (first :: rest)). by repeat split.
Qed.

Lemma batch_selects_best_per_address_witness :
  exists results,
    outcome (getMultipleTokensData (Sample.market 0.94) "solana" ["OwlMint"])
            (Sample.boot [] None) = Ok results.
Proof.
  assert (Hne : ["OwlMint"] <> @nil string) by discriminate.
  assert (Hlen : (length ["OwlMint"] <= 30)%nat) by (cbn; lia).
  destruct (batch_selects_best_per_address (Sample.market 0.94) "solana" ["OwlMint"]
              (Sample.boot [] None) Hne Hlen) as (results & H & _).
  by exists results.
Defined.

(** * Further properties of the monitor *)

(** ** The groups of a sweep *)

Lemma assoc_elem {A} (k : string) (xs : list A) m :
  NoDup m.*1 -> (k, xs) ∈ m -> assoc k m = Some xs.
Proof.
  induction m as [|[k0 ys] m IH]; cbn.
  - intros _ H. by apply elem_of_nil in H.
  - rewrite NoDup_cons. intros [Hk Hm] Hin.
    apply elem_of_cons in Hin as [[= -> ->]|Hin].
    + by rewrite bool_decide_eq_true_2.
    + rewrite bool_decide_eq_false_2; [by apply IH|].
      intros ->. apply Hk. by apply (list_elem_of_fmap_2 fst) in Hin.
Qed.

Lemma pushTo_concat {A} (k : string) (x : A) m :
  concat (pushTo k x m).*2 ≡ₚ concat m.*2 ++ [x].
Proof.
  induction m as [|[k0 xs] m IH]; cbn; [done|].
  case_bool_decide; cbn.
  - rewrite <- !app_assoc. apply Permutation_app_head, Permutation_app_comm.
  - rewrite IH. by rewrite app_assoc.
Qed.

Lemma chainGroup_snoc c pre x :
  chainGroup c (pre ++ [x])
  = chainGroup c pre ++ (if bool_decide (chainId x = c) then [x] else []).
Proof. unfold chainGroup. rewrite List.filter_app. cbn. by destruct (bool_decide _). Qed.

Lemma groupByChainFold l :
  forall pre m,
    NoDup m.*1 ->
    (forall c, assoc c m = nonEmpty (chainGroup c pre)) ->
    concat m.*2 ≡ₚ pre ->
    let m' := fold_left (fun m entry => pushTo (chainId entry) entry m) l m in
    NoDup m'.*1
    /\ (forall c, assoc c m' = nonEmpty (chainGroup c (pre ++ l)))
    /\ concat m'.*2 ≡ₚ pre ++ l.
Proof.
  induction l as [|x l IH]; intros pre m Hnd Hm Hperm; cbn [fold_left].
  - rewrite app_nil_r. by repeat split.
  - replace (pre ++ x :: l) with ((pre ++ [x]) ++ l) by (by rewrite <- app_assoc).
    apply IH.
    + by apply pushTo_NoDup.
    + intros c. rewrite chainGroup_snoc, assoc_pushTo.
      destruct (decide (c = chainId x)) as [->|Hc].
      * rewrite !bool_decide_eq_true_2 by done. rewrite Hm.
        by destruct (chainGroup (chainId x) pre).
      * rewrite !bool_decide_eq_false_2 by congruence. by rewrite app_nil_r.
    + by rewrite pushTo_concat, Hperm.
Qed.

(** X8.  The grouping of a sweep is a partition of the watchlist by chain
    identifier, compared case-sensitively: the chains of the groups are
    distinct, the group of a chain holds exactly the entries with that chain
    in their order in the watchlist, no group is empty, and every entry is in
    one group. *)
Theorem groupByChain_partition (allEntries : list Entry) :
  let groups := groupByChain allEntries in
  NoDup groups.*1
  /\ (forall c, assoc c groups = nonEmpty (chainGroup c allEntries))
  /\ (forall c entries, (c, entries) ∈ groups ->
                        entries <> [] /\ entries = chainGroup c allEntries)
  /\ (forall e, e ∈ allEntries -> exists entries, (chainId e, entries) ∈ groups /\ e ∈ entries)
  /\ concat groups.*2 ≡ₚ allEntries.
Proof.
  destruct (groupByChainFold allEntries [] []) as (Hnd & Hassoc & Hperm);
    [constructor | done | done |].
  cbn [app] in *. fold (groupByChain allEntries) in *.
  split; [done|]. split; [done|]. split; [|split; [|done]].
  - intros c entries Hin. pose proof (assoc_elem _ _ _ Hnd Hin) as H.
    rewrite Hassoc in H. destruct (chainGroup c allEntries); [done|].
    cbn in H. injection H as <-. by split.
  - intros e He. specialize (Hassoc (chainId e)).
    assert (Hg : e ∈ chainGroup (chainId e) allEntries).
    { apply list_elem_of_In, filter_In. split; [by apply list_elem_of_In|].
      by apply bool_decide_eq_true_2. }
    destruct (chainGroup (chainId e) allEntries) as [|x xs] eqn:E;
      [by apply elem_of_nil in Hg|].
    exists (x :: xs). split; [|done]. cbn in Hassoc.
    clear -Hassoc. induction (groupByChain allEntries) as [|[k ys] m IH]; [done|].
    cbn in Hassoc. case_bool_decide as Hk.
    + injection Hassoc as ->. subst k. apply list_elem_of_here.
    + apply list_elem_of_further. by apply IH.
Qed.

(** ** What a sweep touches *)

Lemma elem_of_take_drop {A} (a : A) (n i : nat) (l : list A) :
  a ∈ take n (drop i l) -> a ∈ l.
Proof.
  intros H. rewrite <- (take_drop i l). apply elem_of_app. right.
  rewrite <- (take_drop n (drop i l)). apply elem_of_app. by left.
Qed.

Lemma batchErrors_events upstream chain addrs batch :
  Forall (fetchEvent chain addrs) (batchErrors upstream chain batch).
Proof.
  unfold batchErrors. destruct (upstream chain batch); repeat constructor.
Qed.

Lemma batchLoop_events upstream chain addrs fuel :
  forall i results w,
    exists r evs,
      batchLoop upstream chain addrs fuel i results w = (r, withTrace (trace w ++ evs) w)
      /\ Forall (fetchEvent chain addrs) evs.
Proof.
  induction fuel as [|fuel IH]; intros i results w; cbn [batchLoop].
  - destruct (i <? length addrs)%nat; eexists _, [];
      rewrite app_nil_r, withTrace_same; (split; [reflexivity | constructor]).
  - destruct (i <? length addrs)%nat eqn:E.
    2:{ eexists _, []. rewrite app_nil_r, withTrace_same. split; [reflexivity | constructor]. }
    apply Nat.ltb_lt in E.
    set (batch := take batchSize (drop i addrs)).
    assert (Hbatch : fetchEvent chain addrs (HttpGet chain batch)).
    { cbn. split; [done|]. split.
      - intros Hnil. apply (f_equal length) in Hnil. unfold batch in Hnil.
        rewrite length_take, length_drop in Hnil. unfold batchSize in Hnil.
        change (length (@nil string)) with 0%nat in Hnil. lia.
      - intros a. apply elem_of_take_drop. }
    unfold bind at 1. rewrite fetchBatch_run.
    set (w1 := withTrace _ w).
    destruct (i + batchSize <? length addrs)%nat.
    + unfold bind, emit.
      set (w2 := withTrace _ w1).
      destruct (IH (i + batchSize)%nat (absorb upstream chain results batch) w2)
        as (r & evs & Hrun & Hall).
      exists r, (HttpGet chain batch :: batchErrors upstream chain batch ++ Sleep 250%N :: evs).
      rewrite Hrun. split.
      * f_equal. unfold w2, w1, withTrace. cbn. f_equal.
        rewrite <- !app_assoc. cbn. by rewrite <- ?app_assoc.
      * constructor; [exact Hbatch|]. apply Forall_app. split;
          [apply batchErrors_events|]. by constructor.
    + unfold bind, ret.
      destruct (IH (i + batchSize)%nat (absorb upstream chain results batch) w1)
        as (r & evs & Hrun & Hall).
      exists r, (HttpGet chain batch :: batchErrors upstream chain batch ++ evs).
      rewrite Hrun. split.
      * f_equal. unfold w1, withTrace. cbn. f_equal.
        rewrite <- !app_assoc. cbn. by rewrite <- ?app_assoc.
      * constructor; [exact Hbatch|]. apply Forall_app. split;
          [apply batchErrors_events | done].
Qed.

(** The batched fetch returns, changes nothing but the trace, and adds to it
    only its requests, pauses and error lines. *)
Lemma getMultipleTokensData_events upstream chain addrs w :
  exists batches evs,
    getMultipleTokensData upstream chain addrs w
    = (Ok (fold_left (absorb upstream chain) batches ∅), withTrace (trace w ++ evs) w)
    /\ Forall (fetchEvent chain addrs) evs.
Proof.
  destruct (getMultipleTokensData_run upstream chain addrs w)
    as (batches & evs & Hrun & _).
  destruct (batchLoop_events upstream chain addrs (length addrs) 0 ∅ w)
    as (r & evs' & Hrun' & Hall).
  unfold getMultipleTokensData in Hrun. rewrite Hrun in Hrun'.
  injection Hrun' as _ Ht. apply app_inv_head in Ht. subst evs'.
  exists batches, evs. by split.
Qed.

Lemma alertNotice_event entry tokenData pc b d :
  entry ∈ d -> sweepEvent b d (alertNotice b entry tokenData pc).
Proof.
  intros Hin. unfold alertNotice. destruct b as [bot|]; [|done].
  destruct (bot (chatId entry) _) eqn:Hbot; [done|].
  cbn. split; [by exists entry | by exists bot].
Qed.

Lemma sameBut_repriced a c s p d0 d :
  (0 < p)%Q -> Forall2 sameBut d0 d -> Forall2 sameBut d0 (repriced a c s p d).
Proof.
  intros Hp H. unfold repriced. destruct (findIndex _ d) as [i|]; [|done].
  apply Forall2_alter_r; [done|].
  intros x y _ _ [->|(q & _ & ->)]; right; by exists p.
Qed.

Lemma checkEntry_shape tokenDataMap entry w d0 :
  entry ∈ d0 ->
  exists d' evs,
    checkEntry tokenDataMap entry w = (Ok tt, withDisk d' (withTrace (trace w ++ evs) w))
    /\ (d' = disk w
        \/ exists p, (0 < p)%Q
                     /\ d' = repriced (tokenAddress entry) (chainId entry) (chatId entry)
                                      p (disk w))
    /\ Forall (sweepEvent (monitorBot w) d0) evs.
Proof.
  intros Hin.
  destruct (checkEntry_cases tokenDataMap entry w)
    as [H|[H|(tokenData & _ & _ & Hcur & _ & H)]]; rewrite H.
  - exists (disk w), [Console (LogNoData (symbol entry) (chainId entry))].
    split; [by destruct w|]. split; [by left|]. by repeat constructor.
  - exists (disk w), []. rewrite app_nil_r, withTrace_same, withDisk_same.
    split; [done|]. split; [by left | constructor].
  - eexists _, _. split; [reflexivity|]. split; [right; by exists (priceUsd tokenData)|].
    constructor; [done|]. constructor; [|constructor].
    by apply alertNotice_event.
Qed.

Lemma forOf_inv_in {A} (I : World -> Prop) (xs : list A) (body : A -> M unit) :
  (forall x w, x ∈ xs -> I w -> exists w', body x w = (Ok tt, w') /\ I w') ->
  forall w, I w -> exists w', forOf xs body w = (Ok tt, w') /\ I w'.
Proof.
  induction xs as [|x xs IH]; intros Hbody w Hw; cbn.
  - by exists w.
  - unfold bind. destruct (Hbody x w (list_elem_of_here _ _) Hw) as (w1 & -> & Hw1).
    apply IH; [|done]. intros y w' Hy. apply Hbody. by apply list_elem_of_further.
Qed.

Lemma sweeping_entry w0 tokenDataMap entry w :
  entry ∈ disk w0 -> sweeping w0 w ->
  exists w', checkEntry tokenDataMap entry w = (Ok tt, w') /\ sweeping w0 w'.
Proof.
  intros Hin (d1 & evs1 & -> & Hd1 & Hevs1).
  destruct (checkEntry_shape tokenDataMap entry
              (withDisk d1 (withTrace (trace w0 ++ evs1) w0)) (disk w0) Hin)
    as (d' & evs & -> & Hd' & Hevs).
  eexists. split; [reflexivity|]. exists d', (evs1 ++ evs). split; [|split].
  - unfold withDisk, withTrace. cbn. by rewrite <- app_assoc.
  - cbn in Hd'. destruct Hd' as [->|(p & Hp & ->)]; [done|]. by apply sameBut_repriced.
  - apply Forall_app. by split.
Qed.

Lemma sweeping_chain w0 upstream chain entries w :
  (chain, entries) ∈ groupByChain (disk w0) -> sweeping w0 w ->
  exists w', checkChain upstream (chain, entries) w = (Ok tt, w') /\ sweeping w0 w'.
Proof.
  intros Hg Hw.
  assert (Hentries : forall e, e ∈ entries -> e ∈ disk w0 /\ chainId e = chain).
  { destruct (groupByChainFold (disk w0) [] []) as (Hnd & Hassoc & _);
      [constructor | done | done |].
    cbn [app] in *. fold (groupByChain (disk w0)) in *.
    pose proof (assoc_elem _ _ _ Hnd Hg) as H. rewrite Hassoc in H.
    destruct (chainGroup chain (disk w0)) as [|x xs] eqn:E; [done|].
    cbn in H. injection H as <-. rewrite <- E. intros e He.
    apply list_elem_of_In, filter_In in He as [He Hc].
    split; [by apply list_elem_of_In | by apply bool_decide_eq_true_1 in Hc]. }
  unfold checkChain, bind.
  destruct (getMultipleTokensData_events upstream chain (tokenAddress <$> entries) w)
    as (batches & evs & -> & Hevs).
  apply (forOf_inv_in (sweeping w0)).
  - intros entry w1 He. apply sweeping_entry. by apply Hentries.
  - destruct Hw as (d1 & evs1 & -> & Hd1 & Hevs1).
    exists d1, (evs1 ++ evs). split; [|split; [done|]].
    + unfold withDisk, withTrace. cbn. by rewrite <- app_assoc.
    + apply Forall_app. split; [done|].
      eapply Forall_impl; [exact Hevs|]. intros [line|c batch|ms|chat msg|t]; cbn; try done.
      intros (-> & Hne & Hsub). split; [done|]. intros a Ha.
      apply Hsub, list_elem_of_fmap in Ha as (e & -> & He).
      destruct (Hentries e He) as [Hd Hc]. by exists e.
Qed.

Lemma checkPrices_shape upstream w :
  exists d' evs,
    checkPrices upstream w = (Ok tt, withDisk d' (withTrace (trace w ++ evs) w))
    /\ Forall2 sameBut (disk w) d'
    /\ Forall (sweepEvent (monitorBot w) (disk w)) evs
    /\ (disk w = [] -> evs = []).
Proof.
  unfold checkPrices, bind, getAllWatchlist, loadWatchlist.
  destruct (length (disk w) =? 0)%nat eqn:E.
  - exists (disk w), []. rewrite app_nil_r, withTrace_same, withDisk_same.
    split; [done|]. split; [|split; [constructor | done]].
    apply Forall_Forall2_diag, Forall_forall. intros e _. by left.
  - unfold consoleLog, emit.
    destruct (forOf_inv_in (sweeping w) (groupByChain (disk w)) (checkChain upstream))
      with (w := withTrace (trace w ++ [Console (LogChecking (length (disk w)))]) w)
      as (w' & Hrun & d' & evs & -> & Hd' & Hevs).
    + intros [chain entries] w1. apply sweeping_chain.
    + exists (disk w), [Console (LogChecking (length (disk w)))].
      split; [by destruct w|]. split; [|by repeat constructor].
      apply Forall_Forall2_diag, Forall_forall. intros e _. by left.
    + rewrite Hrun. exists d', evs. split; [done|]. split; [done|]. split; [done|].
      intros Hnil. rewrite Hnil in E. discriminate.
Qed.

Lemma sweepEvent_no_sweep b d evs :
  Forall (sweepEvent b d) evs ->
  omap (fun ev => match ev with SweepBegins t => Some t | _ => None end) evs = [].
Proof.
  induction 1 as [|ev evs Hev _ IH]; [done|]. cbn. rewrite IH.
  by destruct ev.
Qed.

(** X9.  A sweep returns normally whatever upstream and the bot do, and
    touches nothing but the trace and the stored reference prices: the bot,
    the timers and the clock are as before, the watchlist has the same
    entries in the same order, each unchanged or with a positive new
    reference price.  What it adds to the trace is confined to the
    watchlist: every request asks, for one chain, only addresses watched on
    that chain; every message goes to the chat of a stored entry and was
    accepted by the bot, so none is recorded without a bot; a sweep never
    starts another sweep; on an empty watchlist it does nothing at all. *)
Theorem sweep_frame (upstream : Upstream) (w : World) :
  exists d' evs,
    checkPrices upstream w = (Ok tt, withDisk d' (withTrace (trace w ++ evs) w))
    /\ Forall2 sameBut (disk w) d'
    /\ Forall (sweepEvent (monitorBot w) (disk w)) evs
    /\ (monitorBot w = None -> delivered (withTrace evs w) = [])
    /\ sweeps (withTrace evs w) = []
    /\ (disk w = [] -> run (checkPrices upstream) w = w).
Proof.
  destruct (checkPrices_shape upstream w) as (d' & evs & Hrun & Hd' & Hevs & Hnil).
  exists d', evs. split; [done|]. split; [done|]. split; [done|]. split; [|split].
  - intros Hbot. unfold delivered. cbn. clear Hrun Hnil.
    induction Hevs as [|ev evs Hev _ IH]; [done|]. cbn. rewrite IH.
    destruct ev as [line|c batch|ms|chat msg|t]; try done.
    destruct Hev as (_ & bot & Hb & _). congruence.
  - unfold sweeps. cbn. by eapply sweepEvent_no_sweep.
  - intros Hd. unfold run. rewrite Hrun. cbn. rewrite (Hnil Hd), app_nil_r, withTrace_same.
    rewrite Hd in Hd'. apply Forall2_nil_inv_l in Hd'. subst d'.
    rewrite <- Hd. apply withDisk_same.
Qed.

(** ** A sweep without market data *)

Lemma forOf_rel {A} (R : A -> list Event -> Prop) (xs : list A) (body : A -> M unit) :
  (forall x w, x ∈ xs ->
               exists evs, body x w = (Ok tt, withTrace (trace w ++ evs) w) /\ R x evs) ->
  forall w, exists evss,
      forOf xs body w = (Ok tt, withTrace (trace w ++ concat evss) w)
      /\ Forall2 R xs evss.
Proof.
  induction xs as [|x xs IH]; intros Hbody w; cbn.
  - exists []. cbn. rewrite app_nil_r, withTrace_same. split; [done | constructor].
  - unfold bind. destruct (Hbody x w (list_elem_of_here _ _)) as (evs & -> & Hx).
    destruct (IH (fun y w' Hy => Hbody y w' (list_elem_of_further _ _ _ Hy))
                 (withTrace (trace w ++ evs) w)) as (evss & -> & Hall).
    exists (evs :: evss). split; [|by constructor].
    cbn. f_equal. unfold withTrace. cbn. by rewrite <- app_assoc.
Qed.

Lemma absorb_nothing upstream chain batches :
  (forall c addrs, upstream c addrs = inl [] \/ exists err, upstream c addrs = inr err) ->
  fold_left (absorb upstream chain) batches ∅ = ∅.
Proof.
  intros Hdown. induction batches as [|batch batches IH]; [done|].
  cbn [fold_left]. replace (absorb upstream chain ∅ batch) with (∅ : gmap string TokenData);
    [done|].
  unfold absorb. by destruct (Hdown chain batch) as [->|[err ->]].
Qed.

Lemma fetchEvent_quiet chain addrs evs :
  Forall (fetchEvent chain addrs) evs -> Forall quietEvent evs /\ unanswered evs = [].
Proof.
  induction 1 as [|ev evs Hev _ [IH1 IH2]]; [by split|].
  split.
  - constructor; [|done]. by destruct ev as [[]| | | |].
  - unfold unanswered in *. cbn. rewrite IH2. by destruct ev as [[]| | | |].
Qed.

Lemma unanswered_app evs evs' : unanswered (evs ++ evs') = unanswered evs ++ unanswered evs'.
Proof. apply omap_app. Qed.

Lemma quiet_silent evs w :
  Forall quietEvent evs ->
  delivered (withTrace evs w) = [] /\ detections (withTrace evs w) = [].
Proof.
  unfold delivered, detections. cbn.
  induction 1 as [|ev evs Hev _ [IH1 IH2]]; [by split|].
  cbn. rewrite IH1, IH2. by destruct ev as [[]| | | |].
Qed.

Lemma checkChain_offline upstream group w :
  (forall c addrs, upstream c addrs = inl [] \/ exists err, upstream c addrs = inr err) ->
  exists evs,
    checkChain upstream group w = (Ok tt, withTrace (trace w ++ evs) w)
    /\ Forall quietEvent evs
    /\ unanswered evs = (fun e => (symbol e, chainId e)) <$> group.2.
Proof.
  intros Hdown. destruct group as [chain entries]. unfold checkChain, bind.
  destruct (getMultipleTokensData_events upstream chain (tokenAddress <$> entries) w)
    as (batches & evs & -> & Hevs).
  rewrite (absorb_nothing _ _ _ Hdown).
  destruct (forOf_rel (fun e evs => evs = [Console (LogNoData (symbol e) (chainId e))])
                      entries (checkEntry ∅)) with (w := withTrace (trace w ++ evs) w)
    as (evss & -> & Hall).
  { intros e w1 _. eexists. split; [|reflexivity]. by apply checkEntry_nodata. }
  exists (evs ++ concat evss). split; [|split].
  - f_equal. unfold withTrace. cbn. by rewrite <- app_assoc.
  - apply Forall_app. split; [by apply (fetchEvent_quiet _ _ _ Hevs)|].
    clear -Hall. induction Hall as [|e evs' es evss -> _ IH]; cbn; [constructor|].
    by constructor.
  - rewrite unanswered_app, (proj2 (fetchEvent_quiet _ _ _ Hevs)). cbn.
    clear -Hall. induction Hall as [|e evs' es evss -> _ IH]; cbn; [done|].
    by rewrite <- IH.
Qed.

(** X10.  When upstream returns no pair or fails for every request, a sweep
    still returns normally and changes nothing but the trace: the watchlist
    keeps every reference price, no alert is detected, no message is sent,
    and each entry of the watchlist is reported once as having no data. *)
Theorem sweep_without_data_is_silent (upstream : Upstream) (w : World) :
  (forall chain addrs,
      upstream chain addrs = inl [] \/ exists err, upstream chain addrs = inr err) ->
  exists evs,
    checkPrices upstream w = (Ok tt, withTrace (trace w ++ evs) w)
    /\ delivered (withTrace evs w) = []
    /\ detections (withTrace evs w) = []
    /\ unanswered evs ≡ₚ (fun e => (symbol e, chainId e)) <$> disk w.
Proof.
  intros Hdown. unfold checkPrices, bind, getAllWatchlist, loadWatchlist.
  destruct (length (disk w) =? 0)%nat eqn:E.
  - exists []. rewrite app_nil_r, withTrace_same. repeat split.
    destruct (disk w); [done | discriminate].
  - unfold consoleLog, emit.
    destruct (forOf_rel (fun group evs =>
                           Forall quietEvent evs
                           /\ unanswered evs = (fun e => (symbol e, chainId e)) <$> group.2)
                        (groupByChain (disk w)) (checkChain upstream))
      with (w := withTrace (trace w ++ [Console (LogChecking (length (disk w)))]) w)
      as (evss & -> & Hall).
    { intros group w1 _. by apply checkChain_offline. }
    exists (Console (LogChecking (length (disk w))) :: concat evss).
    assert (Hquiet : Forall quietEvent (concat evss)).
    { clear -Hall. induction Hall as [|g evs gs evss [Hq _] _ IH]; cbn; [constructor|].
      apply Forall_app. by split. }
    assert (Hun : unanswered (concat evss)
                  = (fun e => (symbol e, chainId e)) <$> concat (groupByChain (disk w)).*2).
    { clear -Hall. induction Hall as [|g evs gs evss [_ Hu] _ IH]; cbn; [done|].
      by rewrite unanswered_app, fmap_app, Hu, IH. }
    split; [|split; [|split]].
    + f_equal. unfold withTrace. cbn. by rewrite <- app_assoc.
    + apply (quiet_silent (_ :: _)). by constructor.
    + apply (quiet_silent (_ :: _)). by constructor.
    + change (unanswered (Console (LogChecking (length (disk w))) :: concat evss))
        with (unanswered (concat evss)).
      rewrite Hun. apply fmap_Permutation.
      destruct (groupByChainFold (disk w) [] []) as (_ & _ & Hperm);
        [constructor | done | done |].
      exact Hperm.
Qed.

Lemma sweep_without_data_is_silent_witness :
  exists evs,
    checkPrices offline (Sample.boot [Sample.owl] (Some Sample.okBot))
    = (Ok tt, withTrace (trace (Sample.boot [Sample.owl] (Some Sample.okBot)) ++ evs)
                        (Sample.boot [Sample.owl] (Some Sample.okBot)))
    /\ unanswered evs ≡ₚ [("OWL"%string, "solana"%string)].
Proof.
  assert (Hdown : forall chain addrs,
             offline chain addrs = inl [] \/ exists err, offline chain addrs = inr err).
  { intros chain addrs. right. by exists "ECONNRESET"%string. }
  destruct (sweep_without_data_is_silent offline
              (Sample.boot [Sample.owl] (Some Sample.okBot)) Hdown)
    as (evs & Hrun & _ & _ & Hun).
  exists evs. split; [exact Hrun | exact Hun].
Defined.

(** ** The timers of the monitor *)

Lemma earliest_fold ts :
  forall best t,
    fold_left (fun best t =>
                 match best with
                 | Some b => if (due t <? due b)%N then Some t else Some b
                 | None => Some t
                 end) ts best = Some t ->
    best = Some t \/ t ∈ ts.
Proof.
  induction ts as [|x ts IH]; intros best t; cbn [fold_left]; [auto|].
  intros H. apply IH in H as [H|H]; [|right; by apply list_elem_of_further].
  destruct best as [b|].
  - destruct (due x <? due b)%N; [|auto]. injection H as <-. right. apply list_elem_of_here.
  - injection H as <-. right. apply list_elem_of_here.
Qed.

Lemma earliest_elem ts t : earliest ts = Some t -> t ∈ ts.
Proof. intros H. by destruct (earliest_fold ts None t H). Qed.

Lemma filter_elem {A} (f : A -> bool) (l : list A) (x : A) :
  x ∈ List.filter f l <-> x ∈ l /\ f x = true.
Proof. rewrite !list_elem_of_In. apply filter_In. Qed.

Lemma NoDup_fmap_filter {A B} (g : A -> B) (f : A -> bool) (l : list A) :
  NoDup (g <$> l) -> NoDup (g <$> List.filter f l).
Proof.
  induction l as [|x l IH]; cbn; [done|].
  rewrite NoDup_cons. intros [Hx Hl]. destruct (f x); cbn; [|by apply IH].
  apply NoDup_cons. split; [|by apply IH].
  intros Hin. apply Hx. apply list_elem_of_fmap in Hin as (y & -> & Hy).
  apply filter_elem in Hy as [Hy _]. by apply list_elem_of_fmap_2.
Qed.

Lemma rearm_handles now t ts :
  (forall t', t' ∈ rearm now t ts -> handle t' ∈ handle <$> ts)
  /\ (NoDup (handle <$> ts) -> NoDup (handle <$> rearm now t ts)).
Proof.
  unfold rearm. destruct (period t) as [p|].
  - assert (E : handle <$> ((fun t' => if (handle t' =? handle t)%nat
                                      then {| handle := handle t;
                                              due := (now + p)%N;
                                              period := Some p |}
                                      else t') <$> ts) = handle <$> ts).
    { rewrite <- list_fmap_compose. apply list_fmap_ext. intros i x _. cbn.
      destruct (handle x =? handle t)%nat eqn:E; [|done]. cbn.
      by apply Nat.eqb_eq in E. }
    split.
    + intros t' Ht'. rewrite <- E. by apply list_elem_of_fmap_2.
    + by rewrite E.
  - split.
    + intros t' Ht'. apply filter_elem in Ht' as [Ht' _]. by apply list_elem_of_fmap_2.
    + apply NoDup_fmap_filter.
Qed.

Lemma fireNext_spec upstream w t :
  earliest (timers w) = Some t ->
  exists w',
    fireNext upstream w = Some w'
    /\ timers w' = rearm (N.max (clock w) (due t)) t (timers w)
    /\ nextHandle w' = nextHandle w
    /\ monitorInterval w' = monitorInterval w
    /\ clock w' = N.max (clock w) (due t)
    /\ sweeps w' = sweeps w ++ [N.max (clock w) (due t)].
Proof.
  intros Ht. unfold fireNext. rewrite Ht. cbv zeta. eexists. split; [reflexivity|].
  unfold run, bind, emit.
  set (w1 := withTrace _ _).
  destruct (checkPrices_shape upstream w1) as (d' & evs & -> & _ & Hevs & _).
  cbn. repeat split. unfold sweeps. cbn.
  rewrite !omap_app, (sweepEvent_no_sweep _ _ _ Hevs). cbn. by rewrite app_nil_r.
Qed.

Lemma oneInterval_start bot intervalMs w :
  oneInterval w -> oneInterval (run (startMonitor bot intervalMs) w).
Proof.
  intros (Hnd & Hlt & Hper).
  set (kept := match monitorInterval w with
               | Some h => List.filter (fun t => negb (handle t =? h)%nat) (timers w)
               | None => timers w
               end).
  assert (Hkept : forall t, t ∈ kept -> t ∈ timers w /\ period t = None).
  { intros t Ht. unfold kept in Ht. destruct (monitorInterval w) as [h|] eqn:Hh.
    - apply filter_elem in Ht as [Ht Hne]. split; [done|].
      destruct (period t) as [p|] eqn:Hp; [|done].
      assert (Hs : is_Some (period t)) by (rewrite Hp; eauto).
      pose proof (Hper t Ht Hs) as E.
      assert (h = handle t) as -> by congruence.
      rewrite Nat.eqb_refl in Hne. discriminate.
    - split; [done|]. destruct (period t) as [p|] eqn:Hp; [|done].
      assert (Hs : is_Some (period t)) by (rewrite Hp; eauto).
      pose proof (Hper t Ht Hs) as E. congruence. }
  assert (Hndk : NoDup (handle <$> kept)).
  { unfold kept. destruct (monitorInterval w); [by apply NoDup_fmap_filter | done]. }
  assert (Hrun : timers (run (startMonitor bot intervalMs) w)
                 = kept ++ [{| handle := nextHandle w; due := (clock w + 5000)%N;
                               period := None |};
                            {| handle := S (nextHandle w);
                               due := (clock w + timerDelay (default 60000%N intervalMs))%N;
                               period := Some (timerDelay (default 60000%N intervalMs)) |}]
                 /\ nextHandle (run (startMonitor bot intervalMs) w) = S (S (nextHandle w))
                 /\ monitorInterval (run (startMonitor bot intervalMs) w)
                    = Some (S (nextHandle w))).
  { unfold run, startMonitor, bind, consoleLog, emit, setTimeout, setInterval, clearInterval,
      kept.
    change (timerDelay 5000) with 5000%N.
    cbn -[timerDelay]. destruct (monitorInterval w) as [h|]; cbn -[timerDelay];
      by rewrite <- app_assoc. }
  destruct Hrun as (Hts & Hnext & Hint).
  unfold oneInterval. rewrite Hts, Hnext, Hint. split; [|split].
  - rewrite fmap_app. apply NoDup_app. split; [done|]. split.
    + intros x Hx Hx'. apply list_elem_of_fmap in Hx as (t & -> & Ht).
      destruct (Hkept t Ht) as [Ht' _]. specialize (Hlt t Ht'). cbn in Hx'.
      apply elem_of_cons in Hx' as [Hx'|Hx']; [lia|].
      apply list_elem_of_singleton in Hx'. lia.
    + cbn. apply NoDup_cons. split; [|apply NoDup_singleton].
      rewrite list_elem_of_singleton. lia.
  - intros t Ht. apply elem_of_app in Ht as [Ht|Ht].
    + destruct (Hkept t Ht) as [Ht' _]. specialize (Hlt t Ht'). lia.
    + apply elem_of_cons in Ht as [->|Ht]; [cbn; lia|].
      apply list_elem_of_singleton in Ht as ->. cbn. lia.
  - intros t Ht [p Hp]. apply elem_of_app in Ht as [Ht|Ht].
    + destruct (Hkept t Ht) as [_ Hnone]. congruence.
    + apply elem_of_cons in Ht as [->|Ht]; [discriminate|].
      by apply list_elem_of_singleton in Ht as ->.
Qed.

Lemma oneInterval_stop w : oneInterval w -> oneInterval (run stopMonitor w).
Proof.
  intros (Hnd & Hlt & Hper). unfold run, stopMonitor.
  destruct (monitorInterval w) as [h|] eqn:Hh.
  2:{ cbn. unfold oneInterval. rewrite Hh. by repeat split. }
  cbn. unfold oneInterval. cbn. split; [by apply NoDup_fmap_filter|]. split.
  - intros t Ht. apply filter_elem in Ht as [Ht _]. by apply Hlt.
  - intros t Ht Hp. apply filter_elem in Ht as [Ht Hne].
    pose proof (Hper t Ht Hp) as E.
    assert (h = handle t) as -> by congruence.
    rewrite Nat.eqb_refl in Hne. discriminate.
Qed.

Lemma oneInterval_fire upstream w w' :
  oneInterval w -> fireNext upstream w = Some w' -> oneInterval w'.
Proof.
  intros (Hnd & Hlt & Hper) Hfire.
  destruct (earliest (timers w)) as [t|] eqn:Ht;
    [|unfold fireNext in Hfire; by rewrite Ht in Hfire].
  destruct (fireNext_spec upstream w t Ht) as (w1 & Hw1 & Hts & Hnext & Hint & _).
  rewrite Hfire in Hw1. injection Hw1 as <-.
  pose proof (earliest_elem _ _ Ht) as Hin.
  destruct (rearm_handles (N.max (clock w) (due t)) t (timers w)) as [Hsub Hnd'].
  unfold oneInterval. rewrite Hts, Hnext, Hint. split; [by apply Hnd'|]. split.
  - intros t' Ht'. apply Hsub, list_elem_of_fmap in Ht' as (t0 & -> & Ht0). by apply Hlt.
  - intros t' Ht' Hp'. unfold rearm in Ht'. destruct (period t) as [p|] eqn:Hp.
    + apply list_elem_of_fmap in Ht' as (t0 & -> & Ht0).
      destruct (handle t0 =? handle t)%nat eqn:E.
      * cbn. apply Hper; [done|]. rewrite Hp. eauto.
      * by apply Hper.
    + apply filter_elem in Ht' as [Ht' _]. by apply Hper.
Qed.

(** X11.  At most one interval is ever armed.  If the timers have distinct
    handles below the next handle and the only periodic timer is the one that
    [monitorInterval] holds, the same is true after [startMonitor] (a restart
    clears the interval of the previous start), after [stopMonitor], and
    after every turn of the event loop; in such a world two periodic timers
    are the same timer. *)
Theorem monitor_keeps_one_interval (w : World) :
  oneInterval w ->
  (forall bot intervalMs, oneInterval (run (startMonitor bot intervalMs) w))
  /\ oneInterval (run stopMonitor w)
  /\ (forall upstream w', fireNext upstream w = Some w' -> oneInterval w')
  /\ (forall t t', t ∈ timers w -> t' ∈ timers w ->
                   is_Some (period t) -> is_Some (period t') -> t = t').
Proof.
  intros Hw. split; [|split; [|split]].
  - intros bot intervalMs. by apply oneInterval_start.
  - by apply oneInterval_stop.
  - intros upstream w'. by apply oneInterval_fire.
  - destruct Hw as (Hnd & _ & Hper). intros t t' Ht Ht' Hp Hp'.
    pose proof (Hper t Ht Hp) as E. rewrite (Hper t' Ht' Hp') in E. injection E as E.
    apply list_elem_of_lookup in Ht as [i Hi]. apply list_elem_of_lookup in Ht' as [j Hj].
    assert (i = j) as ->.
    { apply (NoDup_lookup (handle <$> timers w) i j (handle t)); [done|..].
      - by rewrite list_lookup_fmap, Hi.
      - rewrite list_lookup_fmap, Hj. cbn. by rewrite E. }
    congruence.
Qed.

Lemma monitor_keeps_one_interval_witness :
  oneInterval (run stopMonitor (Sample.boot [Sample.owl] None))
  /\ oneInterval (run (startMonitor Sample.okBot None) (Sample.boot [Sample.owl] None)).
Proof.
  assert (H : oneInterval (Sample.boot [Sample.owl] None)).
  { unfold oneInterval. cbn. split; [constructor|].
    split; intros t Ht; by apply elem_of_nil in Ht. }
  destruct (monitor_keeps_one_interval (Sample.boot [Sample.owl] None) H)
    as (Hstart & Hstop & _).
  split; [exact Hstop | exact (Hstart Sample.okBot None)].
Defined.

(** ** The cadence of the sweeps *)

Lemma interval_turns upstream n :
  forall w h d p,
    timers w = [{| handle := h; due := d; period := Some p |}] ->
    (clock w <= d)%N -> (0 < p)%N ->
    exists w',
      turns upstream n w = Some w'
      /\ sweeps w' = sweeps w ++ ((fun k => (d + p * N.of_nat k)%N) <$> seq 0 n).
Proof.
  induction n as [|n IH]; intros w h d p Hts Hclock Hp.
  - exists w. cbn. by rewrite app_nil_r.
  - set (t := {| handle := h; due := d; period := Some p |}).
    assert (He : earliest (timers w) = Some t) by (by rewrite Hts).
    destruct (fireNext_spec upstream w t He) as (w1 & Hfire & Hts1 & _ & _ & Hc1 & Hs1).
    cbn [turns]. rewrite Hfire.
    assert (Hmax : N.max (clock w) d = d) by lia.
    cbn [due t] in Hc1, Hs1. rewrite Hmax in Hc1, Hs1.
    destruct (IH w1 h (d + p)%N p) as (w' & Hturns & Hs'); [| lia | done |].
    { rewrite Hts1, Hts. unfold rearm. cbn [period t fmap list_fmap handle due].
      by rewrite Nat.eqb_refl, Hmax. }
    exists w'. split; [done|]. rewrite Hs', Hs1, <- app_assoc. f_equal.
    cbn [seq fmap list_fmap app]. f_equal; [f_equal; lia|].
    rewrite <- fmap_S_seq, <- list_fmap_compose. apply list_fmap_ext.
    intros i k _. cbn. lia.
Qed.

(** X12.  Started with no timer pending and an interval from five seconds
    up to [2^31 - 1] ms, the longest delay of a timer (60000 ms when no
    interval is given), the monitor begins its first sweep 5000 ms after the
    start and the following ones at every multiple of the interval after the
    start, whatever upstream, the bot and the watchlist are.  An interval
    beyond the longest delay is taken as 1 ms: the sweeps then begin every
    millisecond. *)
Theorem monitor_cadence (upstream : Upstream) (bot : Bot) (intervalMs : option N)
        (w : World) (n : nat) :
  timers w = [] ->
  (5000 <= default 60000 intervalMs)%N ->
  (default 60000 intervalMs <= 2147483647)%N ->
  (exists w',
    turns upstream (S n) (run (startMonitor bot intervalMs) w) = Some w'
    /\ sweeps w'
       = sweeps w ++ (clock w + 5000)%N
                  :: ((fun k => (clock w + default 60000 intervalMs * N.of_nat k)%N)
                        <$> seq 1 n))
  /\ (sweeps <$> turns (Sample.market 0.94) 3
                       (run (startMonitor Sample.okBot (Some 2147483648%N))
                            (Sample.boot [Sample.owl] None)))
     = Some [1; 2; 3]%N.
Proof.
  intros Hts Hp Hmax. split; [|by vm_compute].
  set (p := default 60000%N intervalMs) in *.
  assert (Hdelay : timerDelay p = p).
  { unfold timerDelay.
    destruct (N.leb_spec 1 p); [|lia]. destruct (N.leb_spec p 2147483647); [done|lia]. }
  set (started := run (startMonitor bot intervalMs) w).
  set (T := {| handle := nextHandle w; due := (clock w + 5000)%N; period := None |}).
  set (I := {| handle := S (nextHandle w); due := (clock w + p)%N; period := Some p |}).
  assert (Hstarted : timers started = [T; I] /\ clock started = clock w
                     /\ sweeps started = sweeps w).
  { unfold started, run, startMonitor, bind, consoleLog, emit, setTimeout, setInterval,
      clearInterval, sweeps.
    change (timerDelay 5000) with 5000%N. fold p. rewrite Hdelay.
    cbn. destruct (monitorInterval w) as [h|]; cbn; rewrite Hts; cbn;
      rewrite omap_app; cbn; by rewrite app_nil_r. }
  destruct Hstarted as (Hts0 & Hc0 & Hs0).
  assert (He : earliest (timers started) = Some T).
  { rewrite Hts0. unfold earliest. cbn.
    destruct (N.ltb_spec (clock w + p) (clock w + 5000)); [lia | done]. }
  destruct (fireNext_spec upstream started T He) as (w1 & Hfire & Hts1 & _ & _ & Hc1 & Hs1).
  cbn [turns]. rewrite Hfire.
  destruct (interval_turns upstream n w1 (S (nextHandle w)) (clock w + p)%N p)
    as (w' & Hturns & Hs'); [| | lia |].
  { rewrite Hts1, Hts0. unfold rearm, T, I. cbn [period List.filter handle].
    rewrite Nat.eqb_refl.
    destruct (Nat.eqb_spec (S (nextHandle w)) (nextHandle w)); [lia | reflexivity]. }
  { rewrite Hc1, Hc0. cbn. lia. }
  exists w'. split; [done|]. rewrite Hs', Hs1, Hs0, Hc0, <- app_assoc. f_equal.
  cbn [app due T]. f_equal; [lia|].
  rewrite <- fmap_S_seq, <- list_fmap_compose. apply list_fmap_ext.
  intros i k _. cbn. lia.
Qed.

Lemma monitor_cadence_witness :
  exists w',
    turns (Sample.market 0.94) 3 (run (startMonitor Sample.okBot None)
                                      (Sample.boot [Sample.owl] None))
    = Some w'
    /\ sweeps w' = [5000; 60000; 120000]%N.
Proof.
  assert (Hts : timers (Sample.boot [Sample.owl] None) = []) by reflexivity.
  assert (Hp : (5000 <= default 60000 (@None N))%N) by (cbn; lia).
  assert (Hmax : (default 60000 (@None N) <= 2147483647)%N) by (cbn; lia).
  destruct (proj1 (monitor_cadence (Sample.market 0.94) Sample.okBot None
                     (Sample.boot [Sample.owl] None) 2 Hts Hp Hmax))
    as (w' & Hturns & Hs).
  exists w'. split; [exact Hturns | exact Hs].
Defined.

(** * Further properties of the add command *)

Lemma send_run chat msg bot w :
  processorsBot w = Some bot ->
  Processors.send chat msg w
  = match bot chat msg with
    | None => (Ok tt, withTrace (trace w ++ [Sent chat msg]) w)
    | Some err => (Throw err, w)
    end.
Proof.
  intros Hbot. unfold Processors.send, sendMessage, emit, throw. rewrite Hbot.
  by destruct (bot chat msg).
Qed.

Lemma getTokenData_events upstream chain address w :
  exists evs,
    getTokenData upstream chain address w
    = (Ok (quoted upstream chain address), withTrace (trace w ++ evs) w)
    /\ requests evs = [[address]]
    /\ forall w0, delivered (withTrace evs w0) = [].
Proof.
  unfold getTokenData, quoted, tryCatch, httpGet, bind, emit, throw, ret, consoleError.
  destruct (upstream chain [address]) as [[|first rest]|err]; cbn.
  - by eexists.
  - by eexists.
  - eexists. split; [|split].
    + unfold withTrace. cbn. by rewrite <- app_assoc.
    + reflexivity.
    + reflexivity.
Qed.

Lemma delivered_app w evs :
  delivered (withTrace (trace w ++ evs) w) = delivered w ++ delivered (withTrace evs w).
Proof. unfold delivered. cbn. apply omap_app. Qed.

Lemma key_fresh (p : AddParams) (d : list Entry) :
  (keyOfRequest p ∉ keyOf <$> d) <-> forall e, e ∈ d -> keyOf e <> keyOfRequest p.
Proof.
  rewrite list_elem_of_fmap. split.
  - intros H e He Hk. apply H. by exists e.
  - intros H (e & Hk & He). by apply (H e He).
Qed.

(** What [processAdd] does once the first message is out. *)
Lemma processAdd_shape upstream chat chain address threshold bot w :
  processorsBot w = Some bot ->
  bot chat MsgFetching = None ->
  exists evs,
    requests evs = [[address]]
    /\ (forall w0, delivered (withTrace evs w0) = [])
    /\ Processors.processAdd upstream chat chain address threshold w
       = let w2 := withTrace (trace w ++ Sent chat MsgFetching :: evs) w in
         match quoted upstream chain address with
         | None => Processors.send chat MsgNotFound w2
         | Some tokenData =>
             let p := requestOf chat chain address threshold tokenData in
             if bool_decide (keyOfRequest p ∈ keyOf <$> disk w)
             then Processors.send chat MsgAlreadyInWatchlist w2
             else Processors.send chat (confirmation chain threshold tokenData)
                                  (withDisk (disk w ++ [entryOf p (clock w)]) w2)
         end.
Proof.
  intros Hbot Hfetch. unfold Processors.processAdd, bind.
  rewrite (send_run _ _ _ _ Hbot), Hfetch.
  set (w1 := withTrace _ w).
  destruct (getTokenData_events upstream chain address w1) as (evs & -> & Hreq & Hdel).
  exists evs. split; [done|]. split; [done|]. cbv zeta.
  replace (withTrace (trace w1 ++ evs) w1)
    with (withTrace (trace w ++ Sent chat MsgFetching :: evs) w)
    by (unfold w1, withTrace; cbn; by rewrite <- app_assoc).
  set (w2 := withTrace _ w).
  destruct (quoted upstream chain address) as [tokenData|]; [|done].
  fold (requestOf chat chain address threshold tokenData).
  destruct (addToWatchlist_cases (requestOf chat chain address threshold tokenData) w2)
    as [[(e & He & Hk) ->]|[Hfresh ->]].
  - rewrite bool_decide_eq_true_2; [done|].
    apply list_elem_of_fmap. by exists e.
  - rewrite bool_decide_eq_false_2; [done|]. by apply key_fresh.
Qed.

(** X13.  With a bot that accepts every message of the chat, the add command
    returns normally, makes one request, and sends the chat exactly two
    messages: the notice that it is fetching, then one reply.  The reply is
    [not found] when upstream has no pair, [already in your watchlist] when
    the key is stored, and otherwise the confirmation; the watchlist gains
    the new entry in the last case only. *)
Theorem processAdd_replies (upstream : Upstream) (chat chain address : string)
        (threshold : option Q) (bot : Bot) (w : World) :
  processorsBot w = Some bot ->
  (forall msg, bot chat msg = None) ->
  let w' := run (Processors.processAdd upstream chat chain address threshold) w in
  outcome (Processors.processAdd upstream chat chain address threshold) w = Ok tt
  /\ requests (drop (length (trace w)) (trace w')) = [[address]]
  /\ exists reply,
      delivered w' = delivered w ++ [(chat, MsgFetching); (chat, reply)]
      /\ match quoted upstream chain address with
         | None => reply = MsgNotFound /\ disk w' = disk w
         | Some tokenData =>
             let p := requestOf chat chain address threshold tokenData in
             if bool_decide (keyOfRequest p ∈ keyOf <$> disk w)
             then reply = MsgAlreadyInWatchlist /\ disk w' = disk w
             else reply = confirmation chain threshold tokenData
                  /\ disk w' = disk w ++ [entryOf p (clock w)]
         end.
Proof.
  intros Hbot Hok w'. unfold w', outcome, run.
  destruct (processAdd_shape upstream chat chain address threshold bot w Hbot (Hok _))
    as (evs & Hreq & Hdel & ->).
  cbv zeta. set (w2 := withTrace _ w).
  assert (Hsend : forall msg d,
             Processors.send chat msg (withDisk d w2)
             = (Ok tt, withDisk d (withTrace (trace w ++ Sent chat MsgFetching
                                                    :: evs ++ [Sent chat msg]) w))).
  { intros msg d. rewrite (send_run _ _ bot) by done. rewrite Hok.
    unfold w2, withDisk, withTrace. cbn. by rewrite <- app_assoc. }
  assert (Hsend' : forall msg,
             Processors.send chat msg w2
             = (Ok tt, withDisk (disk w)
                         (withTrace (trace w ++ Sent chat MsgFetching
                                           :: evs ++ [Sent chat msg]) w))).
  { intros msg. by rewrite <- Hsend. }
  assert (Hobs : forall msg d,
             let w3 := withDisk d (withTrace (trace w ++ Sent chat MsgFetching
                                                    :: evs ++ [Sent chat msg]) w) in
             requests (drop (length (trace w)) (trace w3)) = [[address]]
             /\ delivered w3 = delivered w ++ [(chat, MsgFetching); (chat, msg)]).
  { intros msg d. cbn. rewrite drop_app_length. split.
    - unfold requests in *. cbn. rewrite omap_app, Hreq. reflexivity.
    - unfold delivered in *. cbn. rewrite omap_app. cbn. f_equal. f_equal.
      rewrite omap_app. specialize (Hdel w). cbn in Hdel. by rewrite Hdel. }
  destruct (quoted upstream chain address) as [tokenData|].
  - destruct (bool_decide _).
    + rewrite Hsend'. destruct (Hobs MsgAlreadyInWatchlist (disk w)) as [H1 H2].
      split; [done|]. split; [exact H1|]. eexists. split; [exact H2|]. by split.
    + rewrite Hsend.
      destruct (Hobs (confirmation chain threshold tokenData)
                     (disk w ++ [entryOf (requestOf chat chain address threshold tokenData)
                                         (clock w)])) as [H1 H2].
      split; [done|]. split; [exact H1|]. eexists. split; [exact H2|]. by split.
  - rewrite Hsend'. destruct (Hobs MsgNotFound (disk w)) as [H1 H2].
    split; [done|]. split; [exact H1|]. eexists. split; [exact H2|]. by split.
Qed.

Lemma processAdd_replies_witness :
  outcome (Processors.processAdd (Sample.market 0.94) "42" "solana" "OwlMint" (Some 5%Q))
          (Sample.boot [] (Some Sample.okBot)) = Ok tt.
Proof.
  assert (Hbot : processorsBot (Sample.boot [] (Some Sample.okBot)) = Some Sample.okBot)
    by reflexivity.
  assert (Hok : forall msg, Sample.okBot "42"%string msg = None) by reflexivity.
  exact (proj1 (processAdd_replies (Sample.market 0.94) "42" "solana" "OwlMint" (Some 5%Q)
                  Sample.okBot (Sample.boot [] (Some Sample.okBot)) Hbot Hok)).
Defined.

(** X14.  The add command stores the entry before it confirms.  When the bot
    accepts the first message but rejects the confirmation, the command
    throws the error of the bot, the chat has received the fetching notice
    only, and the new entry is in the watchlist all the same. *)
Theorem processAdd_stores_before_confirming (upstream : Upstream)
        (chat chain address : string) (threshold : option Q) (bot : Bot) (w : World)
        (tokenData : TokenData) (err : string) :
  processorsBot w = Some bot ->
  bot chat MsgFetching = None ->
  quoted upstream chain address = Some tokenData ->
  (keyOfRequest (requestOf chat chain address threshold tokenData) ∉ keyOf <$> disk w) ->
  bot chat (confirmation chain threshold tokenData) = Some err ->
  let w' := run (Processors.processAdd upstream chat chain address threshold) w in
  outcome (Processors.processAdd upstream chat chain address threshold) w = Throw err
  /\ disk w' = disk w ++ [entryOf (requestOf chat chain address threshold tokenData) (clock w)]
  /\ delivered w' = delivered w ++ [(chat, MsgFetching)].
Proof.
  intros Hbot Hfetch Hq Hfresh Hrej w'. unfold w', outcome, run.
  destruct (processAdd_shape upstream chat chain address threshold bot w Hbot Hfetch)
    as (evs & Hreq & Hdel & ->).
  cbv zeta. rewrite Hq. rewrite bool_decide_eq_false_2 by done.
  rewrite (send_run _ _ bot) by done. rewrite Hrej. cbn.
  split; [done|]. split; [done|].
  unfold delivered in *. rewrite omap_app. cbn. specialize (Hdel w). cbn in Hdel.
  by rewrite Hdel.
Qed.

Lemma processAdd_stores_before_confirming_witness :
  length (disk (run (Processors.processAdd (Sample.market 0.94) "42" "solana" "OwlMint"
                                           (Some 5%Q))
                    (Sample.boot [] (Some pickyBot)))) = 1%nat.
Proof.
  assert (Hbot : processorsBot (Sample.boot [] (Some pickyBot)) = Some pickyBot)
    by reflexivity.
  assert (Hfetch : pickyBot "42"%string MsgFetching = None) by reflexivity.
  assert (Hq : quoted (Sample.market 0.94) "solana" "OwlMint"
               = Some (toTokenData "solana" "OwlMint"
                                   (Sample.quote "OwlMint" (Some 0.94%Q))))
    by reflexivity.
  assert (Hfresh : keyOfRequest (requestOf "42" "solana" "OwlMint" (Some 5%Q)
                                   (toTokenData "solana" "OwlMint"
                                                (Sample.quote "OwlMint" (Some 0.94%Q))))
                   ∉ keyOf <$> disk (Sample.boot [] (Some pickyBot))).
  { cbn. apply not_elem_of_nil. }
  assert (Hrej : pickyBot "42"%string
                   (confirmation "solana" (Some 5%Q)
                      (toTokenData "solana" "OwlMint" (Sample.quote "OwlMint" (Some 0.94%Q))))
                 = Some "ETELEGRAM: 400 Bad Request: can't parse entities"%string)
    by reflexivity.
  destruct (processAdd_stores_before_confirming (Sample.market 0.94) "42" "solana" "OwlMint"
              (Some 5%Q) pickyBot (Sample.boot [] (Some pickyBot)) _ _
              Hbot Hfetch Hq Hfresh Hrej) as (_ & Hdisk & _).
  rewrite Hdisk. reflexivity.
Defined.

(** X15.  When the first message cannot be sent, because no bot is set or
    because the bot rejects it, the add command throws at once: it makes no
    request, stores nothing and leaves the world as it was. *)
Theorem processAdd_needs_the_bot (upstream : Upstream) (chat chain address : string)
        (threshold : option Q) (w : World) :
  (processorsBot w = None
   \/ exists bot, processorsBot w = Some bot /\ is_Some (bot chat MsgFetching)) ->
  exists err,
    Processors.processAdd upstream chat chain address threshold w = (Throw err, w).
Proof.
  intros [Hnone|(bot & Hbot & err & Herr)]; unfold Processors.processAdd, bind.
  - unfold Processors.send at 1. rewrite Hnone. by eexists.
  - rewrite (send_run _ _ bot) by done. rewrite Herr. by eexists.
Qed.

Lemma processAdd_needs_the_bot_witness :
  exists err,
    Processors.processAdd Sample.echo "42" "solana" "OwlMint" None
                          (Sample.boot [Sample.owl] (Some Sample.downBot))
    = (Throw err, Sample.boot [Sample.owl] (Some Sample.downBot)).
Proof.
  apply processAdd_needs_the_bot. right. exists Sample.downBot.
  split; [reflexivity|]. by eexists.
Defined.

(** * Further properties of the formatting *)

(** ** Escaping *)

Lemma escapeChar_special c :
  escapeChar c = if special c then ["\"%char; c] else [c].
Proof. reflexivity. Qed.

Lemma string_of_app l k :
  string_of_list_ascii (l ++ k)
  = (string_of_list_ascii l ++ string_of_list_ascii k)%string.
Proof.
  induction l as [|c l IH]; [done|]. cbn. by rewrite append_cons, IH.
Qed.

Lemma escape_length l :
  length (concat (escapeChar <$> l)) = (length l + length (List.filter special l))%nat.
Proof.
  induction l as [|c l IH]; [done|]. cbn [fmap list_fmap concat List.filter].
  rewrite length_app, IH, escapeChar_special. destruct (special c); cbn; lia.
Qed.

Lemma escape_plain l :
  concat (escapeChar <$> l) = l <-> List.filter special l = [].
Proof.
  split.
  - intros H. apply (f_equal length) in H. rewrite escape_length in H.
    destruct (List.filter special l); [done|]. cbn in H. lia.
  - induction l as [|c l IH]; [done|]. cbn [fmap list_fmap concat List.filter].
    rewrite escapeChar_special. destruct (special c); [done|].
    intros H. cbn. by rewrite IH.
Qed.

Lemma escape_inj l :
  forall k, concat (escapeChar <$> l) = concat (escapeChar <$> k) -> l = k.
Proof.
  assert (Hbs : special "\"%char = false) by reflexivity.
  assert (Hhead : forall c k rest,
             special c = true -> c :: rest = concat (escapeChar <$> k) -> False).
  { intros c [|c' k] rest Hc; cbn [fmap list_fmap concat]; [done|].
    rewrite escapeChar_special. destruct (special c') eqn:Hc'; cbn; intros [= -> _];
      congruence. }
  induction l as [|c l IH]; intros [|c' k]; cbn [fmap list_fmap concat].
  - done.
  - rewrite escapeChar_special. by destruct (special c').
  - rewrite escapeChar_special. by destruct (special c).
  - rewrite !escapeChar_special.
    destruct (special c) eqn:Hc, (special c') eqn:Hc'; cbn.
    + intros [= -> H]. f_equal. by apply IH.
    + intros [= <- H]. destruct (Hhead _ _ _ Hc H).
    + intros [= -> H]. symmetry in H. destruct (Hhead _ _ _ Hc' H).
    + intros [= -> H]. f_equal. by apply IH.
Qed.

Lemma escape_guarded l :
  forall prev, guarded prev (concat (escapeChar <$> l)).
Proof.
  induction l as [|c l IH]; intros prev; cbn [fmap list_fmap concat]; [done|].
  rewrite escapeChar_special. destruct (special c) eqn:Hc; cbn [app guarded].
  - split; [by intros [=]|]. split; [done|]. apply IH.
  - split; [congruence|]. apply IH.
Qed.

(** X16.  [escapeMarkdown] puts a backslash before each of the characters
    underscore, star, backquote and opening bracket and changes nothing
    else: it distributes over concatenation, lengthens the text by the
    number of these characters, leaves a text unchanged exactly when it has
    none of them, never maps two texts to the same one, and in its result
    every such character comes right after a backslash. *)
Theorem escapeMarkdown_faithful (s t : string) :
  escapeMarkdown (s ++ t)%string = (escapeMarkdown s ++ escapeMarkdown t)%string
  /\ String.length (escapeMarkdown s)
     = (String.length s + length (List.filter special (list_ascii_of_string s)))%nat
  /\ (escapeMarkdown s = s <-> List.filter special (list_ascii_of_string s) = [])
  /\ (escapeMarkdown s = escapeMarkdown t -> s = t)
  /\ guarded " "%char (list_ascii_of_string (escapeMarkdown s)).
Proof.
  unfold escapeMarkdown. split; [|split; [|split; [|split]]].
  - by rewrite list_of_append, fmap_app, concat_app, string_of_app.
  - by rewrite <- length_list_of_string, list_ascii_of_string_of_list_ascii,
      escape_length, length_list_of_string.
  - rewrite <- escape_plain. split.
    + intros H. apply (f_equal list_ascii_of_string) in H.
      by rewrite list_ascii_of_string_of_list_ascii in H.
    + intros ->. apply string_of_list_ascii_of_string.
  - intros H. apply (f_equal list_ascii_of_string) in H.
    rewrite !list_ascii_of_string_of_list_ascii in H. apply escape_inj in H.
    apply (f_equal string_of_list_ascii) in H.
    by rewrite !string_of_list_ascii_of_string in H.
  - rewrite list_ascii_of_string_of_list_ascii. apply escape_guarded.
Qed.

(** ** Rounding at the boundary of a tier *)

Lemma Qfloor_between (n : Z) (y : Q) :
  (inject_Z n <= y)%Q -> (y < inject_Z (n + 1))%Q -> Qfloor y = n.
Proof.
  intros Hlo Hhi.
  pose proof (Qfloor_le y) as H1. pose proof (Qlt_floor y) as H2.
  assert (Ha : (inject_Z n < inject_Z (Qfloor y + 1))%Q) by (eapply Qle_lt_trans; eauto).
  assert (Hb : (inject_Z (Qfloor y) < inject_Z (n + 1))%Q) by (eapply Qle_lt_trans; eauto).
  rewrite <- Zlt_Qlt in Ha, Hb. lia.
Qed.

Lemma toFixed_spill (x : Q) :
  (999.995 <= x)%Q -> (x <= 1000)%Q -> toFixed 2 x = "1000.00"%string.
Proof.
  intros Hlo Hhi. rewrite toFixed_digits by (lra || done).
  assert (E : roundHalfUp (x * pow10 (Z.of_nat 2)) = 100000%Z).
  { unfold roundHalfUp. apply Qfloor_between.
    - change (pow10 (Z.of_nat 2)) with ((10 # 1) * (10 # 1))%Q.
      change (inject_Z 100000) with (100000 # 1). lra.
    - change (pow10 (Z.of_nat 2)) with ((10 # 1) * (10 # 1))%Q.
      change (inject_Z (100000 + 1)) with (100001 # 1). lra. }
  rewrite E. reflexivity.
Qed.

(** The quotient of an amount within half a cent below 1000 units. *)
Lemma quotient_spill (x : Q) :
  (999.995 <= x)%Q -> (x <= 1000)%Q ->
  Binary64.toFixed 2 (Binary64.round x) = "1000.00"%string.
Proof.
  intros Hlo Hhi.
  destruct (round_bounded x 1000 1000 ltac:(lra) Hhi const_1000) as (q & Hq & Hq0 & Hq1).
  assert (Hc : exists c, Binary64.round 999.995 = Binary64.Fin c /\ (999.995 <= c)%Q).
  { eexists. split; [by vm_compute | by vm_compute]. }
  destruct Hc as (c & Hc & Hle).
  pose proof (round_mono_pos 999.995 x c q ltac:(reflexivity) Hlo Hc Hq) as Hcq.
  rewrite Hq, toFixed_finite by (rewrite Qabs_pos; lra).
  apply toFixed_spill; lra.
Qed.

(** X17.  Rounding can carry a market cap over the top of its tier: a cap
    (as a double) that is less than half a cent of the unit below 1000 units
    prints as 1000.00 of the lower unit, not as 1.00 of the next one.  This
    holds just below 1e3, 1e6, 1e9 and 1e12, the quotient being computed in
    doubles. *)
Theorem formatMarketCap_spills (cap y : Q) :
  Binary64.round cap = Binary64.Fin y ->
  ((999.995 <= y)%Q -> (y < 1000)%Q -> formatMarketCap (Some cap) = "$1000.00"%string)
  /\ ((999995 <= y)%Q -> (y < 1000000)%Q ->
      formatMarketCap (Some cap) = "$1000.00K"%string)
  /\ ((999995000 <= y)%Q -> (y < 1000000000)%Q ->
      formatMarketCap (Some cap) = "$1000.00M"%string)
  /\ ((999995000000 <= y)%Q -> (y < 1000000000000)%Q ->
      formatMarketCap (Some cap) = "$1000.00B"%string).
Proof.
  intros Hy. pose proof (round_idem cap y Hy) as Hyy.
  rewrite (formatMarketCap_double cap y Hy).
  assert (Hrefl : (y == y)%Q) by reflexivity.
  split; [|split; [|split]]; intros Hlo Hhi;
    rewrite (cap_select y y Hyy Hrefl ltac:(lra));
    rewrite !Qle_bool_false by lra; rewrite ?Qle_bool_true by lra.
  - rewrite toFixed_finite by (rewrite Qabs_pos; lra).
    rewrite toFixed_spill by lra. reflexivity.
  - rewrite quotient_spill; [reflexivity|..].
    + apply Qle_shift_div_l; lra.
    + apply Qle_shift_div_r; lra.
  - rewrite quotient_spill; [reflexivity|..].
    + apply Qle_shift_div_l; lra.
    + apply Qle_shift_div_r; lra.
  - rewrite quotient_spill; [reflexivity|..].
    + apply Qle_shift_div_l; lra.
    + apply Qle_shift_div_r; lra.
Qed.

Lemma formatMarketCap_spills_witness :
  formatMarketCap (Some 999999%Q) = "$1000.00K"%string.
Proof.
  assert (Hy : Binary64.round 999999 = Binary64.Fin 999999) by (vm_compute; reflexivity).
  assert (Hlo : (999995 <= 999999)%Q) by (vm_compute; discriminate).
  assert (Hhi : (999999 < 1000000)%Q) by reflexivity.
  exact (proj1 (proj2 (formatMarketCap_spills 999999%Q 999999%Q Hy)) Hlo Hhi).
Defined.


(** * Properties of the database connection *)

Import Database.

Ltac db_simpl :=
  cbn [snd fst dbTrace say setDb setClient delay client db];
  unfold attemptFailed, MAX_RETRIES, INITIAL_RETRY_DELAY_MS;
  cbn [Nat.ltb Nat.leb snd fst dbTrace say setDb setClient delay client db];
  rewrite <- ?app_assoc; cbn [app].

(** Closes one outcome of the three attempts. *)
Ltac db_leaf k H :=
  exists k; eexists; db_simpl;
  split; [lia|]; split; [reflexivity|]; split; [reflexivity|]; split; [reflexivity|];
  split; [exact H|];
  first [ left; repeat split; (assumption || reflexivity)
        | right; repeat split; (congruence || reflexivity) ].

Lemma connectDB_cases (u : string) (server : nat -> Attempt) (s : Db) :
  u <> ""%string ->
  exists k evs,
    (1 <= k <= 3)%nat
    /\ dbTrace (snd (connectDB (Some u) server s)) = dbTrace s ++ evs
    /\ attemptsOf evs = seq 1 k
    /\ delaysOf evs = take (k - 1) [1000; 2000]%N
    /\ (forall j, (1 <= j < k)%nat -> server j <> Connects)
    /\ ((server k = Connects
         /\ fst (connectDB (Some u) server s) = Returned tt
         /\ client (snd (connectDB (Some u) server s)) = Some k
         /\ db (snd (connectDB (Some u) server s)) = Some k)
        \/ (k = 3%nat
            /\ server 3%nat <> Connects
            /\ fst (connectDB (Some u) server s) = Thrown (errorOf (server 3%nat)))).
Proof.
  intros Hu. destruct u as [|c u]; [done|]. unfold connectDB, MAX_RETRIES.
  cbn [connectLoop Nat.leb].
  assert (Hone : forall j, (1 <= j < 1)%nat -> server j <> Connects) by (intros j Hj; lia).
  destruct (server 1%nat) eqn:E1; [| | |db_leaf 1%nat Hone].
  all: assert (Htwo : forall j, (1 <= j < 2)%nat -> server j <> Connects)
    by (intros j Hj; assert (j = 1%nat) as -> by lia; congruence).
  all: cbn [Nat.add connectLoop Nat.leb];
    destruct (server 2%nat) eqn:E2; [| | |db_leaf 2%nat Htwo].
  all: assert (Hthree : forall j, (1 <= j < 3)%nat -> server j <> Connects)
    by (intros j Hj; assert (j = 1%nat \/ j = 2%nat) as [-> | ->] by lia; congruence).
  all: cbn [Nat.add connectLoop Nat.leb];
    destruct (server 3%nat) eqn:E3; db_leaf 3%nat Hthree.
Qed.

(** X18.  With a connection string set, [connectDB] makes the attempts 1, 2,
    3 in order and stops at the first that succeeds: it then returns, and it
    throws the error of the third attempt when none succeeds.  Before the
    second attempt it pauses 1000 ms and before the third 2000 ms; it never
    pauses after the last attempt, makes no fourth one, and never fails to
    terminate. *)
Theorem connectDB_backoff (u : string) (server : nat -> Attempt) (s : Db) :
  u <> ""%string ->
  exists k evs,
    (1 <= k <= 3)%nat
    /\ dbTrace (snd (connectDB (Some u) server s)) = dbTrace s ++ evs
    /\ attemptsOf evs = seq 1 k
    /\ delaysOf evs = take (k - 1) [1000; 2000]%N
    /\ (forall j, (1 <= j < k)%nat -> server j <> Connects)
    /\ (server k = Connects -> fst (connectDB (Some u) server s) = Returned tt)
    /\ (server k <> Connects ->
        k = 3%nat /\ fst (connectDB (Some u) server s) = Thrown (errorOf (server 3%nat))).
Proof.
  intros Hu.
  destruct (connectDB_cases u server s Hu)
    as (k & evs & Hk & Htrace & Hatt & Hdel & Hbefore & Hend).
  exists k, evs. split; [done|]. split; [done|]. split; [done|]. split; [done|].
  split; [done|]. split.
  - intros Hc. destruct Hend as [(_ & H & _)|(-> & Hne & _)]; [done | by destruct Hne].
  - intros Hne. destruct Hend as [(Hc & _)|(-> & _ & H)]; [by destruct Hne | by split].
Qed.

Lemma connectDB_backoff_witness :
  exists k evs,
    dbTrace (snd (connectDB (Some "mongodb://db"%string) (upAfter 2) fresh)) = evs
    /\ attemptsOf evs = seq 1 k
    /\ fst (connectDB (Some "mongodb://db"%string) (upAfter 2) fresh) = Returned tt.
Proof.
  assert (Hu : "mongodb://db"%string <> ""%string) by discriminate.
  destruct (connectDB_backoff "mongodb://db" (upAfter 2) fresh Hu)
    as (k & evs & Hk & Htrace & Hatt & _).
  exists k, evs. split; [exact Htrace|]. split; [exact Hatt | reflexivity].
Defined.

(** Closes one outcome of three failed attempts, [j0] being an attempt whose
    index creation failed. *)
Ltac db_failed j0 :=
  db_simpl; unfold isConnected, getDB; cbn [client db];
  first [ exfalso; assert (j0 = 1 \/ j0 = 2 \/ j0 = 3)%nat as [-> | [-> | ->]] by lia;
          congruence
        | split; [reflexivity|]; split; [reflexivity|];
          eexists _, _; split; [reflexivity|]; split; [eassumption|];
          assert (j0 = 1 \/ j0 = 2 \/ j0 = 3)%nat as [-> | [-> | ->]] by lia;
          first [lia | congruence] ].

(** X19.  A failed [connectDB] can leave the module looking connected.  When
    no attempt succeeds but some attempt got as far as creating the index,
    [connectDB] throws the last error, and yet [isConnected] answers true
    and [getDB] returns the database of the last attempt that got that
    far. *)
Theorem connectDB_failure_keeps_handle (u : string) (server : nat -> Attempt) (s : Db)
        (j0 : nat) (err0 : string) :
  u <> ""%string ->
  (forall j, (1 <= j <= 3)%nat -> server j <> Connects) ->
  (1 <= j0 <= 3)%nat ->
  server j0 = IndexFails err0 ->
  let s' := snd (connectDB (Some u) server s) in
  fst (connectDB (Some u) server s) = Thrown (errorOf (server 3%nat))
  /\ isConnected s' = true
  /\ exists d err, getDB s' = Returned d /\ server d = IndexFails err /\ (j0 <= d <= 3)%nat.
Proof.
  intros Hu Hnever Hj0 Hindex. destruct u as [|c u]; [done|].
  unfold connectDB, MAX_RETRIES. cbn [connectLoop Nat.leb].
  destruct (server 1%nat) eqn:E1; [| | |by destruct (Hnever 1%nat ltac:(lia))].
  all: cbn [Nat.add connectLoop Nat.leb];
    destruct (server 2%nat) eqn:E2; [| | |by destruct (Hnever 2%nat ltac:(lia))].
  all: cbn [Nat.add connectLoop Nat.leb];
    destruct (server 3%nat) eqn:E3; [| | |by destruct (Hnever 3%nat ltac:(lia))].
  all: db_failed j0.
Qed.

Lemma connectDB_failure_keeps_handle_witness :
  isConnected (snd (connectDB (Some "mongodb://db"%string)
                              (fun _ => IndexFails "not authorized") fresh)) = true.
Proof.
  assert (Hu : "mongodb://db"%string <> ""%string) by discriminate.
  assert (Hnever : forall j, (1 <= j <= 3)%nat ->
                             (fun _ : nat => IndexFails "not authorized") j <> Connects)
    by (intros j _; discriminate).
  assert (Hj : (1 <= 1 <= 3)%nat) by lia.
  assert (Hi : (fun _ : nat => IndexFails "not authorized") 1%nat
               = IndexFails "not authorized") by reflexivity.
  exact (proj1 (proj2 (connectDB_failure_keeps_handle "mongodb://db"
                         (fun _ => IndexFails "not authorized") fresh 1 "not authorized"
                         Hu Hnever Hj Hi))).
Defined.

(** X20.  After a [connectDB] that returned, [isConnected] is true and
    [getDB] gives the database of the client that connected.  A
    [disconnectDB] whose close succeeds closes that client, after which
    [isConnected] is false, [getDB] throws, and a second [disconnectDB] does
    nothing; when the close fails, [disconnectDB] throws and the module
    stays connected. *)
Theorem connect_disconnect_round_trip (u : string) (server : nat -> Attempt)
        (close : nat -> option string) (s : Db) :
  u <> ""%string ->
  fst (connectDB (Some u) server s) = Returned tt ->
  let s1 := snd (connectDB (Some u) server s) in
  exists k,
    server k = Connects
    /\ client s1 = Some k
    /\ getDB s1 = Returned k
    /\ isConnected s1 = true
    /\ match close k with
       | None =>
           let s2 := snd (disconnectDB close s1) in
           fst (disconnectDB close s1) = Returned tt
           /\ isConnected s2 = false
           /\ getDB s2 = Thrown (Some "Database not connected. Call connectDB() first."%string)
           /\ dbTrace s2 = dbTrace s1 ++ [Close k; DbConsole LogDisconnected]
           /\ disconnectDB close s2 = (Returned tt, s2)
       | Some err =>
           fst (disconnectDB close s1) = Thrown (Some err)
           /\ isConnected (snd (disconnectDB close s1)) = true
       end.
Proof.
  intros Hu Hret s1.
  destruct (connectDB_cases u server s Hu)
    as (k & evs & _ & _ & _ & _ & _ & [(Hc & _ & Hclient & Hdb)|(_ & _ & Hthrown)]);
    [|rewrite Hret in Hthrown; discriminate].
  fold s1 in Hclient, Hdb. exists k.
  split; [done|]. split; [done|].
  split; [unfold getDB; by rewrite Hdb|].
  split; [unfold isConnected; by rewrite Hclient, Hdb|].
  unfold disconnectDB. rewrite Hclient.
  destruct (close k) as [err|]; cbn [fst snd].
  - split; [done|]. unfold isConnected. cbn [client db]. by rewrite ?Hclient, ?Hdb.
  - split; [reflexivity|]. split; [reflexivity|]. split; [reflexivity|].
    split; [|reflexivity].
    cbn [dbTrace say setDb setClient]. by rewrite <- app_assoc.
Qed.

Lemma connect_disconnect_round_trip_witness :
  exists k,
    getDB (snd (connectDB (Some "mongodb://db"%string) (upAfter 1) fresh)) = Returned k.
Proof.
  assert (Hu : "mongodb://db"%string <> ""%string) by discriminate.
  assert (Hret : fst (connectDB (Some "mongodb://db"%string) (upAfter 1) fresh)
                 = Returned tt) by reflexivity.
  destruct (connect_disconnect_round_trip "mongodb://db" (upAfter 1) (fun _ => None) fresh
              Hu Hret) as (k & _ & _ & Hget & _).
  exists k. exact Hget.
Defined.

(** * Properties of the interactive commands *)

Import Constants Interactive.

(** ** The chains and the keyboard *)

Lemma split_colon (a rest : string) :
  noColon a -> split (a ++ String ":"%char rest) = a :: split rest.
Proof.
  induction a as [|c a IH]; intros Ha.
  - reflexivity.
  - destruct Ha as [Hc Ha].
    change ((String c a ++ String ":"%char rest)%string)
      with (String c (a ++ String ":"%char rest)%string).
    cbn [split]. rewrite bool_decide_eq_false_2 by done. by rewrite IH.
Qed.

Lemma split_noColon (a : string) : noColon a -> split a = [a].
Proof.
  induction a as [|c a IH]; intros Ha; [done|]. destruct Ha as [Hc Ha].
  cbn [split]. rewrite bool_decide_eq_false_2 by done. by rewrite IH.
Qed.

Lemma split_button (cmd : string) (c : string * string) :
  noColon cmd -> noColon c.1 ->
  split (callback_data (chainButton cmd c)) = [cmd; "chain"%string; c.1].
Proof.
  intros Hcmd Hid. unfold chainButton. cbn [callback_data].
  change ((cmd ++ ":chain:" ++ c.1)%string)
    with ((cmd ++ String ":"%char ("chain" ++ String ":"%char c.1))%string).
  rewrite (split_colon cmd) by done.
  rewrite (split_colon "chain") by (cbn; repeat split; discriminate).
  by rewrite split_noColon.
Qed.

Lemma chainIds_noColon : Forall noColon chainIds.
Proof. repeat constructor; discriminate. Qed.

Lemma chainRows_buttons cmd chains b :
  b ∈ concat (chainRows cmd chains) -> exists c, c ∈ chains /\ b = chainButton cmd c.
Proof.
  revert b. induction chains as [chains IH] using (induction_ltof1 _ length).
  unfold ltof in IH. intros b.
  destruct chains as [|c [|c' rest]]; cbn [chainRows concat app].
  - intros H. by apply elem_of_nil in H.
  - intros H. apply list_elem_of_singleton in H as ->. exists c.
    split; [apply list_elem_of_here | done].
  - rewrite !elem_of_cons. intros [->|[->|H]].
    + exists c. split; [apply list_elem_of_here | done].
    + exists c'. split; [apply list_elem_of_further, list_elem_of_here | done].
    + destruct (IH rest ltac:(cbn; lia) b H) as (c0 & Hc0 & ->).
      exists c0. split; [by do 2 apply list_elem_of_further | done].
Qed.

(** X21.  The chain tables agree.  The identifiers offered by the keyboard
    are distinct and each is its own alias; every alias is written in lower
    case and resolves to an identifier that the keyboard offers.  The
    keyboard of a command has five rows of two chains and a row with the
    cancel button, and the data of each chain button split at the colons
    into the command, the word chain and the identifier of that chain. *)
Theorem chain_tables_agree :
  NoDup chainIds
  /\ (forall id, id ∈ chainIds -> CHAIN_ALIASES !! id = Some id)
  /\ (forall alias id, CHAIN_ALIASES !! alias = Some id ->
                       id ∈ chainIds /\ toLowerCase alias = alias)
  /\ (forall cmd, (length <$> createChainKeyboard cmd) = [2; 2; 2; 2; 2; 1]%nat)
  /\ (forall cmd b, noColon cmd -> b ∈ concat (createChainKeyboard cmd) ->
                    b = cancelButton
                    \/ exists id, id ∈ chainIds
                                  /\ split (callback_data b) = [cmd; "chain"%string; id]).
Proof.
  split; [|split; [|split; [|split]]].
  - compute_done.
  - apply Forall_forall. compute_done.
  - apply (map_Forall_lookup
             (fun alias id => id ∈ chainIds /\ toLowerCase alias = alias) CHAIN_ALIASES).
    compute_done.
  - intros cmd. reflexivity.
  - intros cmd b Hcmd Hb. unfold createChainKeyboard in Hb.
    rewrite concat_app in Hb. apply elem_of_app in Hb as [Hb|Hb].
    + right. apply chainRows_buttons in Hb as ([id label] & Hc & ->).
      assert (Hid : id ∈ chainIds) by (by apply (list_elem_of_fmap_2 fst) in Hc).
      exists id. split; [done|]. apply split_button; [done|].
      pose proof chainIds_noColon as Hall. rewrite Forall_forall in Hall. by apply Hall.
    + left. cbn in Hb. by apply list_elem_of_singleton in Hb.
Qed.

(** ** The conversations *)

Lemma othersKept_refl chat (st : State) : othersKept chat st st.
Proof. by intros c _. Qed.

Lemma othersKept_insert chat (st : State) c : othersKept chat st (<[chat := c]> st).
Proof. intros c' Hc'. by rewrite lookup_insert_ne. Qed.

Lemma othersKept_delete chat (st : State) : othersKept chat st (delete chat st).
Proof. intros c' Hc'. by rewrite lookup_delete_ne. Qed.

Lemma button_data_split (cmd id : string) :
  noColon cmd -> noColon id ->
  split (cmd ++ ":chain:" ++ id) = [cmd; "chain"%string; id]
  /\ (cmd ++ ":chain:" ++ id)%string <> "cancel"%string.
Proof.
  intros Hcmd Hid.
  assert (E : split (cmd ++ ":chain:" ++ id) = [cmd; "chain"%string; id])
    by (by apply (split_button cmd (id, ""%string))).
  split; [done|]. intros Heq. rewrite Heq in E. discriminate.
Qed.

(** What a press on a chain button does. *)
Lemma chain_press_run (chat messageId : Z) (queryId cmd id : string) (st : State) :
  noColon cmd -> noColon id ->
  let r := handleCallbackQuery chat messageId queryId (cmd ++ ":chain:" ++ id) st in
  othersKept chat st r.1
  /\ match st !! chat with
     | Some state =>
         if bool_decide (command state = cmd) then
           cmd ∈ ["add"; "remove"; "price"; "threshold"]%string ->
           r = (<[chat := {| command := cmd; step := "address"; chain := Some id;
                             address := address state |}]> st,
                [AnswerCallbackQuery queryId;
                 EditMessageText chat messageId (ChainChosen cmd (Some id))])
         else r = (st, [AnswerCallbackQuery queryId;
                        EditMessageText chat messageId SessionExpired])
     | None => r = (st, [AnswerCallbackQuery queryId;
                         EditMessageText chat messageId SessionExpired])
     end.
Proof.
  intros Hcmd Hid r. unfold r, handleCallbackQuery.
  destruct (button_data_split cmd id Hcmd Hid) as [Hsplit Hne].
  rewrite bool_decide_eq_false_2 by done. rewrite Hsplit. cbv zeta.
  change ([cmd; "chain"%string; id] !! 0%nat) with (Some cmd).
  change ([cmd; "chain"%string; id] !! 1%nat) with (Some "chain"%string).
  change ([cmd; "chain"%string; id] !! 2%nat) with (Some id).
  destruct (st !! chat) as [state|] eqn:Hst; [|split; [apply othersKept_refl | done]].
  destruct (decide (command state = cmd)) as [Hc|Hc].
  - rewrite (bool_decide_eq_true_2 (Some (command state) = Some cmd)) by congruence.
    rewrite (bool_decide_eq_true_2 (command state = cmd)) by done.
    cbn [negb]. rewrite (bool_decide_eq_true_2 (Some "chain"%string = Some "chain"%string))
      by done.
    split; [repeat case_bool_decide; apply othersKept_insert|].
    intros Hin. destruct state as [c s0 ch ad]. cbn [command address] in *. subst c.
    repeat (apply elem_of_cons in Hin as [->|Hin]); [..|by apply elem_of_nil in Hin];
      reflexivity.
  - rewrite (bool_decide_eq_false_2 (Some (command state) = Some cmd)) by congruence.
    rewrite (bool_decide_eq_false_2 (command state = cmd)) by done.
    cbn [negb]. split; [apply othersKept_refl | done].
Qed.

(** X22.  A press on a chain button is taken only by the conversation it
    belongs to.  When the chat has a conversation of the command of the
    button, and the command is add, remove, price or threshold, the press
    records the chain and moves the conversation to the address step,
    keeping what it had collected; when the chat has no conversation, or one
    of another command, the press changes nothing and the session is
    reported as expired.  No press touches the conversation of another
    chat. *)
Theorem chain_press_guarded (chat messageId : Z) (queryId cmd id : string) (st : State) :
  noColon cmd -> noColon id ->
  let r := handleCallbackQuery chat messageId queryId (cmd ++ ":chain:" ++ id) st in
  othersKept chat st r.1
  /\ match st !! chat with
     | Some state =>
         if bool_decide (command state = cmd) then
           cmd ∈ ["add"; "remove"; "price"; "threshold"]%string ->
           r = (<[chat := {| command := cmd; step := "address"; chain := Some id;
                             address := address state |}]> st,
                [AnswerCallbackQuery queryId;
                 EditMessageText chat messageId (ChainChosen cmd (Some id))])
         else r = (st, [AnswerCallbackQuery queryId;
                        EditMessageText chat messageId SessionExpired])
     | None => r = (st, [AnswerCallbackQuery queryId;
                         EditMessageText chat messageId SessionExpired])
     end.
Proof.
  intros Hcmd Hid. by apply chain_press_run.
Qed.

Lemma chain_press_guarded_witness :
  handleCallbackQuery 42 7 "q" "add:chain:solana" (handleAddInteractive 42 ∅).1
  = (<[42%Z := {| command := "add"; step := "address"; chain := Some "solana"%string;
                  address := None |}]> (handleAddInteractive 42 ∅).1,
     [AnswerCallbackQuery "q"; EditMessageText 42 7 (ChainChosen "add" (Some "solana"%string))]).
Proof.
  assert (Hcmd : noColon "add") by (cbn; repeat split; discriminate).
  assert (Hid : noColon "solana") by (cbn; repeat split; discriminate).
  assert (Hst : (handleAddInteractive 42 ∅).1 !! 42%Z
                = Some {| command := "add"; step := "chain"; chain := None;
                          address := None |}) by apply lookup_insert_eq.
  assert (Hin : "add"%string ∈ ["add"; "remove"; "price"; "threshold"]%string)
    by apply list_elem_of_here.
  destruct (chain_press_guarded 42 7 "q" "add" "solana" (handleAddInteractive 42 ∅).1
              Hcmd Hid) as [_ H].
  rewrite Hst in H. cbn [command] in H. rewrite bool_decide_eq_true_2 in H by done.
  exact (H Hin).
Defined.

Lemma validPercent_range parseFloat t x :
  validPercent parseFloat t = Some x ->
  (0 < x)%Q /\ (x <= 100)%Q /\ parseFloat t = Some x.
Proof.
  unfold validPercent. destruct (parseFloat t) as [q|]; [|done].
  destruct (Qleb q 0) eqn:E1; [done|]. destruct (Qgtb q 100) eqn:E2; [done|].
  cbn. intros [= <-]. apply Qleb_false in E1.
  assert (H : (q <= 100)%Q).
  { destruct (Qlt_le_dec 100 q) as [Hgt|Hle]; [|done].
    apply Qgtb_true in Hgt. congruence. }
  by repeat split.
Qed.

(** What a text message does to the conversations, case by case. *)
Lemma handleConversationMessage_cases trim parseFloat chat msgText (st : State) :
  let r := handleConversationMessage trim parseFloat chat msgText st in
  (r = (st, []))
  \/ (exists state text next,
         st !! chat = Some state /\ trim <$> msgText = Some text /\ text <> ""%string
         /\ (command state, step state, next)
              ∈ [("add", "address", "threshold"); ("threshold", "address", "percent")]%string
         /\ r = (<[chat := withStep next (withAddress (Some text) state)]> st,
                 [SendMessage chat (AddressReceived (command state)) []]))
  \/ (exists state,
         st !! chat = Some state
         /\ (command state, step state) ∈ [("add", "threshold"); ("threshold", "percent")]%string
         /\ r = (st, [SendMessage chat (InvalidThreshold (command state)) []]))
  \/ (exists state text a,
         st !! chat = Some state /\ trim <$> msgText = Some text /\ text <> ""%string
         /\ r = (delete chat st, [a])
         /\ ((command state = "add"%string /\ step state = "threshold"%string
              /\ exists x, a = ProcessAdd chat (chain state) (address state) x
                           /\ ((toLowerCase text = "skip"%string /\ x = 5%Q)
                               \/ (toLowerCase text <> "skip"%string
                                   /\ validPercent parseFloat text = Some x)))
             \/ (command state = "remove"%string /\ step state = "address"%string
                 /\ a = ProcessRemove chat (chain state) text)
             \/ (command state = "price"%string /\ step state = "address"%string
                 /\ a = ProcessPrice chat (chain state) text)
             \/ (command state = "search"%string /\ step state = "query"%string
                 /\ a = ProcessSearch chat text)
             \/ (command state = "threshold"%string /\ step state = "percent"%string
                 /\ exists x, a = ProcessThreshold chat (chain state) (address state) x
                              /\ validPercent parseFloat text = Some x))).
Proof.
  intros r. unfold r, handleConversationMessage.
  destruct (default false (startsWithSlash <$> msgText)); [by left|].
  destruct (st !! chat) as [state|] eqn:Hst; [|by left].
  destruct (trim <$> msgText) as [[|c0 text0]|] eqn:Htext; [by left| |by left].
  set (text := String c0 text0) in *.
  assert (Hne : text <> ""%string) by done.
  destruct (decide (command state = "add"%string)) as [Hadd|Hadd].
  { rewrite (bool_decide_eq_true_2 _ Hadd).
    destruct (decide (step state = "address"%string)) as [Hs|Hs].
    - rewrite (bool_decide_eq_true_2 _ Hs). right. left.
      exists state, text, "threshold"%string. rewrite Hadd, Hs.
      repeat split; try done. apply list_elem_of_here.
    - rewrite (bool_decide_eq_false_2 _ Hs).
      destruct (decide (step state = "threshold"%string)) as [Ht|Ht].
      + rewrite (bool_decide_eq_true_2 _ Ht).
        destruct (decide (toLowerCase text = "skip"%string)) as [Hskip|Hskip].
        * rewrite (bool_decide_eq_true_2 _ Hskip). cbn [negb].
          right. right. right. eexists state, text, _. repeat split; try done.
          left. repeat split; try done. eexists. split; [reflexivity|]. by left.
        * rewrite (bool_decide_eq_false_2 _ Hskip). cbn [negb].
          destruct (validPercent parseFloat text) as [x|] eqn:Hx.
          -- right. right. right. eexists state, text, _. repeat split; try done.
             left. repeat split; try done. eexists. split; [reflexivity|]. by right.
          -- right. right. left. exists state. rewrite Hadd, Ht.
             repeat split; try done. apply list_elem_of_here.
      + rewrite (bool_decide_eq_false_2 _ Ht). by left. }
  rewrite (bool_decide_eq_false_2 _ Hadd).
  destruct (decide (command state = "remove"%string)) as [Hrem|Hrem].
  { rewrite (bool_decide_eq_true_2 _ Hrem).
    destruct (decide (step state = "address"%string)) as [Hs|Hs].
    - rewrite (bool_decide_eq_true_2 _ Hs). right. right. right.
      eexists state, text, _. repeat split; try done. right. left. by repeat split.
    - rewrite (bool_decide_eq_false_2 _ Hs). by left. }
  rewrite (bool_decide_eq_false_2 _ Hrem).
  destruct (decide (command state = "price"%string)) as [Hpr|Hpr].
  { rewrite (bool_decide_eq_true_2 _ Hpr).
    destruct (decide (step state = "address"%string)) as [Hs|Hs].
    - rewrite (bool_decide_eq_true_2 _ Hs). right. right. right.
      eexists state, text, _. repeat split; try done. right. right. left. by repeat split.
    - rewrite (bool_decide_eq_false_2 _ Hs). by left. }
  rewrite (bool_decide_eq_false_2 _ Hpr).
  destruct (decide (command state = "search"%string)) as [Hse|Hse].
  { rewrite (bool_decide_eq_true_2 _ Hse).
    destruct (decide (step state = "query"%string)) as [Hs|Hs].
    - rewrite (bool_decide_eq_true_2 _ Hs). right. right. right.
      eexists state, text, _. repeat split; try done.
      right. right. right. left. by repeat split.
    - rewrite (bool_decide_eq_false_2 _ Hs). by left. }
  rewrite (bool_decide_eq_false_2 _ Hse).
  destruct (decide (command state = "threshold"%string)) as [Hth|Hth].
  { rewrite (bool_decide_eq_true_2 _ Hth).
    destruct (decide (step state = "address"%string)) as [Hs|Hs].
    - rewrite (bool_decide_eq_true_2 _ Hs). right. left.
      exists state, text, "percent"%string. rewrite Hth, Hs.
      repeat split; try done. apply list_elem_of_further, list_elem_of_here.
    - rewrite (bool_decide_eq_false_2 _ Hs).
      destruct (decide (step state = "percent"%string)) as [Hp|Hp].
      + rewrite (bool_decide_eq_true_2 _ Hp).
        destruct (validPercent parseFloat text) as [x|] eqn:Hx.
        * right. right. right. eexists state, text, _. repeat split; try done.
          right. right. right. right. repeat split; try done. by eexists.
        * right. right. left. exists state. rewrite Hth, Hp.
          repeat split; try done. apply list_elem_of_further, list_elem_of_here.
      + rewrite (bool_decide_eq_false_2 _ Hp). by left. }
  rewrite (bool_decide_eq_false_2 _ Hth). by left.
Qed.

(** X23.  A text message touches only the conversation of its chat and makes
    at most one call.  When the call is to a processor, the chat had a
    conversation and that conversation is over; a percentage handed on to a
    processor is greater than 0 and at most 100, the default 5 or the number
    read from the text.  In a chat without a conversation a text message
    does nothing. *)
Theorem dispatch_validated (trim : string -> string) (parseFloat : string -> option Q)
        (chat : Z) (msgText : option string) (st : State) :
  let r := handleConversationMessage trim parseFloat chat msgText st in
  othersKept chat st r.1
  /\ (length r.2 <= 1)%nat
  /\ (forall a, a ∈ r.2 -> isDispatch a = true ->
                r.1 = delete chat st /\ is_Some (st !! chat))
  /\ (forall a x, a ∈ r.2 -> percentOf a = Some x -> (0 < x)%Q /\ (x <= 100)%Q)
  /\ (st !! chat = None -> r = (st, [])).
Proof.
  intros r.
  destruct (handleConversationMessage_cases trim parseFloat chat msgText st)
    as [H|[(state & text & next & Hst & _ & _ & _ & H)
          |[(state & Hst & _ & H)|(state & text & a & Hst & _ & _ & H & Ha)]]];
    fold r in H; rewrite H; cbn [fst snd length].
  - split; [apply othersKept_refl|]. split; [lia|].
    split; [intros a Ha; by apply elem_of_nil in Ha|].
    split; [intros a x Ha; by apply elem_of_nil in Ha | done].
  - split; [apply othersKept_insert|]. split; [lia|].
    split; [intros a Ha; by apply list_elem_of_singleton in Ha as ->|].
    split; [intros a x Ha; by apply list_elem_of_singleton in Ha as -> | congruence].
  - split; [apply othersKept_refl|]. split; [lia|].
    split; [intros a Ha; by apply list_elem_of_singleton in Ha as ->|].
    split; [intros a x Ha; by apply list_elem_of_singleton in Ha as -> | congruence].
  - split; [apply othersKept_delete|]. split; [lia|].
    split; [intros a' _ _; by rewrite Hst|].
    split; [|congruence].
    intros a' x Ha'. apply list_elem_of_singleton in Ha' as ->.
    destruct Ha as [(_ & _ & y & -> & Hy)|[(_ & _ & ->)|[(_ & _ & ->)|[(_ & _ & ->)
                   |(_ & _ & y & -> & Hy)]]]]; cbn [percentOf]; try done; intros [= <-].
    + destruct Hy as [[_ ->]|[_ Hy]]; [split; lra|].
      apply validPercent_range in Hy as (? & ? & _). by split.
    + apply validPercent_range in Hy as (? & ? & _). by split.
Qed.

Lemma allWellFormed_insert chat c (st : State) :
  allWellFormed st -> wellFormed c -> allWellFormed (<[chat := c]> st).
Proof.
  intros Hst Hc chat' c'. destruct (decide (chat = chat')) as [->|Hne].
  - rewrite lookup_insert_eq. by intros [= <-].
  - rewrite lookup_insert_ne by done. apply Hst.
Qed.

Lemma allWellFormed_delete chat (st : State) :
  allWellFormed st -> allWellFormed (delete chat st).
Proof.
  intros Hst chat' c'. destruct (decide (chat = chat')) as [->|Hne].
  - by rewrite lookup_delete_eq.
  - rewrite lookup_delete_ne by done. apply Hst.
Qed.

Lemma wellFormed_begin cmd first :
  (cmd, first) ∈ [("add", "chain"); ("remove", "chain"); ("price", "chain");
                  ("search", "query"); ("threshold", "chain")]%string ->
  wellFormed {| command := cmd; step := first; chain := None; address := None |}.
Proof.
  intros Hin. unfold wellFormed. cbn [command step chain address].
  repeat (apply elem_of_cons in Hin as [[= -> ->]|Hin]);
    [..|by apply elem_of_nil in Hin];
    (split; [compute_done|]); split; intros H; exfalso; revert H; compute_done.
Qed.

Lemma wellFormed_chain_press state value :
  wellFormed state ->
  wellFormed (withChain (Some value) state)
  /\ (command state ∈ ["add"; "remove"; "price"; "threshold"]%string ->
      wellFormed (withStep "address" (withChain (Some value) state))).
Proof.
  intros (Hpair & Hchain & Haddr). split.
  - unfold wellFormed. cbn [command step chain address withChain].
    split; [done|]. split; [eauto | done].
  - intros Hone. unfold wellFormed. cbn [command step chain address withStep withChain].
    split; [|split; [eauto|]].
    + repeat (apply elem_of_cons in Hone as [->|Hone]);
        [..|by apply elem_of_nil in Hone]; compute_done.
    + intros H. exfalso. revert H. compute_done.
Qed.

Lemma wellFormed_address state text next :
  wellFormed state ->
  (command state, step state, next)
    ∈ [("add", "address", "threshold"); ("threshold", "address", "percent")]%string ->
  wellFormed (withStep next (withAddress (Some text) state)).
Proof.
  intros (Hpair & Hchain & Haddr) Hin.
  unfold wellFormed. cbn [command step chain address withStep withAddress].
  assert (Hs : step state = "address"%string).
  { repeat (apply elem_of_cons in Hin as [[= _ -> _]|Hin]); try done.
    by apply elem_of_nil in Hin. }
  assert (Hc : is_Some (chain state)) by (apply Hchain; rewrite Hs; compute_done).
  split; [|split; [done | eauto]].
  repeat (apply elem_of_cons in Hin as [[= -> _ ->]|Hin]);
    [..|by apply elem_of_nil in Hin]; compute_done.
Qed.

(** X24.  A processor is never called with an undefined chain or address.
    The conversations stay well formed: each is at a step of its command, has
    a chain once it is past the choice of the chain and an address once it is
    past the address.  This is kept by the five commands that start a
    conversation, by the cancel command, by every press on a button whose
    data name a value, and by every text message; and in such a state every
    call that a text message makes has its chain and address defined. *)
Theorem conversations_well_formed (st : State) :
  allWellFormed st ->
  (forall chat,
      allWellFormed (handleAddInteractive chat st).1
      /\ allWellFormed (handleRemoveInteractive chat st).1
      /\ allWellFormed (handlePriceInteractive chat st).1
      /\ allWellFormed (handleSearchInteractive chat st).1
      /\ allWellFormed (handleThresholdInteractive chat st).1
      /\ allWellFormed (handleCancel chat st).1)
  /\ (forall chat messageId queryId data,
         data = "cancel"%string \/ namesValue data ->
         allWellFormed (handleCallbackQuery chat messageId queryId data st).1)
  /\ (forall trim parseFloat chat msgText,
         allWellFormed (handleConversationMessage trim parseFloat chat msgText st).1
         /\ Forall definedArguments
                   (handleConversationMessage trim parseFloat chat msgText st).2).
Proof.
  intros Hst. split; [|split].
  - intros chat.
    split; [|split; [|split; [|split; [|split]]]];
      try (apply allWellFormed_insert; [done|]; apply wellFormed_begin; compute_done).
    by apply allWellFormed_delete.
  - intros chat messageId queryId data Hdata. unfold handleCallbackQuery.
    case_bool_decide as Hcancel; [by apply allWellFormed_delete|].
    destruct Hdata as [Hdata|[value Hvalue]]; [done|].
    cbv zeta. rewrite Hvalue.
    destruct (st !! chat) as [state|] eqn:Hchat; [|done].
    case_bool_decide as Hcmd; [|done]. cbn [negb].
    destruct (bool_decide (_ = Some "chain"%string)); [|done].
    destruct (wellFormed_chain_press state value (Hst _ _ Hchat)) as [Hkeep Hmove].
    rewrite <- Hcmd.
    repeat case_bool_decide; cbn [fst];
      (apply allWellFormed_insert; [done|]);
      first [ exact Hkeep
            | apply Hmove;
              match goal with
              | H : Some (command state) = Some _ |- _ => injection H as ->
              end; compute_done ].
  - intros trim parseFloat chat msgText.
    destruct (handleConversationMessage_cases trim parseFloat chat msgText st)
      as [H|[(state & text & next & Hchat & _ & _ & Hin & H)
            |[(state & Hchat & _ & H)|(state & text & a & Hchat & _ & _ & H & Ha)]]];
      cbv zeta in H; rewrite H; cbn [fst snd].
    + split; [done | constructor].
    + split; [|by repeat constructor].
      apply allWellFormed_insert; [done|]. apply wellFormed_address; [|done].
      by apply (Hst chat).
    + split; [done | by repeat constructor].
    + split; [by apply allWellFormed_delete|]. constructor; [|constructor].
      destruct (Hst _ _ Hchat) as (_ & Hchain & Haddr).
      destruct Ha as [(_ & Hs & y & -> & _)|[(_ & Hs & ->)|[(_ & Hs & ->)|[(_ & _ & ->)
                     |(_ & Hs & y & -> & _)]]]]; cbn [definedArguments]; try done;
        try split; first [apply Hchain | apply Haddr]; rewrite Hs; compute_done.
Qed.

Lemma conversations_well_formed_witness :
  allWellFormed (handleAddInteractive 42 ∅).1.
Proof.
  assert (H : allWellFormed (∅ : State)).
  { intros chat c Hc. by rewrite lookup_empty in Hc. }
  exact (proj1 (proj1 (conversations_well_formed ∅ H) 42%Z)).
Defined.

(** X25.  The interactive add ends in the add procedure with what the user
    gave.  Starting the add command, pressing the button of a chain, sending
    an address and then either the word skip or a percentage that passes the
    check calls [processAdd] once, with that chain, the address trimmed, and
    the threshold 5 or the percentage; the conversation is then over and the
    conversations are as if it had never been. *)
Theorem interactive_add_reaches_processAdd (trim : string -> string)
        (parseFloat : string -> option Q) (chat messageId : Z)
        (queryId id addr reply : string) (x : Q) (st : State) :
  noColon id ->
  startsWithSlash addr = false -> trim addr <> ""%string ->
  startsWithSlash reply = false -> trim reply <> ""%string ->
  (toLowerCase (trim reply) = "skip"%string /\ x = 5%Q)
  \/ (toLowerCase (trim reply) <> "skip"%string
      /\ validPercent parseFloat (trim reply) = Some x) ->
  let st1 := (handleAddInteractive chat st).1 in
  let st2 := (handleCallbackQuery chat messageId queryId ("add:chain:" ++ id) st1).1 in
  let st3 := (handleConversationMessage trim parseFloat chat (Some addr) st2).1 in
  handleConversationMessage trim parseFloat chat (Some reply) st3
  = (delete chat st, [ProcessAdd chat (Some id) (Some (trim addr)) x]).
Proof.
  intros Hid Haddr Htaddr Hreply Htreply Hx st1 st2 st3.
  assert (Hst1 : st1 = <[chat := {| command := "add"; step := "chain"; chain := None;
                                    address := None |}]> st) by reflexivity.
  assert (Hcmd : noColon "add") by (cbn; repeat split; discriminate).
  assert (Hst2 : st2 = <[chat := {| command := "add"; step := "address";
                                    chain := Some id; address := None |}]> st).
  { destruct (chain_press_run chat messageId queryId "add" id st1 Hcmd Hid) as [_ H].
    unfold st2. change ("add:chain:" ++ id)%string with ("add" ++ ":chain:" ++ id)%string.
    rewrite Hst1 in H |- *. rewrite lookup_insert_eq in H.
    cbn [command] in H. rewrite bool_decide_eq_true_2 in H by done.
    rewrite H by compute_done. cbn [fst address]. apply insert_insert_eq. }
  assert (Hst3 : st3 = <[chat := {| command := "add"; step := "threshold";
                                    chain := Some id; address := Some (trim addr) |}]> st).
  { unfold st3, handleConversationMessage. cbn [fmap option_fmap option_map default].
    rewrite Haddr, Hst2, lookup_insert_eq.
    destruct (trim addr) as [|c0 t0] eqn:Et; [done|].
    cbn [command step]. rewrite !bool_decide_eq_true_2 by done.
    cbn [fst]. apply insert_insert_eq. }
  unfold handleConversationMessage. cbn [fmap option_fmap option_map default].
  rewrite Hreply, Hst3, lookup_insert_eq.
  destruct (trim reply) as [|c0 t0] eqn:Et; [done|].
  cbn [command step chain address].
  rewrite (bool_decide_eq_true_2 ("add"%string = "add"%string)) by done.
  rewrite (bool_decide_eq_false_2 ("threshold"%string = "address"%string)) by done.
  rewrite (bool_decide_eq_true_2 ("threshold"%string = "threshold"%string)) by done.
  destruct Hx as [[Hskip ->]|[Hskip Hx]].
  - rewrite (bool_decide_eq_true_2 _ Hskip). cbn [negb]. by rewrite delete_insert_eq.
  - rewrite (bool_decide_eq_false_2 _ Hskip). cbn [negb]. rewrite Hx.
    by rewrite delete_insert_eq.
Qed.

Lemma interactive_add_reaches_processAdd_witness :
  handleConversationMessage (fun s => s) (fun _ => None) 42 (Some "skip"%string)
    (handleConversationMessage (fun s => s) (fun _ => None) 42 (Some "OwlMint"%string)
       (handleCallbackQuery 42 7 "q" "add:chain:solana" (handleAddInteractive 42 ∅).1).1).1
  = (delete 42%Z ∅, [ProcessAdd 42 (Some "solana"%string) (Some "OwlMint"%string) 5%Q]).
Proof.
  assert (Hid : noColon "solana") by (cbn; repeat split; discriminate).
  assert (H1 : startsWithSlash "OwlMint" = false) by reflexivity.
  assert (H2 : (fun s : string => s) "OwlMint"%string <> ""%string) by discriminate.
  assert (H3 : startsWithSlash "skip" = false) by reflexivity.
  assert (H4 : (fun s : string => s) "skip"%string <> ""%string) by discriminate.
  assert (H5 : (toLowerCase ((fun s : string => s) "skip"%string) = "skip"%string
                /\ 5%Q = 5%Q)
               \/ (toLowerCase ((fun s : string => s) "skip"%string) <> "skip"%string
                   /\ validPercent (fun _ => None) ((fun s : string => s) "skip"%string)
                      = Some 5%Q)) by (left; split; reflexivity).
  exact (interactive_add_reaches_processAdd (fun s => s) (fun _ => None) 42 7 "q" "solana"
           "OwlMint" "skip" 5%Q ∅ Hid H1 H2 H3 H4 H5).
Defined.

(** * Properties of the store on a file system that can fail *)

(** X26.  On a file system that holds the watchlist and accepts every write,
    the store with its [catch] blocks does what the store on a reliable disk
    does: each of add, remove and the two updates returns the same value,
    leaves the same watchlist on disk, and logs nothing. *)
Theorem reliable_store_refines (w : World) (p : AddParams) (a c s : string) (x : Q) :
  (exists r, addToWatchlist p w = (Ok r, run (addToWatchlist p) w)
             /\ FileStore.addToWatchlist p (clock w) (onDisk w)
                = (r, onDisk (run (addToWatchlist p) w)))
  /\ (exists r, removeFromWatchlist a c s w = (Ok r, run (removeFromWatchlist a c s) w)
                /\ FileStore.removeFromWatchlist a c s (onDisk w)
                   = (r, onDisk (run (removeFromWatchlist a c s) w)))
  /\ (exists r, updateThreshold a c s x w = (Ok r, run (updateThreshold a c s x) w)
                /\ FileStore.updateThreshold a c s x (onDisk w)
                   = (r, onDisk (run (updateThreshold a c s x) w)))
  /\ (updateLastAlertPrice a c s x w = (Ok tt, run (updateLastAlertPrice a c s x) w)
      /\ FileStore.updateLastAlertPrice a c s x (onDisk w)
         = onDisk (run (updateLastAlertPrice a c s x) w)).
Proof.
  split; [|split; [|split]].
  - unfold addToWatchlist, FileStore.addToWatchlist, FileStore.loadWatchlist,
      FileStore.saveWatchlist, run, bind, loadWatchlist, saveWatchlist, ret, onDisk.
    cbn [FileStore.content FileStore.writeError FileStore.fsLog].
    destruct (existsb _ (disk w)); eexists; split; reflexivity.
  - unfold removeFromWatchlist, FileStore.removeFromWatchlist, FileStore.loadWatchlist,
      FileStore.saveWatchlist, run, bind, loadWatchlist, saveWatchlist, ret, onDisk.
    cbn [FileStore.content FileStore.writeError FileStore.fsLog].
    destruct (_ <? _)%nat; eexists; split; reflexivity.
  - unfold updateThreshold, FileStore.updateThreshold, FileStore.loadWatchlist,
      FileStore.saveWatchlist, run, bind, loadWatchlist, saveWatchlist, ret, onDisk.
    cbn [FileStore.content FileStore.writeError FileStore.fsLog].
    destruct (findIndex _ (disk w)); eexists; split; reflexivity.
  - unfold updateLastAlertPrice, FileStore.updateLastAlertPrice, FileStore.loadWatchlist,
      FileStore.saveWatchlist, run, bind, loadWatchlist, saveWatchlist, ret, onDisk.
    cbn [FileStore.content FileStore.writeError FileStore.fsLog].
    destruct (findIndex _ (disk w)); split; reflexivity.
Qed.

(** X27.  A file that cannot be read is taken for an empty watchlist, and
    the next add replaces it.  When reading or parsing the file throws, the
    error is logged; a remove and a threshold update then find nothing and
    leave the file alone, but an add succeeds and writes a file that holds
    the new entry only, whatever the file held. *)
Theorem unreadable_file_is_overwritten (p : AddParams) (a c chat : string) (x : Q)
        (now : N) (s : FileStore.Fs) (err : string) :
  FileStore.content s = FileStore.Unreadable err ->
  FileStore.writeError s = None ->
  (FileStore.addToWatchlist p now s).1 = Some (entryOf p now)
  /\ FileStore.content (FileStore.addToWatchlist p now s).2
     = FileStore.Holds [entryOf p now]
  /\ FileStore.fsLog (FileStore.addToWatchlist p now s).2
     = FileStore.fsLog s ++ [FileStore.LogLoadError err]
  /\ (FileStore.removeFromWatchlist a c chat s).1 = false
  /\ FileStore.content (FileStore.removeFromWatchlist a c chat s).2 = FileStore.Unreadable err
  /\ (FileStore.updateThreshold a c chat x s).1 = false
  /\ FileStore.content (FileStore.updateThreshold a c chat x s).2 = FileStore.Unreadable err.
Proof.
  intros Hc Hw.
  unfold FileStore.addToWatchlist, FileStore.removeFromWatchlist, FileStore.updateThreshold,
    FileStore.loadWatchlist, FileStore.saveWatchlist.
  rewrite Hc. cbn. rewrite Hw. cbn. by rewrite Hc.
Qed.

Lemma unreadable_file_is_overwritten_witness :
  FileStore.content (FileStore.addToWatchlist owlRequest 7 unreadable).2
  = FileStore.Holds [entryOf owlRequest 7].
Proof.
  assert (Hc : FileStore.content unreadable
               = FileStore.Unreadable "EACCES: permission denied") by reflexivity.
  assert (Hw : FileStore.writeError unreadable = None) by reflexivity.
  exact (proj1 (proj2 (unreadable_file_is_overwritten owlRequest "" "" "" 0 7 unreadable
                         _ Hc Hw))).
Defined.



